(** * Crypto Monetizer: rate ranking, AI summary and the mock rate endpoint

    A shallow embedding of the business logic of [src/App.tsx]
    ([fetchRates], [analyzeWithAI]) and of the mock server route
    [GET /api/rates], together with the properties the specification
    states about them.

    JavaScript numbers are IEEE-754 binary64 values.  They are modelled by
    the Standard Library's [spec_float] with precision 53 and maximal
    exponent 1024; the arithmetic operators are the library's correctly
    rounded [SFmul], [SFdiv], [SFsub] and [SFadd].  The exact value of a
    formula of the specification is a rational number ([Q]). *)

From Stdlib Require Import ZArith Lia List Bool Permutation Sorted.
From Stdlib Require Import QArith Qabs Lqa Qpower.
From Stdlib Require Import Floats.SpecFloat.
From stdpp Require Import gmap strings list.
Import ListNotations.

Open Scope Z_scope.

(* ===================================================================== *)
(** * 1. JavaScript numbers *)
(* ===================================================================== *)

Definition number := spec_float.

Definition f64_prec : Z := 53.
Definition f64_emax : Z := 1024.
Definition f64_emin : Z := -1074.

(** A [spec_float] is a binary64 datum when it passes the library's
    [valid_binary] test (canonical mantissa and exponent in range). *)
Definition is_double (x : number) : bool := valid_binary f64_prec f64_emax x.

(** The operators [*], [/], [-] and [+] on numbers. *)
Definition js_mul : number -> number -> number := SFmul f64_prec f64_emax.
Definition js_div : number -> number -> number := SFdiv f64_prec f64_emax.
Definition js_sub : number -> number -> number := SFsub f64_prec f64_emax.
Definition js_add : number -> number -> number := SFadd f64_prec f64_emax.

Definition js_nan : number := S754_nan.
Definition js_zero : number := S754_zero false.

(** Integer literals, and decimal literals [n / d] with [n] and [d] exactly
    representable: the correctly rounded quotient is the double the
    literal denotes. *)
Definition ofZ (n : Z) : number := binary_normalize f64_prec f64_emax n 0 false.
Definition dec (n d : Z) : number := js_div (ofZ n) (ofZ d).

Definition js_one : number := Eval vm_compute in ofZ 1.

(** The value of a finite number as an integer multiple of [2 ^ a]
    (meaningful when [a] is at most the exponent of [x]). *)
Definition sval (a : Z) (x : number) : Z :=
  match x with
  | S754_finite s m e => cond_Zopp s (Zpos m * 2 ^ (e - a))
  | _ => 0
  end.

Definition common_exp (x y : number) : Z :=
  match x, y with
  | S754_finite _ _ ex, S754_finite _ _ ey => Z.min ex ey
  | S754_finite _ _ ex, _ => ex
  | _, S754_finite _ _ ey => ey
  | _, _ => 0
  end.

(** Comparison of the denoted values: [None] when an operand is NaN, the
    two zeros are equal, the infinities are the extreme elements.  Finite
    operands are aligned on their smaller exponent and compared exactly, so
    the answer does not depend on how a value is written as mantissa and
    exponent. *)
Definition ncompare (x y : number) : option comparison :=
  match x, y with
  | S754_nan, _ | _, S754_nan => None
  | S754_infinity s1, S754_infinity s2 =>
      Some (match s1, s2 with
            | true, true | false, false => Eq
            | true, false => Lt
            | false, true => Gt
            end)
  | S754_infinity s, _ => Some (if s then Lt else Gt)
  | _, S754_infinity s => Some (if s then Gt else Lt)
  | _, _ => Some (sval (common_exp x y) x ?= sval (common_exp x y) y)
  end.

(** The relational operators [<], [<=], [===], [>], [>=] on numbers. *)
Definition js_lt (x y : number) : bool :=
  match ncompare x y with Some Lt => true | _ => false end.
Definition js_le (x y : number) : bool :=
  match ncompare x y with Some (Lt | Eq) => true | _ => false end.
Definition js_eq (x y : number) : bool :=
  match ncompare x y with Some Eq => true | _ => false end.
Definition js_gt (x y : number) : bool := js_lt y x.
Definition js_ge (x y : number) : bool := js_le y x.

Definition is_nan (x : number) : bool :=
  match x with S754_nan => true | _ => false end.

(** [Number.isFinite]. *)
Definition is_finite (x : number) : bool :=
  match x with S754_zero _ | S754_finite _ _ _ => true | _ => false end.

(** [ToNumber] of a possibly missing number: [undefined] becomes NaN. *)
Definition toNumber (v : option number) : number :=
  match v with Some x => x | None => js_nan end.

(* ===================================================================== *)
(** * 2. Data model ([types.ts]) *)
(* ===================================================================== *)

Module Token.
Record t := mk
  { symbol : string;
    name : string;
    balance : string;
    price : number;
    value : number;
    logo : option string }.
End Token.

Module ExchangeRate.
Record t := mk
  { exchange : string;
    price : number;
    fee : number;
    netAmount : option number }.
End ExchangeRate.

(* ===================================================================== *)
(** * 3. [Array.prototype.sort] *)
(* ===================================================================== *)

(** The sort is stable and orders by the sign of the comparator's answer:
    [comparefn a b > 0] puts [a] after [b]; a NaN answer counts as [+0].
    It is modelled by a stable insertion sort.  For a consistent
    comparator the choice of the algorithm does not matter: a sorted
    permutation that keeps elements of equal rank in order is unique
    ([array_sort_unique] below).  Where the comparator is not consistent
    (a NaN difference among net amounts that are otherwise ordered)
    ECMAScript leaves the order to the implementation, and the insertion
    sort is one admissible order, not necessarily the engine's: what is
    stated below about the order is stated where the comparator is
    consistent; membership and permutation hold of every order. *)
Definition sorts_after {A : Type} (comparefn : A -> A -> number) (a b : A) : bool :=
  js_gt (comparefn a b) js_zero.

Fixpoint sort_insert {A : Type} (comparefn : A -> A -> number) (x : A) (l : list A) : list A :=
  match l with
  | [] => [x]
  | y :: l' =>
      if sorts_after comparefn x y then y :: sort_insert comparefn x l' else x :: l
  end.

Definition array_sort {A : Type} (comparefn : A -> A -> number) (l : list A) : list A :=
  fold_right (sort_insert comparefn) [] l.

(** [x] may stand before [y]: it does not sort after it. *)
Definition may_precede {A : Type} (comparefn : A -> A -> number) (x y : A) : Prop :=
  sorts_after comparefn x y = false.

(** Neither of [x] and [y] sorts after the other. *)
Definition same_rank {A : Type} (comparefn : A -> A -> number) (x y : A) : bool :=
  negb (sorts_after comparefn x y) && negb (sorts_after comparefn y x).

(* ===================================================================== *)
(** * 4. The rate ranker ([fetchRates], lines 116-119) *)
(* ===================================================================== *)

(** [netAmount: (token.value * (r.price / token.price)) * (1 - r.fee)] *)
Definition netProceeds (token : Token.t) (r : ExchangeRate.t) : number :=
  js_mul (js_mul (Token.value token)
                 (js_div (ExchangeRate.price r) (Token.price token)))
         (js_sub js_one (ExchangeRate.fee r)).

(** [({ ...r, netAmount: ... })] *)
Definition withNetAmount (token : Token.t) (r : ExchangeRate.t) : ExchangeRate.t :=
  {| ExchangeRate.exchange := ExchangeRate.exchange r;
     ExchangeRate.price := ExchangeRate.price r;
     ExchangeRate.fee := ExchangeRate.fee r;
     ExchangeRate.netAmount := Some (netProceeds token r) |}.

(** [(a, b) => b.netAmount - a.netAmount] *)
Definition byNetAmountDesc (a b : ExchangeRate.t) : number :=
  js_sub (toNumber (ExchangeRate.netAmount b)) (toNumber (ExchangeRate.netAmount a)).

(** [data.map(...).sort(...)], the value bound to [processedRates]. *)
Definition processedRates (token : Token.t) (data : list ExchangeRate.t)
  : list ExchangeRate.t :=
  array_sort byNetAmountDesc (map (withNetAmount token) data).

(* ===================================================================== *)
(** * 5. Component state and the two asynchronous handlers *)
(* ===================================================================== *)

(** The [useState] cells written by [fetchRates] and [analyzeWithAI], the
    prompts handed to the generation API and the lines written with
    [console.error]. *)
Record AppState := mkState
  { rates : list ExchangeRate.t;
    loading : bool;
    aiAnalysis : string;
    analyzing : bool;
    aiPrompts : list string;
    console : list string }.

Inductive exn :=
  | TypeError (msg : string)
  | Rejected (msg : string).

Inductive result (A : Type) :=
  | Ok (a : A)
  | Throw (e : exn).
Arguments Ok {A} a.
Arguments Throw {A} e.

(** What the handlers await or call and this development does not model:
    the HTTP response of [fetch(url)] followed by [response.json()], the
    [text] of the generation API's answer (possibly [undefined]), and the
    number formatting of [toFixed] and of template literals. *)
Record World := mkWorld
  { fetchJson : string -> result (list ExchangeRate.t);
    generateContent : string -> result (option string);
    toFixed : number -> nat -> string;
    numberToString : number -> string }.

(** Computations over the component state that may throw. *)
Definition M (A : Type) : Type := AppState -> AppState * result A.

Definition ret {A : Type} (a : A) : M A := fun s => (s, Ok a).
Definition throw {A : Type} (e : exn) : M A := fun s => (s, Throw e).
Definition bind {A B : Type} (m : M A) (k : A -> M B) : M B :=
  fun s => match m s with
           | (s', Ok a) => k a s'
           | (s', Throw e) => (s', Throw e)
           end.
Definition lift {A : Type} (r : result A) : M A := fun s => (s, r).

(** [try { body } catch (error) { handler } finally { fin }] *)
Definition try_catch_finally (body : M unit) (handler : exn -> M unit) (fin : M unit)
  : M unit :=
  fun s => match body s with
           | (s', Ok _) => fin s'
           | (s', Throw e) =>
               match handler e s' with
               | (s'', Ok _) => fin s''
               | (s'', Throw e') =>
                   match fin s'' with
                   | (s3, Ok _) => (s3, Throw e')
                   | (s3, Throw e3) => (s3, Throw e3)
                   end
               end
           end.

(** The monad operations are registered for the notations [x ← m; k] and
    [m;; k]. *)
#[global] Instance M_ret : MRet M := @ret.
#[global] Instance M_bind : MBind M := fun A B k m => bind m k.

Definition setRates (v : list ExchangeRate.t) : M unit :=
  fun s => (mkState v (loading s) (aiAnalysis s) (analyzing s) (aiPrompts s) (console s), Ok tt).
Definition setLoading (v : bool) : M unit :=
  fun s => (mkState (rates s) v (aiAnalysis s) (analyzing s) (aiPrompts s) (console s), Ok tt).
Definition setAiAnalysis (v : string) : M unit :=
  fun s => (mkState (rates s) (loading s) v (analyzing s) (aiPrompts s) (console s), Ok tt).
Definition setAnalyzing (v : bool) : M unit :=
  fun s => (mkState (rates s) (loading s) (aiAnalysis s) v (aiPrompts s) (console s), Ok tt).
Definition console_error (msg : string) : M unit :=
  fun s => (mkState (rates s) (loading s) (aiAnalysis s) (analyzing s) (aiPrompts s)
              (console s ++ [msg]), Ok tt).

(** [ai.models.generateContent({ contents: prompt })]: the prompt is
    recorded, the answer comes from the world. *)
Definition callGenerateContent (w : World) (prompt : string) : M (option string) :=
  fun s => (mkState (rates s) (loading s) (aiAnalysis s) (analyzing s)
              (aiPrompts s ++ [prompt]) (console s),
            generateContent w prompt).

Definition newline : string := String (Ascii.ascii_of_nat 10) EmptyString.

Fixpoint join (sep : string) (l : list string) : string :=
  match l with
  | [] => EmptyString
  | [x] => x
  | x :: l' => x +:+ sep +:+ join sep l'
  end.

(** The template literal of [analyzeWithAI].  Its placeholders are
    evaluated from left to right; the last one, [bestExchange.exchange],
    throws a [TypeError] when [bestExchange] is [undefined]. *)
Definition buildPrompt (w : World) (token : Token.t)
    (currentRates : list ExchangeRate.t) (bestExchange : option ExchangeRate.t)
  : result string :=
  let head :=
    "Analyze the current crypto market for " +:+ Token.symbol token +:+ ". "
    +:+ newline +:+ "      The user wants to sell their " +:+ Token.balance token
    +:+ " " +:+ Token.symbol token +:+ " (Value: $"
    +:+ toFixed w (Token.value token) 2 +:+ ")."
    +:+ newline +:+ "      Available rates: "
    +:+ join ", "
          (map (fun r => ExchangeRate.exchange r +:+ ": $"
                         +:+ toFixed w (ExchangeRate.price r) 2 +:+ " (Fee: "
                         +:+ numberToString w (js_mul (ExchangeRate.fee r) (ofZ 100))
                         +:+ "%)")
               currentRates)
    +:+ "." +:+ newline +:+ "      Explain why " in
  match bestExchange with
  | None => Throw (TypeError "Cannot read properties of undefined (reading 'exchange')")
  | Some b =>
      Ok (head +:+ ExchangeRate.exchange b
          +:+ " is the best choice and mention any potential risks or market trends. Keep it concise and professional.")
  end.

(** [response.text || ''] *)
Definition textOrEmpty (t : option string) : string :=
  match t with Some s => s | None => EmptyString end.

Definition analyzeWithAI (w : World) (token : Token.t)
    (currentRates : list ExchangeRate.t) : M unit :=
  setAnalyzing true;;
  try_catch_finally
    (let bestExchange := List.nth_error currentRates 0 in
     prompt ← lift (buildPrompt w token currentRates bestExchange);
     text ← callGenerateContent w prompt;
     setAiAnalysis (textOrEmpty text))
    (fun error => console_error "AI Analysis failed")
    (setAnalyzing false).

(** [fetchRates].  The call of [analyzeWithAI] is not awaited in the
    source; it catches everything it throws, so running it to completion
    inside the [try] block reaches the same final state. *)
Definition fetchRates (w : World) (token : Token.t) : M unit :=
  setLoading true;;
  try_catch_finally
    (data ← lift (fetchJson w ("/api/rates?symbol=" +:+ Token.symbol token));
     let processed := processedRates token data in
     setRates processed;;
     analyzeWithAI w token processed)
    (fun error => console_error "Error fetching rates")
    (setLoading false).

(* ===================================================================== *)
(** * 6. The mock rate endpoint ([app.get("/api/rates")]) *)
(* ===================================================================== *)

(** The value of [req.query.symbol]: absent, a string, or a repeated
    parameter. *)
Inductive query_value :=
  | QAbsent
  | QString (s : string)
  | QArray (l : list string).

(** [symbol === 'ETH' ? 2800 : symbol === 'BTC' ? 65000 : 100] *)
Definition basePrice (symbol : query_value) : number :=
  match symbol with
  | QString s =>
      if String.eqb s "ETH" then ofZ 2800
      else if String.eqb s "BTC" then ofZ 65000
      else ofZ 100
  | _ => ofZ 100
  end.

(** [1 + (Math.random() * 0.01 - 0.005)] for a draw [u] of [Math.random()]. *)
Definition priceFactor (u : number) : number :=
  js_add js_one (js_sub (js_mul u (dec 1 100)) (dec 5 1000)).

(** The handler's answer; [draws i] is what the [i]-th call of
    [Math.random()] returns. *)
Definition ratesEndpoint (symbol : query_value) (draws : nat -> number)
  : list ExchangeRate.t :=
  let basePrice := basePrice symbol in
  [ ExchangeRate.mk "Coinbase" (js_mul basePrice (priceFactor (draws 0%nat))) (dec 15 1000) None;
    ExchangeRate.mk "Binance" (js_mul basePrice (priceFactor (draws 1%nat))) (dec 1 1000) None;
    ExchangeRate.mk "Kraken" (js_mul basePrice (priceFactor (draws 2%nat))) (dec 26 10000) None;
    ExchangeRate.mk "Uniswap (DEX)" (js_mul basePrice (priceFactor (draws 3%nat))) (dec 3 1000) None ].

(** [Math.random()] returns a double in the half-open interval from 0 to 1. *)
Definition is_random_draw (u : number) : bool :=
  is_double u && js_le js_zero u && js_lt u js_one.

(* ===================================================================== *)
(** * 7. Arrays and objects as references *)
(* ===================================================================== *)

(** Arrays and objects are heap cells: [data.map] allocates a new array of
    new objects, [sort] reorders the array it is called on in place. *)
Definition loc := positive.

Inductive hobj :=
  | HToken (t : Token.t)
  | HRate (r : ExchangeRate.t)
  | HArray (elems : list loc).

Abbreviation heap := (gmap loc hobj).

(** Heap computations; [None] is a [TypeError] (a reference that does not
    hold what the code reads from it). *)
Definition heapM (A : Type) : Type := heap -> option (A * heap).

#[global] Instance heapM_ret : MRet heapM := fun A a h => Some (a, h).
#[global] Instance heapM_bind : MBind heapM :=
  fun A B k m h => match m h with Some (a, h') => k a h' | None => None end.

Definition h_fail {A : Type} : heapM A := fun _ => None.

Definition h_alloc (o : hobj) : heapM loc :=
  fun h => let l := fresh (dom h) in Some (l, <[l := o]> h).

Definition h_read (l : loc) : heapM hobj :=
  fun h => match h !! l with Some o => Some (o, h) | None => None end.

Definition h_write (l : loc) (o : hobj) : heapM unit :=
  fun h => Some (tt, <[l := o]> h).

Definition h_token (l : loc) : heapM Token.t :=
  o ← h_read l; match o with HToken t => mret t | _ => h_fail end.

Definition h_rate (l : loc) : heapM ExchangeRate.t :=
  o ← h_read l; match o with HRate r => mret r | _ => h_fail end.

Definition h_array (l : loc) : heapM (list loc) :=
  o ← h_read l; match o with HArray elems => mret elems | _ => h_fail end.

Fixpoint h_mapM {A B : Type} (f : A -> heapM B) (l : list A) : heapM (list B) :=
  match l with
  | [] => mret []
  | x :: l' => y ← f x; ys ← h_mapM f l'; mret (y :: ys)
  end.

(** [a.map(callback)]: a fresh array holding the callback's results. *)
Definition array_map_h (callback : loc -> heapM loc) (a : loc) : heapM loc :=
  elems ← h_array a;
  out ← h_mapM callback elems;
  h_alloc (HArray out).

(** [a.sort(comparefn)]: the cell of [a] is overwritten with the sorted
    sequence of the same references, and [a] itself is returned. *)
Definition array_sort_h (comparefn : ExchangeRate.t -> ExchangeRate.t -> number)
    (a : loc) : heapM loc :=
  elems ← h_array a;
  objs ← h_mapM (fun l => r ← h_rate l; mret (l, r)) elems;
  h_write a (HArray (map fst
     (array_sort (fun p q => comparefn (snd p) (snd q)) objs)));;
  mret a.

(** [r => ({ ...r, netAmount: ... })] with [token] a captured reference. *)
Definition withNetAmount_h (token : loc) (r : loc) : heapM loc :=
  t ← h_token token;
  x ← h_rate r;
  h_alloc (HRate (withNetAmount t x)).

Definition processedRates_h (token data : loc) : heapM loc :=
  mapped ← array_map_h (withNetAmount_h token) data;
  array_sort_h byNetAmountDesc mapped.

(** The sequence of records an array reference denotes in a heap. *)
Definition h_rates (a : loc) : heapM (list ExchangeRate.t) :=
  elems ← h_array a; h_mapM h_rate elems.

Definition read_rates (h : heap) (a : loc) : option (list ExchangeRate.t) :=
  match h_rates a h with Some (rs, _) => Some rs | None => None end.

Definition read_token (h : heap) (l : loc) : option Token.t :=
  match h_token l h with Some (t, _) => Some t | None => None end.

(* ===================================================================== *)
(** * 8. The domains the specification names *)
(* ===================================================================== *)

(** Specification, section 4.1: a holding has [unitPrice > 0] and
    [totalValue >= 0], both finite. *)
Definition spec_valid_holding (H : Token.t) : bool :=
  is_finite (Token.price H) && is_finite (Token.value H)
  && js_gt (Token.price H) js_zero && js_ge (Token.value H) js_zero.

(** Specification, section 4.1: a quote has [unitPrice > 0] and
    [0 <= fee < 1], both finite. *)
Definition spec_valid_quote (q : ExchangeRate.t) : bool :=
  is_finite (ExchangeRate.price q) && is_finite (ExchangeRate.fee q)
  && js_gt (ExchangeRate.price q) js_zero
  && js_le js_zero (ExchangeRate.fee q) && js_lt (ExchangeRate.fee q) js_one.

(** [Math.abs]. *)
Definition js_abs : number -> number := SFabs.

(** The list is non-increasing in the sense of [>=] between every earlier
    and every later element. *)
Definition descending (l : list number) : Prop :=
  forall i j x y, (i < j)%nat -> l !! i = Some x -> l !! j = Some y -> js_ge x y = true.

(** The net amount a ranked record carries. *)
Definition netOf (q : ExchangeRate.t) : number := toNumber (ExchangeRate.netAmount q).

(** The records of a list whose net amount equals [v]. *)
Definition with_net (v : number) (l : list ExchangeRate.t) : list ExchangeRate.t :=
  List.filter (fun q => js_eq (netOf q) v) l.

(** The world [w] with the rate endpoint answering [r]. *)
Definition answering (w : World) (r : result (list ExchangeRate.t)) : World :=
  mkWorld (fun _ => r) (generateContent w) (toFixed w) (numberToString w).

(** A run of [fetchRates] failed: it threw, or took its [catch] branch. *)
Definition ranking_failed (before : AppState) (out : AppState * result unit) : Prop :=
  (exists e, snd out = Throw e) \/
  console (fst out) = console before ++ ["Error fetching rates"].

(* ===================================================================== *)
(** * 9. Round to nearest even on scaled integers *)
(* ===================================================================== *)

(** The integer [M] stands for the real [M * 2 ^ a].  [RN a M] is the
    binary64 rounding of that real, again as a multiple of [2 ^ a]; the
    arithmetic operators are characterised against it below. *)
Definition f64_fexp (k : Z) : Z := Z.max (k - f64_prec) f64_emin.

Definition digitsZ (M : Z) : Z := Z.log2 M + 1.

(** [M] divided by [2 ^ n] and rounded to the nearest integer, ties to
    the even one. *)
Definition round_shift (n M : Z) : Z :=
  let q := M / 2 ^ n in
  let r := M mod 2 ^ n in
  q + (if (2 ^ n <? 2 * r) || ((2 ^ n =? 2 * r) && Z.odd q) then 1 else 0).

Definition RN (a M : Z) : Z :=
  if M <=? 0 then 0
  else
    let n := f64_fexp (digitsZ M + a) - a in
    round_shift n M * 2 ^ n.

Definition RNs (a M : Z) : Z := Z.sgn M * RN a (Z.abs M).

(** Zero, or a finite number with at most 53 significant bits and an
    exponent between the least and the greatest binary64 exponent. *)
Definition okf (x : number) : bool :=
  match x with
  | S754_zero _ => true
  | S754_finite _ m e =>
      (f64_emin <=? e) && (e <=? f64_emax - f64_prec) && (Zpos (digits2_pos m) <=? f64_prec)
  | _ => false
  end.

(** The sign bit of a number ([false] for NaN). *)
Definition sign_of (x : number) : bool :=
  match x with
  | S754_zero s | S754_infinity s | S754_finite s _ _ => s
  | S754_nan => false
  end.

(** [r] is the number of sign [s] and magnitude [V * 2 ^ a]: a zero when
    [V] is zero, an infinity when [V] is beyond the finite range (or when
    the side condition [P] holds). *)
Definition encodes_or (P : Prop) (a : Z) (s : bool) (V : Z) (r : number) : Prop :=
  match r with
  | S754_zero s' => s' = s /\ V = 0
  | S754_finite s' m e => s' = s /\ okf r = true /\ Zpos m * 2 ^ (e - a) = V
  | S754_infinity s' => s' = s /\ (P \/ 2 ^ (f64_emax - a) <= V)
  | S754_nan => False
  end.

Definition encodes : Z -> bool -> Z -> number -> Prop := encodes_or False.

(** The exponent of a finite number. *)
Definition fexpo (x : number) : Z :=
  match x with S754_finite _ _ e => e | _ => 0 end.

(** [r] is the binary64 rounding of the real [V * 2 ^ a]: either a number
    of the finite range whose value is [RNs a V], or the infinity of the
    sign of [V] when the rounding is beyond that range (or when the side
    condition [P] holds). *)
Definition rounds_to_or (P : Prop) (a V : Z) (r : number) : Prop :=
  (okf r = true /\ sval a r = RNs a V) \/
  (exists s, r = S754_infinity s /\ s = (V <? 0)
             /\ (P \/ 2 ^ (f64_emax - a) <= RN a (Z.abs V))).

Definition rounds_to : Z -> Z -> number -> Prop := rounds_to_or False.

Definition is_inf (x : number) : bool :=
  match x with S754_infinity _ => true | _ => false end.

(** What the arithmetic operators return: NaN, an infinity, or a number
    of the finite range. *)
Definition numk (x : number) : bool := okf x || is_inf x || is_nan x.

(** An order-preserving integer key for the numbers that are not NaN. *)
Definition ord_key (x : number) : Z :=
  match x with
  | S754_infinity s => cond_Zopp s (2 ^ (f64_emax - f64_emin))
  | _ => sval f64_emin x
  end.

(** ** Inexact locations, keys and the sticky quotient *)

(** The position of a remainder as two bits below the quotient. *)
Definition loc_bits (l : location) : Z :=
  match l with
  | loc_Exact => 0
  | loc_Inexact Lt => 1
  | loc_Inexact Eq => 2
  | loc_Inexact Gt => 3
  end.

(** The position of the remainder [r] of a division by [m2], as two bits. *)
Definition remainder_bits (r m2 : Z) : Z :=
  if r =? 0 then 0 else if 2 * r <? m2 then 1 else if 2 * r =? m2 then 2 else 3.

(** The exponent and the shift [SFdiv_core_binary] chooses. *)
Definition div_exp (d1 e1 d2 e2 : Z) : Z :=
  Z.min (f64_fexp (d1 + e1 - (d2 + e2))) (e1 - e2).

(** The key of an infinity at scale [a]: so large that its product with
    the least positive double is still beyond the finite range. *)
Definition inf_key (a : Z) : Z := 2 ^ (f64_emax - f64_emin - a).

(** An order-preserving integer key at scale [a] for the numbers that are
    not NaN. *)
Definition xkey (a : Z) (x : number) : Z :=
  match x with
  | S754_infinity s => cond_Zopp s (inf_key a)
  | _ => sval a x
  end.

(** The key of the binary64 rounding of the real [V * 2 ^ a]. *)
Definition RNc (a V : Z) : Z :=
  if 2 ^ (f64_emax - a) <=? RN a (Z.abs V) then Z.sgn V * inf_key a else RNs a V.

(** A double that is not NaN. *)
Definition dnum (x : number) : bool := is_double x && negb (is_nan x).

(** The rational [N / D] as an integer with a sticky last bit: twice its
    integer part, plus one when it is not an integer. *)
Definition sticky (N D : Z) : Z := 2 * (N / D) + (if N mod D =? 0 then 0 else 1).

(** ** Exact values and accuracy *)

(** The exact value of a finite number as a rational. *)
Definition toQ (x : number) : Q :=
  match x with
  | S754_finite s m e => (inject_Z (cond_Zopp s (Zpos m)) * 2 ^ e)%Q
  | _ => 0%Q
  end.

(** [x] is [e] up to the relative error [d]. *)
Definition approx (d x e : Q) : Prop := (Qabs (x - e) <= d * Qabs e)%Q.

(** The relative error of one rounding to nearest, [2^-52]. *)
Definition eps52 : Q := 1 # 4503599627370496.

(** The least positive normal double, [2^-1022]. *)
Definition min_normal : number := S754_finite false 4503599627370496 (-1074).

(** A finite number of the normal range. *)
Definition is_normal (x : number) : bool := is_finite x && js_le min_normal (js_abs x).

(** A zero of either sign. *)
Definition is_zero (x : number) : bool :=
  match x with S754_zero _ => true | _ => false end.

(** The relative error granted to a quotient, [2^-50]. *)
Definition eps50 : Q := 1 # 1125899906842624.

(** Specification, sections 3 and 4.1: the net proceeds
    [holding.totalValue * (quote.unitPrice / holding.unitPrice) * (1 - quote.fee)]
    as the exact rational value of the formula. *)
Definition exact_netAmount (H : Token.t) (q : ExchangeRate.t) : Q :=
  (toQ (Token.value H) * (toQ (ExchangeRate.price q) / toQ (Token.price H))
   * (1 - toQ (ExchangeRate.fee q)))%Q.

(** Specification, section 8: the relative tolerance [1e-9]. *)
Definition tolerance : Q := 1 # 1000000000.

(** The number [x] is finite and equals the rational [v] within the
    relative tolerance. *)
Definition within_tolerance (x : number) (v : Q) : bool :=
  is_finite x && Qle_bool (Qabs (toQ x - v)) (tolerance * Qabs v).

(** A finite binary64 datum. *)
Definition finite_double (x : number) : bool := is_double x && is_finite x.

(** None of the three roundings of the formula that can overflow or
    underflow does so: the quotient and the two products are numbers of
    the normal range, or zero because an operand is zero. *)
Definition rounds_in_range (H : Token.t) (q : ExchangeRate.t) : bool :=
  let ratio := js_div (ExchangeRate.price q) (Token.price H) in
  let gross := js_mul (Token.value H) ratio in
  let keep := js_sub js_one (ExchangeRate.fee q) in
  (is_normal ratio || is_zero (ExchangeRate.price q))
  && (is_normal gross || is_zero (Token.value H) || is_zero ratio)
  && (is_normal (js_mul gross keep) || is_zero gross || is_zero keep).

(** The net amount as a function of its four inputs. *)
Definition net_of (v p P f : number) : number :=
  js_mul (js_mul v (js_div p P)) (js_sub js_one f).

(** A quote of binary64 data with a finite positive price and a fee from
    0 to below 1. *)
Definition sound_quote (q : ExchangeRate.t) : bool :=
  is_double (ExchangeRate.price q) && is_double (ExchangeRate.fee q)
  && is_finite (ExchangeRate.price q) && js_lt js_zero (ExchangeRate.price q)
  && js_le js_zero (ExchangeRate.fee q) && js_lt (ExchangeRate.fee q) js_one.

(** A holding of binary64 data with a finite positive unit price and a
    value that is not negative. *)
Definition sound_holding (H : Token.t) : bool :=
  is_double (Token.price H) && is_double (Token.value H)
  && is_finite (Token.price H) && js_lt js_zero (Token.price H)
  && js_le js_zero (Token.value H).

(* ===================================================================== *)
(** * 10. Scenarios *)
(* ===================================================================== *)

(** The scenario of section 8 of the specification; the quotes are given
    in the opposite order, so that ranking them has to reorder them. *)
Definition scenario_holding : Token.t :=
  Token.mk "ETH" "Ethereum" "0.357142857142857142" (ofZ 2800) (ofZ 1000) None.

Definition scenario_quotes : list ExchangeRate.t :=
  [ ExchangeRate.mk "B" (ofZ 2805) (dec 2 100) None;
    ExchangeRate.mk "A" (ofZ 2800) (dec 1 100) None ].

(** The heap of the scenario: the holding at 1, the two quotes at 2 and 3,
    the array of the quotes at 4. *)
Definition scenario_heap : heap :=
  <[4%positive := HArray [2%positive; 3%positive]]>
    (<[3%positive := HRate (ExchangeRate.mk "A" (ofZ 2800) (dec 1 100) None)]>
       (<[2%positive := HRate (ExchangeRate.mk "B" (ofZ 2805) (dec 2 100) None)]>
          (<[1%positive := HToken scenario_holding]> ∅))).

(** The greatest double below 1, [1 - 2^-53]. *)
Definition max_draw : number := S754_finite false (2 ^ 53 - 1) (-53).

(** A holding whose unit price is the least positive double, [5e-324]. *)
Definition dust_holding (totalValue : number) : Token.t :=
  Token.mk "DUST" "Dust" "0" (S754_finite false 1 (-1074)) totalValue None.

(** A quote at unit price [1]. *)
Definition unit_quote (fee : number) : ExchangeRate.t :=
  ExchangeRate.mk "X" js_one fee None.

(** A quote with a negative price and a fee of 200 percent. *)
Definition malformed_quote : ExchangeRate.t :=
  ExchangeRate.mk "Bad" (ofZ (-1)) (ofZ 2) None.

(** A holding with unit price [0] and a negative total value. *)
Definition malformed_holding : Token.t :=
  Token.mk "ETH" "Ethereum" "-1" js_zero (ofZ (-5)) None.

(** A world whose rate endpoint answers [data] and whose generation API
    answers a fixed text. *)
Definition fixed_world (data : list ExchangeRate.t) : World :=
  mkWorld (fun _ => Ok data) (fun _ => Ok (Some "summary"))
          (fun _ _ => "0.00") (fun _ => "0").

Definition initial_state : AppState := mkState [] false "" false [] [].

(** A holding of value [2^1000] at the unit price [2^600], and a quote at
    the price [3 * 2^-475] without fee: the quotient of the prices is
    subnormal. *)
Definition steep_holding : Token.t :=
  Token.mk "ETH" "Ethereum" "1" (ofZ (2 ^ 600)) (ofZ (2 ^ 1000)) None.

Definition faint_quote : ExchangeRate.t :=
  ExchangeRate.mk "A" (dec 3 (2 ^ 475)) (ofZ 0) None.

(** A holding of value [2^-700] at the unit price [2^-600], and a quote
    at the price [2^600] without fee: the quotient of the prices
    overflows. *)
Definition tiny_holding : Token.t :=
  Token.mk "ETH" "Ethereum" "1" (dec 1 (2 ^ 600)) (dec 1 (2 ^ 700)) None.

Definition huge_quote : ExchangeRate.t :=
  ExchangeRate.mk "A" (ofZ (2 ^ 600)) (ofZ 0) None.

(** A holding without value at the unit price [2^-600], and two valid
    quotes at the prices 1 and [2^600] without fee: the second quotient
    of prices overflows. *)
Definition idle_holding : Token.t :=
  Token.mk "ETH" "Ethereum" "0" (dec 1 (2 ^ 600)) (ofZ 0) None.

Definition spread_quotes : list ExchangeRate.t :=
  [ ExchangeRate.mk "A" (ofZ 1) (ofZ 0) None;
    ExchangeRate.mk "B" (ofZ (2 ^ 600)) (ofZ 0) None ].

(* ===================================================================== *)
(** * 11. Binary64 rounding: the operators against exact arithmetic *)
(* ===================================================================== *)

Lemma digits2_pos_size (m : positive) : digits2_pos m = Pos.size m.
Proof. induction m as [m IH|m IH|]; simpl; congruence. Qed.

Lemma digits2_pos_log2 (m : positive) : Zpos (digits2_pos m) = digitsZ (Zpos m).
Proof.
  unfold digitsZ. rewrite digits2_pos_size.
  destruct m as [m|m|]; simpl; try reflexivity; lia.
Qed.

Lemma digitsZ_bounds (M : Z) : 0 < M -> 2 ^ (digitsZ M - 1) <= M < 2 ^ digitsZ M.
Proof.
  intros HM. unfold digitsZ.
  replace (Z.log2 M + 1 - 1) with (Z.log2 M) by lia.
  replace (Z.log2 M + 1) with (Z.succ (Z.log2 M)) by lia.
  apply Z.log2_spec. exact HM.
Qed.

Lemma digitsZ_pos (M : Z) : 0 < M -> 0 < digitsZ M.
Proof. intros HM. unfold digitsZ. pose proof (Z.log2_nonneg M). lia. Qed.

Lemma digitsZ_unique (M k : Z) : 2 ^ (k - 1) <= M < 2 ^ k -> 0 < M -> digitsZ M = k.
Proof.
  intros Hk HM. unfold digitsZ.
  assert (0 <= k - 1).
  { destruct (Z_lt_le_dec (k - 1) 0) as [Hn|Hn]; [|exact Hn].
    exfalso. assert (k <= 0) by lia.
    destruct (Z.eq_dec k 0) as [->|Hk0].
    - simpl in Hk. lia.
    - rewrite (Z.pow_neg_r 2 k) in Hk by lia. lia. }
  rewrite (Z.log2_unique M (k - 1)); [lia|lia|].
  replace (Z.succ (k - 1)) with k by lia. exact Hk.
Qed.

Lemma digitsZ_mul_pow2 (M j : Z) : 0 < M -> 0 <= j -> digitsZ (M * 2 ^ j) = digitsZ M + j.
Proof.
  intros HM Hj. unfold digitsZ. rewrite Z.log2_mul_pow2 by lia. lia.
Qed.

Lemma digitsZ_le (M N : Z) : 0 < M -> M <= N -> digitsZ M <= digitsZ N.
Proof. intros HM HMN. unfold digitsZ. pose proof (Z.log2_le_mono M N HMN). lia. Qed.

Lemma iter_pos_nat {A : Type} (f : A -> A) (p : positive) (x : A) :
  SpecFloat.iter_pos f p x = Nat.iter (Pos.to_nat p) f x.
Proof.
  revert x. induction p as [p IH|p IH|]; intros x; cbn [SpecFloat.iter_pos].
  - rewrite !IH, Pos2Nat.inj_xI, Nat.iter_succ_r.
    replace (2 * Pos.to_nat p)%nat with (Pos.to_nat p + Pos.to_nat p)%nat by lia.
    rewrite Nat.iter_add. reflexivity.
  - rewrite !IH, Pos2Nat.inj_xO.
    replace (2 * Pos.to_nat p)%nat with (Pos.to_nat p + Pos.to_nat p)%nat by lia.
    rewrite Nat.iter_add. reflexivity.
  - reflexivity.
Qed.

Lemma shr_1_nonneg (mrs : shr_record) :
  0 <= shr_m mrs ->
  shr_1 mrs = Build_shr_record (shr_m mrs / 2) (Z.odd (shr_m mrs)) (shr_r mrs || shr_s mrs).
Proof.
  destruct mrs as [m r s]. simpl. intros Hm.
  destruct m as [|[p|p|]|p]; try lia; try reflexivity.
  - replace (Z.pos p~1 / 2) with (Z.pos p); [reflexivity|].
    rewrite Pos2Z.inj_xI. apply (Z.div_unique _ _ _ 1); lia.
  - replace (Z.pos p~0 / 2) with (Z.pos p); [reflexivity|].
    rewrite Pos2Z.inj_xO. apply (Z.div_unique _ _ _ 0); lia.
Qed.

(** After [n >= 1] halvings of an exact record: the quotient, the bit just
    below it and whether anything lies below that bit. *)
Lemma shr_iter_exact (m0 : Z) (n : nat) :
  0 <= m0 -> (1 <= n)%nat ->
  Nat.iter n shr_1 (Build_shr_record m0 false false) =
  Build_shr_record (m0 / 2 ^ Z.of_nat n)
                   (Z.odd (m0 / 2 ^ (Z.of_nat n - 1)))
                   (negb (m0 mod 2 ^ (Z.of_nat n - 1) =? 0)).
Proof.
  intros Hm Hn. induction n as [|n IH]; [lia|].
  destruct n as [|n].
  - unfold Nat.iter; cbn [nat_rect]. rewrite shr_1_nonneg by (simpl; lia).
    cbn [shr_m shr_r shr_s orb]. change (Z.of_nat 1) with 1. change (1 - 1) with 0.
    change (2 ^ 0) with 1.
    rewrite Z.pow_1_r, Z.div_1_r, Z.mod_1_r. reflexivity.
  - rewrite Nat.iter_succ. rewrite IH by lia. clear IH.
    set (k := Z.of_nat (S n)). assert (Hk : 1 <= k) by (unfold k; lia).
    replace (Z.of_nat (S (S n))) with (k + 1) by (unfold k; lia).
    assert (Hp : 0 < 2 ^ k) by (apply Z.pow_pos_nonneg; lia).
    assert (Hp1 : 0 < 2 ^ (k - 1)) by (apply Z.pow_pos_nonneg; lia).
    rewrite shr_1_nonneg by (simpl; apply Z.div_pos; lia).
    simpl shr_m. simpl shr_r. simpl shr_s.
    replace (k + 1 - 1) with k by lia.
    f_equal.
    + rewrite Z.pow_add_r by lia. rewrite Z.pow_1_r.
      rewrite Z.div_div by lia. reflexivity.
    + (* sticky bit *)
      assert (Hrec : m0 mod 2 ^ k = m0 mod 2 ^ (k - 1) + 2 ^ (k - 1) * ((m0 / 2 ^ (k - 1)) mod 2)).
      { replace (2 ^ k) with (2 ^ (k - 1) * 2).
        - apply Z.rem_mul_r; lia.
        - rewrite Z.mul_comm, <- (Z.pow_succ_r 2 (k - 1)) by lia. f_equal. lia. }
      pose proof (Z.mod_pos_bound m0 (2 ^ (k - 1)) Hp1) as Hb.
      rewrite Hrec. rewrite Zmod_odd.
      destruct (Z.odd (m0 / 2 ^ (k - 1))); simpl.
      * destruct (Z.eqb_spec (m0 mod 2 ^ (k - 1) + 2 ^ (k - 1) * 1) 0); [lia | reflexivity].
      * rewrite Z.mul_0_r, Z.add_0_r. reflexivity.
Qed.

Lemma pow2_pos (k : Z) : 0 <= k -> 0 < 2 ^ k.
Proof. intros Hk. apply Z.pow_pos_nonneg; lia. Qed.

Lemma pow2_split (j k : Z) : 0 <= j -> 0 <= k -> 2 ^ (j + k) = 2 ^ j * 2 ^ k.
Proof. intros Hj Hk. apply Z.pow_add_r; assumption. Qed.

Lemma pow2_le (j k : Z) : 0 <= j <= k -> 2 ^ j <= 2 ^ k.
Proof. intros H. apply Z.pow_le_mono_r; lia. Qed.

Lemma pow2_lt (j k : Z) : 0 <= j < k -> 2 ^ j < 2 ^ k.
Proof. intros H. apply Z.pow_lt_mono_r; lia. Qed.

Lemma fexp_f64 (k : Z) : fexp f64_prec f64_emax k = f64_fexp k.
Proof. reflexivity. Qed.

Lemma f64_fexp_ge_emin (k : Z) : f64_emin <= f64_fexp k.
Proof. unfold f64_fexp. lia. Qed.

Lemma Zdigits2_digitsZ (M : Z) : 0 < M -> Zdigits2 M = digitsZ M.
Proof.
  intros HM. destruct M as [|m|m]; try lia. simpl. apply digits2_pos_log2.
Qed.

(** Rounding after [p] halvings of an exact record. *)
Lemma shr_round (m0 : Z) (p : positive) :
  0 <= m0 ->
  let mrs := SpecFloat.iter_pos shr_1 p (Build_shr_record m0 false false) in
  shr_m mrs = m0 / 2 ^ Zpos p /\
  round_nearest_even (shr_m mrs) (loc_of_shr_record mrs) = round_shift (Zpos p) m0.
Proof.
  intros Hm mrs. unfold mrs. clear mrs.
  rewrite iter_pos_nat, shr_iter_exact by lia.
  rewrite positive_nat_Z.
  set (n := Zpos p). assert (Hn : 1 <= n) by (unfold n; lia).
  split; [reflexivity|].
  cbn [shr_m]. unfold round_shift.
  assert (Hp1 : 0 < 2 ^ (n - 1)) by (apply pow2_pos; lia).
  assert (Hpn : 2 ^ n = 2 * 2 ^ (n - 1)).
  { rewrite <- (Z.pow_succ_r 2 (n - 1)) by lia. f_equal. lia. }
  assert (Hrec : m0 mod 2 ^ n = m0 mod 2 ^ (n - 1) + 2 ^ (n - 1) * ((m0 / 2 ^ (n - 1)) mod 2)).
  { rewrite Hpn, (Z.mul_comm 2). apply Z.rem_mul_r; lia. }
  pose proof (Z.mod_pos_bound m0 (2 ^ (n - 1)) Hp1) as Hb.
  rewrite Zmod_odd in Hrec.
  set (q := m0 / 2 ^ n) in *.
  set (rem := m0 mod 2 ^ n) in *.
  set (low := m0 mod 2 ^ (n - 1)) in *.
  destruct (Z.odd (m0 / 2 ^ (n - 1))); destruct (Z.eqb_spec low 0) as [Hl|Hl];
    cbn [negb loc_of_shr_record round_nearest_even].
  - (* tie *)
    assert (H1 : (2 ^ n <? 2 * rem) = false) by (apply Z.ltb_ge; lia).
    assert (H2 : (2 ^ n =? 2 * rem) = true) by (apply Z.eqb_eq; lia).
    rewrite H1, H2. cbn [orb andb]. rewrite <- Z.negb_odd.
    destruct (Z.odd q); cbn [negb]; lia.
  - assert (H1 : (2 ^ n <? 2 * rem) = true) by (apply Z.ltb_lt; lia).
    rewrite H1. cbn [orb]. reflexivity.
  - assert (H1 : (2 ^ n <? 2 * rem) = false) by (apply Z.ltb_ge; lia).
    assert (H2 : (2 ^ n =? 2 * rem) = false) by (apply Z.eqb_neq; lia).
    rewrite H1, H2. cbn [orb andb]. lia.
  - assert (H1 : (2 ^ n <? 2 * rem) = false) by (apply Z.ltb_ge; lia).
    assert (H2 : (2 ^ n =? 2 * rem) = false) by (apply Z.eqb_neq; lia).
    rewrite H1, H2. cbn [orb andb]. lia.
Qed.

Lemma round_shift_bounds (n M : Z) :
  0 <= n -> 0 <= M -> M / 2 ^ n <= round_shift n M <= M / 2 ^ n + 1.
Proof.
  intros Hn HM. unfold round_shift.
  destruct ((2 ^ n <? 2 * (M mod 2 ^ n)) || ((2 ^ n =? 2 * (M mod 2 ^ n)) && Z.odd (M / 2 ^ n))); lia.
Qed.

Lemma round_shift_0 (M : Z) : round_shift 0 M = M.
Proof.
  unfold round_shift. change (2 ^ 0) with 1. rewrite Z.div_1_r, Z.mod_1_r.
  change (1 <? 2 * 0) with false. change (1 =? 2 * 0) with false.
  cbn [orb andb]. lia.
Qed.

(** A multiple of [2 ^ n] is divided exactly. *)
Lemma round_shift_exact (n K : Z) : 0 <= n -> round_shift n (K * 2 ^ n) = K.
Proof.
  intros Hn. unfold round_shift.
  pose proof (pow2_pos n Hn) as Hp.
  rewrite Z.div_mul by lia. rewrite Z.mod_mul by lia.
  assert (H1 : (2 ^ n <? 2 * 0) = false) by (apply Z.ltb_ge; lia).
  assert (H2 : (2 ^ n =? 2 * 0) = false) by (apply Z.eqb_neq; lia).
  rewrite H1, H2. cbn [orb andb]. lia.
Qed.

(** Scaling the argument and the shift together changes nothing. *)
Lemma round_shift_scale (n j M : Z) :
  0 <= n -> 0 <= j -> round_shift (n + j) (M * 2 ^ j) = round_shift n M.
Proof.
  intros Hn Hj. unfold round_shift.
  pose proof (pow2_pos n Hn) as Hpn. pose proof (pow2_pos j Hj) as Hpj.
  rewrite (pow2_split n j) by lia.
  rewrite Z.div_mul_cancel_r by lia.
  rewrite Z.mul_mod_distr_r by lia.
  set (q := M / 2 ^ n). set (r := M mod 2 ^ n).
  replace (2 ^ n * 2 ^ j <? 2 * (r * 2 ^ j)) with (2 ^ n <? 2 * r).
  2:{ destruct (Z.ltb_spec (2 ^ n) (2 * r)); symmetry; [apply Z.ltb_lt | apply Z.ltb_ge]; nia. }
  replace (2 ^ n * 2 ^ j =? 2 * (r * 2 ^ j)) with (2 ^ n =? 2 * r).
  2:{ destruct (Z.eqb_spec (2 ^ n) (2 * r)); symmetry; [apply Z.eqb_eq | apply Z.eqb_neq]; nia. }
  reflexivity.
Qed.

Lemma digitsZ_le_of_lt (N k : Z) : 0 < N < 2 ^ k -> digitsZ N <= k.
Proof.
  intros [HN Hk].
  destruct (Z_lt_le_dec k 0) as [Hneg|Hnn].
  { rewrite Z.pow_neg_r in Hk by lia. lia. }
  pose proof (digitsZ_bounds N HN) as [Hlo _].
  pose proof (digitsZ_pos N HN) as Hd.
  destruct (Z_lt_le_dec k (digitsZ N)) as [Hlt|Hle]; [|exact Hle].
  exfalso. assert (2 ^ k <= 2 ^ (digitsZ N - 1)) by (apply pow2_le; lia). lia.
Qed.

Lemma digitsZ_pow2 (k : Z) : 0 <= k -> digitsZ (2 ^ k) = k + 1.
Proof. intros Hk. unfold digitsZ. rewrite Z.log2_pow2 by lia. reflexivity. Qed.

Lemma div_pow2_lt (M d n : Z) :
  0 <= M < 2 ^ d -> 0 <= n -> d <= 53 + n -> M / 2 ^ n < 2 ^ 53.
Proof.
  intros [HM Hd] Hn Hdn.
  apply Z.div_lt_upper_bound; [apply pow2_pos; lia|].
  rewrite Z.mul_comm, <- pow2_split by lia.
  destruct (Z_lt_le_dec d 0) as [Hneg|Hnn].
  { rewrite Z.pow_neg_r in Hd by lia. lia. }
  assert (2 ^ d <= 2 ^ (53 + n)) by (apply pow2_le; lia). lia.
Qed.

Lemma div_pow2_ge (M d : Z) :
  2 ^ (d - 1) <= M -> 53 <= d -> 2 ^ 52 <= M / 2 ^ (d - 53).
Proof.
  intros HM Hd.
  apply Z.div_le_lower_bound; [apply pow2_pos; lia|].
  rewrite <- pow2_split by lia.
  replace (d - 53 + 52) with (d - 1) by lia. exact HM.
Qed.

Lemma stage1 (M e : Z) :
  0 < M ->
  exists mrs e1,
    shr_fexp f64_prec f64_emax M e loc_Exact = (mrs, e1) /\
    let E := f64_fexp (digitsZ M + e) in
    let N := round_nearest_even (shr_m mrs) (loc_of_shr_record mrs) in
    (E <= e /\ e1 = e /\ N = M) \/
    (e < E /\ e1 = E /\ N = round_shift (E - e) M).
Proof.
  intros HM. unfold shr_fexp. rewrite fexp_f64, (Zdigits2_digitsZ M HM).
  set (E := f64_fexp (digitsZ M + e)).
  unfold shr, shr_record_of_loc.
  destruct (E - e) as [|p|p] eqn:Hn.
  - eexists _, _. split; [reflexivity|]. left. cbn. lia.
  - pose proof (shr_round M p ltac:(lia)) as [_ Hr].
    eexists _, _. split; [reflexivity|]. right.
    cbn zeta. rewrite Hr. lia.
  - eexists _, _. split; [reflexivity|]. left. cbn. lia.
Qed.

Lemma stage2 (N e1 : Z) :
  0 <= N ->
  exists mrs e2,
    shr_fexp f64_prec f64_emax N e1 loc_Exact = (mrs, e2) /\
    (N = 0 -> shr_m mrs = 0) /\
    (0 < N ->
     let E := f64_fexp (digitsZ N + e1) in
     (E <= e1 /\ e2 = e1 /\ shr_m mrs = N) \/
     (e1 < E /\ e2 = E /\ shr_m mrs = N / 2 ^ (E - e1))).
Proof.
  intros HN. unfold shr_fexp. rewrite fexp_f64.
  unfold shr, shr_record_of_loc.
  destruct (f64_fexp (Zdigits2 N + e1) - e1) as [|p|p] eqn:Hn.
  - eexists _, _. split; [reflexivity|]. split.
    + intros ->. reflexivity.
    + intros HN'. rewrite (Zdigits2_digitsZ N HN') in Hn. left. cbn. lia.
  - pose proof (shr_round N p HN) as [Hm _].
    eexists _, _. split; [reflexivity|]. split.
    + intros ->. rewrite Hm. apply Z.div_0_l. pose proof (pow2_pos (Z.pos p)). lia.
    + intros HN'. rewrite (Zdigits2_digitsZ N HN') in Hn. right.
      cbn zeta. rewrite Hm. rewrite <- Hn. lia.
  - eexists _, _. split; [reflexivity|]. split.
    + intros ->. reflexivity.
    + intros HN'. rewrite (Zdigits2_digitsZ N HN') in Hn. left. cbn. lia.
Qed.

(** The rounding of [M * 2 ^ (e - a)] in terms of [M] and [e]. *)
Lemma RN_scaled (a M e : Z) :
  0 < M -> a <= e -> a <= f64_emin ->
  let E := f64_fexp (digitsZ M + e) in
  RN a (M * 2 ^ (e - a)) =
  if E <=? e then M * 2 ^ (e - a) else round_shift (E - e) M * 2 ^ (E - a).
Proof.
  intros HM Hae Ha E.
  pose proof (pow2_pos (e - a) ltac:(lia)) as Hp.
  unfold RN.
  assert (Hpos : 0 < M * 2 ^ (e - a)) by nia.
  destruct (Z.leb_spec (M * 2 ^ (e - a)) 0) as [Hle|_]; [lia|].
  rewrite digitsZ_mul_pow2 by lia.
  replace (digitsZ M + (e - a) + a) with (digitsZ M + e) by lia.
  fold E.
  pose proof (f64_fexp_ge_emin (digitsZ M + e)) as HE. fold E in HE.
  destruct (Z.leb_spec E e) as [HEe|HEe].
  - replace (M * 2 ^ (e - a)) with ((M * 2 ^ (e - E)) * 2 ^ (E - a)).
    + rewrite round_shift_exact by lia. reflexivity.
    + rewrite <- Z.mul_assoc, <- pow2_split by lia. do 2 f_equal. lia.
  - replace (E - a) with ((E - e) + (e - a)) at 1 by lia.
    rewrite round_shift_scale by lia. reflexivity.
Qed.

Lemma okf_finite (s : bool) (m : positive) (e : Z) :
  okf (S754_finite s m e) = true <->
  f64_emin <= e /\ e <= 971 /\ digitsZ (Zpos m) <= 53.
Proof.
  unfold okf. rewrite digits2_pos_log2. unfold f64_emax, f64_prec.
  rewrite !andb_true_iff, !Z.leb_le. change (1024 - 53) with 971. tauto.
Qed.

(** Characterisation of [binary_round_aux] on an exact location. *)
Lemma bra_spec (s : bool) (m : positive) (e a : Z) :
  a <= e -> a <= f64_emin ->
  encodes_or (971 < e) a s (RN a (Zpos m * 2 ^ (e - a)))
    (binary_round_aux f64_prec f64_emax s (Zpos m) e loc_Exact).
Proof.
  intros Hae Ha.
  set (M := Zpos m). assert (HM : 0 < M) by (unfold M; lia).
  rewrite (RN_scaled a M e HM Hae Ha). cbn zeta.
  unfold binary_round_aux.
  destruct (stage1 M e HM) as (mrs1 & e1 & Hs1 & Hcase1). rewrite Hs1.
  cbn zeta in Hcase1.
  set (N := round_nearest_even (shr_m mrs1) (loc_of_shr_record mrs1)) in *.
  set (d := digitsZ M) in *.
  set (E := f64_fexp (d + e)) in *.
  pose proof (f64_fexp_ge_emin (d + e)) as HEmin. fold E in HEmin.
  pose proof (digitsZ_bounds M HM) as [HMlo HMhi]. fold d in HMlo, HMhi.
  pose proof (digitsZ_pos M HM) as Hd. fold d in Hd.
  assert (HEd : d + e - 53 <= E) by (unfold E, f64_fexp, f64_prec; lia).
  assert (Ha' : a <= -1074) by exact Ha.
  assert (HEmin' : -1074 <= E) by exact HEmin.
  destruct Hcase1 as [(HEe & -> & HN) | (HEe & -> & HN)].
  - (* the mantissa already fits *)
    destruct (Z.leb_spec E e) as [_|Hc]; [|lia].
    assert (HN0 : 0 <= N) by lia.
    destruct (stage2 N e HN0) as (mrs2 & e2 & Hs2 & _ & Hcase2). rewrite Hs2.
    specialize (Hcase2 ltac:(lia)). cbn zeta in Hcase2. rewrite HN in Hcase2.
    fold d in Hcase2. fold E in Hcase2.
    destruct Hcase2 as [(_ & -> & Hm2) | (Hc & _)]; [|lia].
    rewrite Hm2. unfold M.
    unfold f64_emax, f64_prec. change (1024 - 53) with 971.
    destruct (Z.leb_spec e 971) as [He|He]; cbn -[okf Z.pow Z.mul].
    + split; [reflexivity|]. split; [|reflexivity].
      apply okf_finite. fold M. fold d. lia.
    + split; [reflexivity|]. left. exact He.
  - (* the mantissa is shifted right by [E - e] bits and rounded *)
    destruct (Z.leb_spec E e) as [Hc|_]; [lia|].
    pose proof (round_shift_bounds (E - e) M ltac:(lia) ltac:(lia)) as HNb.
    rewrite <- HN in HNb.
    assert (Hq0 : 0 <= M / 2 ^ (E - e)).
    { apply Z.div_pos; [lia|apply pow2_pos; lia]. }
    assert (Hq53 : M / 2 ^ (E - e) < 2 ^ 53).
    { apply (div_pow2_lt M d); lia. }
    assert (HN0 : 0 <= N) by lia.
    rewrite <- HN.
    destruct (stage2 N E HN0) as (mrs2 & e2 & Hs2 & Hz2 & Hcase2). rewrite Hs2.
    destruct (Z.eq_dec N 0) as [HNz|HNz].
    { rewrite (Hz2 HNz). cbn -[okf Z.pow Z.mul]. split; [reflexivity|]. rewrite HNz. reflexivity. }
    specialize (Hcase2 ltac:(lia)). cbn zeta in Hcase2.
    assert (HNpos : 0 < N) by lia.
    pose proof (pow2_pos (E - a) ltac:(lia)) as HpEa.
    unfold f64_emax, f64_prec. change (1024 - 53) with 971.
    (* when the result is beyond the finite range *)
    assert (Hbig : 971 < E -> 2 ^ 52 <= N).
    { intros HE. assert (E = d + e - 53) by (unfold E, f64_fexp, f64_prec, f64_emin in *; lia).
      assert (2 ^ 52 <= M / 2 ^ (E - e)); [|lia].
      replace (E - e) with (d - 53) by lia. apply div_pow2_ge; lia. }
    destruct (Z_lt_le_dec N (2 ^ 53)) as [Hlt|Hge].
    + (* no carry *)
      assert (HdN : digitsZ N <= 53) by (apply digitsZ_le_of_lt; lia).
      destruct Hcase2 as [(_ & -> & Hm2) | (Hc & _)].
      2:{ unfold f64_fexp, f64_prec, f64_emin in *. lia. }
      rewrite Hm2. destruct N as [|n|n] eqn:HNe; try lia.
      destruct (Z.leb_spec E 971) as [He|He]; cbn -[okf Z.pow Z.mul].
      * split; [reflexivity|]. split; [|reflexivity].
        apply okf_finite. lia.
      * split; [reflexivity|]. right.
        specialize (Hbig He).
        assert (2 ^ (1024 - a) = 2 ^ 52 * 2 ^ (972 - a)).
        { rewrite <- pow2_split by lia. f_equal. lia. }
        assert (2 ^ (972 - a) <= 2 ^ (E - a)) by (apply pow2_le; lia).
        unfold f64_emax. nia.
    + (* carry: the rounded mantissa is [2 ^ 53] *)
      assert (HNeq : N = 2 ^ 53) by lia.
      assert (HdN : digitsZ N = 54) by (rewrite HNeq; apply digitsZ_pow2; lia).
      rewrite HdN in Hcase2.
      destruct Hcase2 as [(Hc & _) | (_ & -> & Hm2)].
      { unfold f64_fexp, f64_prec, f64_emin in *. lia. }
      assert (HE1 : f64_fexp (54 + E) = E + 1).
      { unfold f64_fexp, f64_prec, f64_emin in *. lia. }
      rewrite HE1 in *. replace (E + 1 - E) with 1 in Hm2 by lia.
      rewrite HNeq in Hm2. change (2 ^ 53 / 2 ^ 1) with (2 ^ 52) in Hm2.
      rewrite Hm2. change (2 ^ 52) with (Zpos (Z.to_pos (2 ^ 52))).
      assert (Hval : 2 ^ 52 * 2 ^ (E + 1 - a) = N * 2 ^ (E - a)).
      { rewrite HNeq. replace (E + 1 - a) with (1 + (E - a)) by lia.
        rewrite pow2_split by lia. change (2 ^ 1) with 2. change (2 ^ 53) with (2 * 2 ^ 52). lia. }
      destruct (Z.leb_spec (E + 1) 971) as [He|He]; cbn -[okf Z.pow Z.mul].
      * split; [reflexivity|]. split; [|exact Hval].
        apply okf_finite. split; [lia|]. split; [lia|]. vm_compute. discriminate.
      * split; [reflexivity|]. right.
        assert (2 ^ (1024 - a) = 2 ^ 53 * 2 ^ (971 - a)).
        { rewrite <- pow2_split by lia. f_equal. lia. }
        assert (2 ^ (971 - a) <= 2 ^ (E - a)) by (apply pow2_le; lia).
        unfold f64_emax. rewrite HNeq. nia.
Qed.

Lemma f64_fexp_mono (j k : Z) : j <= k -> f64_fexp j <= f64_fexp k.
Proof. unfold f64_fexp. lia. Qed.

Lemma round_shift_nonneg (n M : Z) : 0 <= n -> 0 <= M -> 0 <= round_shift n M.
Proof.
  intros Hn HM. pose proof (round_shift_bounds n M Hn HM).
  assert (0 <= M / 2 ^ n) by (apply Z.div_pos; [lia|apply pow2_pos; lia]). lia.
Qed.

Lemma RN_nonneg (a M : Z) : a <= f64_emin -> 0 <= RN a M.
Proof.
  intros Ha. unfold RN. destruct (Z.leb_spec M 0) as [H|H]; [lia|].
  pose proof (f64_fexp_ge_emin (digitsZ M + a)).
  apply Z.mul_nonneg_nonneg.
  - apply round_shift_nonneg; lia.
  - apply Z.lt_le_incl, pow2_pos. lia.
Qed.

Lemma RN_0 (a : Z) : RN a 0 = 0.
Proof. reflexivity. Qed.

(** With the same shift, rounding is monotone. *)
Lemma round_shift_mono (n M1 M2 : Z) :
  0 <= n -> 0 <= M1 <= M2 -> round_shift n M1 <= round_shift n M2.
Proof.
  intros Hn [H1 H12].
  pose proof (pow2_pos n Hn) as Hp.
  pose proof (Z.div_le_mono M1 M2 (2 ^ n) Hp H12) as Hq.
  pose proof (round_shift_bounds n M1 Hn H1) as Hb1.
  pose proof (round_shift_bounds n M2 Hn ltac:(lia)) as Hb2.
  destruct (Z_lt_le_dec (M1 / 2 ^ n) (M2 / 2 ^ n)) as [Hlt|Hge]; [lia|].
  assert (Heq : M1 / 2 ^ n = M2 / 2 ^ n) by lia.
  pose proof (Z.div_mod M1 (2 ^ n) ltac:(lia)) as Hd1.
  pose proof (Z.div_mod M2 (2 ^ n) ltac:(lia)) as Hd2.
  assert (Hr : M1 mod 2 ^ n <= M2 mod 2 ^ n) by nia.
  unfold round_shift. rewrite Heq.
  set (q := M2 / 2 ^ n). set (r1 := M1 mod 2 ^ n) in *. set (r2 := M2 mod 2 ^ n) in *.
  destruct (Z.ltb_spec (2 ^ n) (2 * r1)) as [Ha|Ha];
    destruct (Z.ltb_spec (2 ^ n) (2 * r2)) as [Hb|Hb];
    destruct (Z.eqb_spec (2 ^ n) (2 * r1)) as [Hc|Hc];
    destruct (Z.eqb_spec (2 ^ n) (2 * r2)) as [He|He];
    destruct (Z.odd q); cbn [orb andb]; lia.
Qed.

Lemma RN_mono (a M1 M2 : Z) :
  a <= f64_emin -> M1 <= M2 -> RN a M1 <= RN a M2.
Proof.
  intros Ha H12.
  destruct (Z_lt_le_dec 0 M1) as [H1|H1].
  2:{ unfold RN at 1. destruct (Z.leb_spec M1 0); [|lia]. apply RN_nonneg; exact Ha. }
  assert (H2 : 0 < M2) by lia.
  unfold RN.
  destruct (Z.leb_spec M1 0) as [Hc|_]; [lia|].
  destruct (Z.leb_spec M2 0) as [Hc|_]; [lia|].
  set (k1 := digitsZ M1). set (k2 := digitsZ M2).
  assert (Hk : k1 <= k2) by (apply digitsZ_le; lia).
  set (n1 := f64_fexp (k1 + a) - a). set (n2 := f64_fexp (k2 + a) - a).
  pose proof (f64_fexp_ge_emin (k1 + a)) as He1.
  pose proof (f64_fexp_ge_emin (k2 + a)) as He2.
  pose proof (f64_fexp_mono (k1 + a) (k2 + a) ltac:(lia)) as Hmono.
  assert (Hn1 : 0 <= n1) by (unfold n1; lia).
  assert (Hn12 : n1 <= n2) by (unfold n1, n2; lia).
  pose proof (pow2_pos n1 Hn1) as Hp1.
  pose proof (pow2_pos n2 ltac:(lia)) as Hp2.
  destruct (Z.eq_dec n1 n2) as [Heq|Hne].
  - rewrite <- Heq.
    apply Z.mul_le_mono_nonneg_r; [lia|].
    apply round_shift_mono; lia.
  - assert (Hlt : n1 < n2) by lia.
    pose proof (digitsZ_bounds M1 H1) as [_ Hhi1]. fold k1 in Hhi1.
    pose proof (digitsZ_bounds M2 H2) as [Hlo2 _]. fold k2 in Hlo2.
    pose proof (digitsZ_pos M1 H1) as Hk1. fold k1 in Hk1.
    assert (Hn2 : n2 = k2 - 53).
    { unfold n1, n2, f64_fexp, f64_prec, f64_emin in *. lia. }
    assert (Hk12 : k1 < k2).
    { destruct (Z.eq_dec k1 k2) as [E|E]; [|lia].
      unfold n1, n2 in Hlt. rewrite E in Hlt. lia. }
    (* the larger argument rounds to at least [2 ^ (k2 - 1)] *)
    assert (Hbig : 2 ^ (k2 - 1) <= round_shift n2 M2 * 2 ^ n2).
    { pose proof (round_shift_bounds n2 M2 ltac:(lia) ltac:(lia)) as Hb.
      assert (2 ^ 52 <= M2 / 2 ^ n2).
      { rewrite Hn2. apply div_pow2_ge; lia. }
      assert (2 ^ (k2 - 1) = 2 ^ 52 * 2 ^ n2).
      { rewrite <- pow2_split by lia. f_equal. lia. }
      nia. }
    (* the smaller one to at most that *)
    assert (Hsmall : round_shift n1 M1 * 2 ^ n1 <= 2 ^ (k2 - 1)).
    { pose proof (round_shift_bounds n1 M1 Hn1 ltac:(lia)) as Hb.
      destruct (Z_lt_le_dec k1 n1) as [Hkn|Hkn].
      - assert (M1 / 2 ^ n1 = 0).
        { apply Z.div_small. split; [lia|].
          assert (2 ^ k1 <= 2 ^ n1) by (apply pow2_le; lia). lia. }
        assert (2 ^ n1 <= 2 ^ (k2 - 1)) by (apply pow2_le; lia).
        nia.
      - assert (M1 / 2 ^ n1 < 2 ^ (k1 - n1)).
        { apply Z.div_lt_upper_bound; [lia|].
          rewrite <- pow2_split by lia. replace (n1 + (k1 - n1)) with k1 by lia. exact Hhi1. }
        assert (2 ^ k1 = 2 ^ (k1 - n1) * 2 ^ n1).
        { rewrite <- pow2_split by lia. f_equal. lia. }
        assert (2 ^ k1 <= 2 ^ (k2 - 1)) by (apply pow2_le; lia).
        nia. }
    lia.
Qed.

Lemma RNs_mono (a X Y : Z) : a <= f64_emin -> X <= Y -> RNs a X <= RNs a Y.
Proof.
  intros Ha HXY. unfold RNs.
  pose proof (RN_nonneg a (Z.abs X) Ha) as HX.
  pose proof (RN_nonneg a (Z.abs Y) Ha) as HY.
  destruct (Z.sgn_spec X) as [[HX0 ->]|[[HX0 ->]|[HX0 ->]]];
    destruct (Z.sgn_spec Y) as [[HY0 ->]|[[HY0 ->]|[HY0 ->]]]; try lia.
  - pose proof (RN_mono a (Z.abs X) (Z.abs Y) Ha ltac:(lia)). lia.
  - pose proof (RN_mono a (Z.abs Y) (Z.abs X) Ha ltac:(lia)). lia.
Qed.

(** A number with at most 53 significant bits is its own rounding. *)
Lemma RN_exact (a M e : Z) :
  0 < M -> a <= e -> a <= f64_emin -> f64_emin <= e -> digitsZ M <= 53 ->
  RN a (M * 2 ^ (e - a)) = M * 2 ^ (e - a).
Proof.
  intros HM Hae Ha He Hd.
  rewrite (RN_scaled a M e HM Hae Ha). cbn zeta.
  destruct (Z.leb_spec (f64_fexp (digitsZ M + e)) e) as [_|Hc]; [reflexivity|].
  unfold f64_fexp, f64_prec, f64_emin in *. lia.
Qed.

(** On the grid of [2 ^ emin] rounding never reaches zero. *)
Lemma RN_pos (M : Z) : 0 < M -> 0 < RN f64_emin M.
Proof.
  intros HM. unfold RN. destruct (Z.leb_spec M 0) as [Hc|_]; [lia|].
  pose proof (digitsZ_pos M HM) as Hk.
  pose proof (digitsZ_bounds M HM) as [Hlo Hhi].
  set (k := digitsZ M) in *.
  set (n := f64_fexp (k + f64_emin) - f64_emin).
  assert (Hn : n = Z.max (k - 53) 0) by (unfold n, f64_fexp, f64_prec, f64_emin; lia).
  assert (Hn0 : 0 <= n) by lia.
  pose proof (pow2_pos n Hn0) as Hp.
  pose proof (round_shift_bounds n M Hn0 ltac:(lia)) as Hb.
  assert (1 <= M / 2 ^ n).
  { apply Z.div_le_lower_bound; [lia|].
    assert (2 ^ n <= 2 ^ (k - 1)) by (apply pow2_le; lia). lia. }
  nia.
Qed.

Lemma RNs_sign (X : Z) : Z.sgn (RNs f64_emin X) = Z.sgn X.
Proof.
  unfold RNs.
  destruct (Z.sgn_spec X) as [[HX0 HX]|[[HX0 HX]|[HX0 HX]]]; rewrite HX.
  - pose proof (RN_pos (Z.abs X) ltac:(lia)). rewrite Z.mul_1_l. apply Z.sgn_pos. lia.
  - reflexivity.
  - pose proof (RN_pos (Z.abs X) ltac:(lia)). apply Z.sgn_neg. lia.
Qed.

Lemma iter_xO_pow2 (m d : positive) : Zpos (Pos.iter xO m d) = Zpos m * 2 ^ Zpos d.
Proof.
  induction d as [|d IH] using Pos.peano_ind.
  - cbn [Pos.iter]. rewrite Pos2Z.inj_xO. change (2 ^ 1) with 2. lia.
  - rewrite Pos.iter_succ, Pos2Z.inj_xO, IH, Pos2Z.inj_succ.
    rewrite Z.pow_succ_r by lia. lia.
Qed.

Lemma shl_align_spec (m : positive) (e e' : Z) :
  snd (shl_align m e e') = Z.min e e' /\
  Zpos (fst (shl_align m e e')) = Zpos m * 2 ^ (e - Z.min e e').
Proof.
  unfold shl_align. destruct (e' - e) as [|d|d] eqn:Hd; cbn [fst snd].
  - replace (Z.min e e') with e by lia. rewrite Z.sub_diag. change (2 ^ 0) with 1. lia.
  - replace (Z.min e e') with e by lia. rewrite Z.sub_diag. change (2 ^ 0) with 1. lia.
  - replace (Z.min e e') with e' by lia. rewrite iter_xO_pow2.
    split; [reflexivity|]. do 2 f_equal. lia.
Qed.

Lemma RN_pow2 (a j : Z) : a <= f64_emin -> f64_emin <= j + a -> RN a (2 ^ j) = 2 ^ j.
Proof.
  intros Ha Hj.
  pose proof (RN_exact a 1 (j + a) ltac:(lia) ltac:(unfold f64_emin in *; lia) Ha Hj) as H.
  replace (j + a - a) with j in H by lia. rewrite Z.mul_1_l in H. apply H.
  vm_compute. discriminate.
Qed.

Lemma encodes_or_weaken (P Q : Prop) (a : Z) (s : bool) (V : Z) (r : number) :
  (P -> Q \/ 2 ^ (f64_emax - a) <= V) -> encodes_or P a s V r -> encodes_or Q a s V r.
Proof.
  intros HPQ. destruct r as [s'|s'| |s' m e]; cbn; tauto.
Qed.

(** Characterisation of [binary_round]: the mantissa is first aligned, so
    an infinity is returned only beyond the finite range. *)
Lemma binary_round_spec (s : bool) (m : positive) (e a : Z) :
  a <= e -> a <= f64_emin ->
  encodes a s (RN a (Zpos m * 2 ^ (e - a))) (binary_round f64_prec f64_emax s m e).
Proof.
  intros Hae Ha. assert (Ha' : a <= -1074) by exact Ha.
  unfold binary_round. rewrite fexp_f64, digits2_pos_log2.
  set (E := f64_fexp (digitsZ (Zpos m) + e)).
  pose proof (f64_fexp_ge_emin (digitsZ (Zpos m) + e)) as HE. fold E in HE.
  assert (HE' : -1074 <= E) by exact HE.
  pose proof (shl_align_spec m e E) as [Hez Hmz].
  destruct (shl_align m e E) as [mz ez]. cbn [fst snd] in Hez, Hmz. subst ez.
  set (ez := Z.min e E) in *.
  assert (Hval : Zpos mz * 2 ^ (ez - a) = Zpos m * 2 ^ (e - a)).
  { rewrite Hmz, <- Z.mul_assoc, <- pow2_split by lia. do 2 f_equal. lia. }
  pose proof (bra_spec s mz ez a ltac:(lia) Ha) as Hb. rewrite Hval in Hb.
  unfold encodes. revert Hb. apply encodes_or_weaken.
  intros Hbig. right.
  (* an exponent above 971 after alignment means a huge argument *)
  pose proof (digitsZ_bounds (Zpos m) ltac:(lia)) as [Hlo _].
  pose proof (digitsZ_pos (Zpos m) ltac:(lia)) as Hd.
  set (d := digitsZ (Zpos m)) in *.
  assert (HEd : E = d + e - 53) by (unfold E, f64_fexp, f64_prec, f64_emin in *; lia).
  assert (Hge : 2 ^ (1024 - a) <= Zpos m * 2 ^ (e - a)).
  { assert (2 ^ (1024 - a) <= 2 ^ (d - 1 + (e - a))) by (apply pow2_le; lia).
    rewrite pow2_split in H by lia.
    pose proof (pow2_pos (e - a) ltac:(lia)). nia. }
  unfold f64_emax. rewrite <- (RN_pow2 a (1024 - a)) by (unfold f64_emin; lia).
  apply RN_mono; [exact Ha|exact Hge].
Qed.

Lemma encodes_rounds_to (P : Prop) (a : Z) (s : bool) (V : Z) (r : number) :
  a <= f64_emin -> V <> 0 -> s = (V <? 0) ->
  encodes_or P a s (RN a (Z.abs V)) r -> rounds_to_or P a V r.
Proof.
  intros Ha HV Hs. unfold rounds_to_or, RNs.
  pose proof (RN_nonneg a (Z.abs V) Ha) as Hnn.
  destruct r as [s'|s'| |s' m e]; cbn -[okf Z.pow Z.mul RN].
  - intros [_ H0]. left. split; [reflexivity|]. rewrite H0. lia.
  - intros [-> HP]. right. exists s. auto.
  - tauto.
  - intros (-> & Hok & Hv). left. split; [exact Hok|].
    rewrite Hs, Hv.
    destruct (Z.ltb_spec V 0) as [Hn|Hp]; cbn [cond_Zopp].
    + rewrite Z.sgn_neg by lia. lia.
    + rewrite Z.sgn_pos by lia. lia.
Qed.

Lemma RNs_opp (a V : Z) : RNs a (- V) = - RNs a V.
Proof. unfold RNs. rewrite Z.sgn_opp, Z.abs_opp. lia. Qed.

Lemma RNs_0 (a : Z) : RNs a 0 = 0.
Proof. reflexivity. Qed.

Lemma RNs_nonneg (a V : Z) : a <= f64_emin -> 0 <= V -> RNs a V = RN a V.
Proof.
  intros Ha HV. unfold RNs. rewrite Z.abs_eq by lia.
  destruct (Z.eq_dec V 0) as [->|HV0]; [reflexivity|].
  rewrite Z.sgn_pos by lia. lia.
Qed.

Lemma okf_zero (s : bool) : okf (S754_zero s) = true.
Proof. reflexivity. Qed.

Lemma okf_exp (x : number) : okf x = true -> x = S754_zero (sign_of x) \/ f64_emin <= fexpo x <= 971.
Proof.
  destruct x as [s|s| |s m e]; cbn -[okf]; intros H; try discriminate.
  - left. reflexivity.
  - right. apply (proj1 (okf_finite _ _ _)) in H. lia.
Qed.

Lemma sval_scale (x : number) (a b : Z) :
  okf x = true -> a <= f64_emin -> b <= a -> sval b x = sval a x * 2 ^ (a - b).
Proof.
  intros Hok Ha Hb. destruct x as [s|s| |s m e]; cbn -[okf Z.pow Z.mul]; try reflexivity.
  apply (proj1 (okf_finite _ _ _)) in Hok.
  assert (Hp : 2 ^ (e - b) = 2 ^ (e - a) * 2 ^ (a - b)).
  { rewrite <- pow2_split by lia. f_equal. lia. }
  rewrite Hp. destruct s; cbn [cond_Zopp]; lia.
Qed.

(** The numbers of the finite range are fixed points of the rounding. *)
Lemma RNs_exact (x : number) (a : Z) :
  okf x = true -> a <= f64_emin -> RNs a (sval a x) = sval a x.
Proof.
  intros Hok Ha. destruct x as [s|s| |s m e]; cbn -[okf Z.pow Z.mul]; try reflexivity.
  apply (proj1 (okf_finite _ _ _)) in Hok. destruct Hok as (He & _ & Hd).
  pose proof (RN_exact a (Zpos m) e ltac:(lia) ltac:(lia) Ha He Hd) as Hx.
  pose proof (pow2_pos (e - a) ltac:(lia)) as Hp.
  destruct s; cbn [cond_Zopp].
  - rewrite RNs_opp, RNs_nonneg by nia. lia.
  - rewrite RNs_nonneg by nia. lia.
Qed.

Lemma okf_bound (x : number) (a : Z) :
  okf x = true -> a <= f64_emin -> Z.abs (sval a x) < 2 ^ (f64_emax - a).
Proof.
  intros Hok Ha. assert (Ha' : a <= -1074) by exact Ha. unfold f64_emax.
  destruct x as [s|s| |s m e]; cbn -[okf Z.pow Z.mul]; try discriminate.
  - apply pow2_pos. lia.
  - apply (proj1 (okf_finite _ _ _)) in Hok. destruct Hok as (He & He' & Hd).
    unfold f64_emin in He.
    pose proof (digitsZ_bounds (Zpos m) ltac:(lia)) as [_ Hhi].
    assert (2 ^ digitsZ (Zpos m) <= 2 ^ 53).
    { apply pow2_le. pose proof (digitsZ_pos (Zpos m) ltac:(lia)). lia. }
    assert (2 ^ (e - a) <= 2 ^ (971 - a)) by (apply pow2_le; lia).
    assert (2 ^ (1024 - a) = 2 ^ 53 * 2 ^ (971 - a)).
    { rewrite <- pow2_split by lia. f_equal. lia. }
    pose proof (pow2_pos (e - a) ltac:(lia)).
    destruct s; cbn [cond_Zopp]; rewrite ?Z.abs_opp, Z.abs_eq by nia; nia.
Qed.

Lemma binary_normalize_spec (S e a : Z) :
  a <= e -> a <= f64_emin ->
  rounds_to a (S * 2 ^ (e - a)) (binary_normalize f64_prec f64_emax S e false).
Proof.
  intros Hae Ha. pose proof (pow2_pos (e - a) ltac:(lia)) as Hp.
  destruct S as [|p|p]; cbn [binary_normalize].
  - left. split; [reflexivity|]. reflexivity.
  - unfold rounds_to. apply (encodes_rounds_to _ _ false); [exact Ha|nia| |].
    + symmetry. apply Z.ltb_ge. nia.
    + rewrite Z.abs_eq by nia. apply binary_round_spec; assumption.
  - unfold rounds_to. apply (encodes_rounds_to _ _ true); [exact Ha|nia| |].
    + symmetry. apply Z.ltb_lt. nia.
    + replace (Z.abs (Z.neg p * 2 ^ (e - a))) with (Zpos p * 2 ^ (e - a)) by nia.
      apply binary_round_spec; assumption.
Qed.

Lemma sval_aligned (s : bool) (m : positive) (e ez : Z) :
  cond_Zopp s (Zpos (fst (shl_align m e ez))) = sval (Z.min e ez) (S754_finite s m e).
Proof.
  pose proof (shl_align_spec m e ez) as [_ H]. rewrite H. reflexivity.
Qed.

Lemma rounds_to_exact (x : number) (a V : Z) :
  okf x = true -> a <= f64_emin -> V = sval a x -> rounds_to a V x.
Proof.
  intros Hok Ha ->. left. split; [exact Hok|]. symmetry. apply RNs_exact; assumption.
Qed.

Lemma cond_Zopp_negb (s : bool) (z : Z) : cond_Zopp (negb s) z = - cond_Zopp s z.
Proof. destruct s; cbn; lia. Qed.

(** Subtraction is the rounding of the exact difference. *)
Lemma js_sub_spec (x y : number) (a : Z) :
  okf x = true -> okf y = true -> a <= f64_emin ->
  rounds_to a (sval a x - sval a y) (js_sub x y).
Proof.
  intros Hx Hy Ha.
  destruct x as [sx|sx| |sx mx ex]; try discriminate;
    destruct y as [sy|sy| |sy my ey]; try discriminate.
  - apply rounds_to_exact; [|exact Ha|].
    + cbn. destruct sx, sy; reflexivity.
    + cbn. destruct sx, sy; reflexivity.
  - apply rounds_to_exact; [exact Hy|exact Ha|].
    cbn -[Z.pow Z.mul]. rewrite cond_Zopp_negb. lia.
  - apply rounds_to_exact; [exact Hx|exact Ha|].
    cbn -[Z.pow Z.mul]. lia.
  - pose proof (proj1 (okf_finite _ _ _) Hx) as (Hex & _).
    pose proof (proj1 (okf_finite _ _ _) Hy) as (Hey & _).
    unfold js_sub, SFsub. cbn zeta.
    set (ez := Z.min ex ey).
    pose proof (sval_aligned sx mx ex ez) as H1.
    pose proof (sval_aligned sy my ey ez) as H2.
    replace (Z.min ex ez) with ez in H1 by lia.
    replace (Z.min ey ez) with ez in H2 by lia.
    rewrite H1, H2.
    pose proof (binary_normalize_spec
                  (sval ez (S754_finite sx mx ex) - sval ez (S754_finite sy my ey))
                  ez a ltac:(lia) Ha) as Hn.
    assert (Hs1 : sval a (S754_finite sx mx ex) = sval ez (S754_finite sx mx ex) * 2 ^ (ez - a)).
    { cbn -[Z.pow Z.mul].
      replace (2 ^ (ex - a)) with (2 ^ (ex - ez) * 2 ^ (ez - a)).
      - destruct sx; cbn [cond_Zopp]; lia.
      - rewrite <- pow2_split by lia. f_equal. lia. }
    assert (Hs2 : sval a (S754_finite sy my ey) = sval ez (S754_finite sy my ey) * 2 ^ (ez - a)).
    { cbn -[Z.pow Z.mul].
      replace (2 ^ (ey - a)) with (2 ^ (ey - ez) * 2 ^ (ez - a)).
      - destruct sy; cbn [cond_Zopp]; lia.
      - rewrite <- pow2_split by lia. f_equal. lia. }
    rewrite Hs1, Hs2, <- Z.mul_sub_distr_r. exact Hn.
Qed.

(** Addition is the rounding of the exact sum. *)
Lemma js_add_spec (x y : number) (a : Z) :
  okf x = true -> okf y = true -> a <= f64_emin ->
  rounds_to a (sval a x + sval a y) (js_add x y).
Proof.
  intros Hx Hy Ha.
  destruct x as [sx|sx| |sx mx ex]; try discriminate;
    destruct y as [sy|sy| |sy my ey]; try discriminate.
  - apply rounds_to_exact; [|exact Ha|].
    + cbn. destruct sx, sy; reflexivity.
    + cbn. destruct sx, sy; reflexivity.
  - apply rounds_to_exact; [exact Hy|exact Ha|].
    cbn -[Z.pow Z.mul]. lia.
  - apply rounds_to_exact; [exact Hx|exact Ha|].
    cbn -[Z.pow Z.mul]. lia.
  - pose proof (proj1 (okf_finite _ _ _) Hx) as (Hex & _).
    pose proof (proj1 (okf_finite _ _ _) Hy) as (Hey & _).
    unfold js_add, SFadd. cbn zeta.
    set (ez := Z.min ex ey).
    pose proof (sval_aligned sx mx ex ez) as H1.
    pose proof (sval_aligned sy my ey ez) as H2.
    replace (Z.min ex ez) with ez in H1 by lia.
    replace (Z.min ey ez) with ez in H2 by lia.
    rewrite H1, H2.
    pose proof (binary_normalize_spec
                  (sval ez (S754_finite sx mx ex) + sval ez (S754_finite sy my ey))
                  ez a ltac:(lia) Ha) as Hn.
    assert (Hs1 : sval a (S754_finite sx mx ex) = sval ez (S754_finite sx mx ex) * 2 ^ (ez - a)).
    { cbn -[Z.pow Z.mul].
      replace (2 ^ (ex - a)) with (2 ^ (ex - ez) * 2 ^ (ez - a)).
      - destruct sx; cbn [cond_Zopp]; lia.
      - rewrite <- pow2_split by lia. f_equal. lia. }
    assert (Hs2 : sval a (S754_finite sy my ey) = sval ez (S754_finite sy my ey) * 2 ^ (ez - a)).
    { cbn -[Z.pow Z.mul].
      replace (2 ^ (ey - a)) with (2 ^ (ey - ez) * 2 ^ (ez - a)).
      - destruct sy; cbn [cond_Zopp]; lia.
      - rewrite <- pow2_split by lia. f_equal. lia. }
    rewrite Hs1, Hs2, <- Z.mul_add_distr_r. exact Hn.
Qed.

(** Multiplication is the rounding of the exact product. *)
Lemma js_mul_spec (x y : number) (a b : Z) :
  okf x = true -> okf y = true -> a <= f64_emin -> b <= f64_emin ->
  rounds_to_or (971 < fexpo x + fexpo y) (a + b) (sval a x * sval b y) (js_mul x y).
Proof.
  intros Hx Hy Ha Hb.
  assert (Ha' : a <= -1074) by exact Ha. assert (Hb' : b <= -1074) by exact Hb.
  destruct x as [sx|sx| |sx mx ex]; try discriminate;
    destruct y as [sy|sy| |sy my ey]; try discriminate;
    try (left; split; [reflexivity|]; cbn -[Z.pow Z.mul]; rewrite ?Z.mul_0_l, ?Z.mul_0_r; reflexivity).
  pose proof (proj1 (okf_finite _ _ _) Hx) as (Hex & _).
  pose proof (proj1 (okf_finite _ _ _) Hy) as (Hey & _).
  unfold f64_emin in Hex, Hey.
  unfold js_mul, SFmul. cbn [fexpo].
  pose proof (pow2_pos (ex - a) ltac:(lia)) as Hpa.
  pose proof (pow2_pos (ey - b) ltac:(lia)) as Hpb.
  assert (Habs : Z.abs (sval a (S754_finite sx mx ex) * sval b (S754_finite sy my ey))
                 = Zpos (mx * my) * 2 ^ (ex + ey - (a + b))).
  { replace (ex + ey - (a + b)) with ((ex - a) + (ey - b)) by lia.
    rewrite pow2_split by lia. rewrite Pos2Z.inj_mul.
    cbn -[Z.pow Z.mul]. rewrite Z.abs_mul.
    destruct sx, sy; cbn [cond_Zopp]; rewrite ?Z.abs_opp, !Z.abs_eq by nia; lia. }
  apply (encodes_rounds_to _ _ (xorb sx sy)).
  - unfold f64_emin. lia.
  - cbn -[Z.pow Z.mul]. destruct sx, sy; cbn [cond_Zopp]; nia.
  - cbn -[Z.pow Z.mul]. symmetry.
    destruct sx, sy; cbn [cond_Zopp xorb]; [apply Z.ltb_ge|apply Z.ltb_lt|apply Z.ltb_lt|apply Z.ltb_ge]; nia.
  - rewrite Habs. apply bra_spec; unfold f64_emin; lia.
Qed.

Lemma Zcompare_scale (u v k : Z) : 0 < k -> (u * k ?= v * k) = (u ?= v).
Proof.
  intros Hk. destruct (Z.compare_spec u v) as [H|H|H].
  - subst. apply Z.compare_refl.
  - apply Z.compare_lt_iff. nia.
  - apply Z.compare_gt_iff. nia.
Qed.

(** Zero or finite. *)
Lemma okf_cases (x : number) :
  okf x = true -> (exists s, x = S754_zero s) \/ (exists s m e, x = S754_finite s m e).
Proof.
  destruct x as [s|s| |s m e]; try discriminate; intros _; eauto.
Qed.

Lemma sval_rescale (x : number) (c a : Z) :
  a <= c -> (forall s m e, x = S754_finite s m e -> c <= e) ->
  sval a x = sval c x * 2 ^ (c - a).
Proof.
  intros Hac Hc. destruct x as [s|s| |s m e]; cbn -[Z.pow Z.mul]; try reflexivity.
  specialize (Hc s m e eq_refl).
  replace (2 ^ (e - a)) with (2 ^ (e - c) * 2 ^ (c - a)).
  - destruct s; cbn [cond_Zopp]; lia.
  - rewrite <- pow2_split by lia. f_equal. lia.
Qed.

(** On the finite range the comparison is that of the scaled values. *)
Lemma ncompare_sval (x y : number) (a : Z) :
  okf x = true -> okf y = true -> a <= f64_emin ->
  ncompare x y = Some (sval a x ?= sval a y).
Proof.
  intros Hx Hy Ha. assert (Ha' : a <= -1074) by exact Ha.
  set (c := common_exp x y).
  assert (Hcx : forall s m e, x = S754_finite s m e -> c <= e).
  { intros s m e ->. unfold c. destruct y; cbn; lia. }
  assert (Hcy : forall s m e, y = S754_finite s m e -> c <= e).
  { intros s m e ->. unfold c. destruct x; cbn; lia. }
  assert (Hac : a <= c).
  { unfold c. destruct x as [sx|sx| |sx mx ex]; try discriminate;
      destruct y as [sy|sy| |sy my ey]; try discriminate; cbn [common_exp];
      try (apply (proj1 (okf_finite _ _ _)) in Hx);
      try (apply (proj1 (okf_finite _ _ _)) in Hy); unfold f64_emin in *; lia. }
  rewrite (sval_rescale x c a Hac Hcx), (sval_rescale y c a Hac Hcy).
  rewrite Zcompare_scale by (apply pow2_pos; lia).
  destruct x as [sx|sx| |sx mx ex]; try discriminate;
    destruct y as [sy|sy| |sy my ey]; try discriminate; reflexivity.
Qed.

Lemma js_le_sval (x y : number) (a : Z) :
  okf x = true -> okf y = true -> a <= f64_emin ->
  js_le x y = true <-> sval a x <= sval a y.
Proof.
  intros Hx Hy Ha. unfold js_le. rewrite (ncompare_sval x y a Hx Hy Ha).
  destruct (Z.compare_spec (sval a x) (sval a y)); split; intros; try reflexivity; try discriminate; lia.
Qed.

Lemma js_lt_sval (x y : number) (a : Z) :
  okf x = true -> okf y = true -> a <= f64_emin ->
  js_lt x y = true <-> sval a x < sval a y.
Proof.
  intros Hx Hy Ha. unfold js_lt. rewrite (ncompare_sval x y a Hx Hy Ha).
  destruct (Z.compare_spec (sval a x) (sval a y)); split; intros; try reflexivity; try discriminate; lia.
Qed.

(** A result between two results of the finite range is in the finite
    range, and between them. *)
Lemma rounds_to_between (P : Prop) (a V Vlo Vhi : Z) (r lo hi : number) :
  a <= f64_emin -> ~ P ->
  rounds_to_or P a V r ->
  okf lo = true -> sval a lo = RNs a Vlo ->
  okf hi = true -> sval a hi = RNs a Vhi ->
  Vlo <= V <= Vhi ->
  okf r = true /\ sval a lo <= sval a r <= sval a hi.
Proof.
  intros Ha HP Hr Hlo Hvlo Hhi Hvhi [H1 H2].
  pose proof (RNs_mono a Vlo V Ha H1) as Hm1.
  pose proof (RNs_mono a V Vhi Ha H2) as Hm2.
  destruct Hr as [[Hok Hv]|(s & -> & Hs & [HP'|Hbig])].
  - split; [exact Hok|]. lia.
  - contradiction.
  - exfalso.
    pose proof (okf_bound lo a Hlo Ha) as Hb1.
    pose proof (okf_bound hi a Hhi Ha) as Hb2.
    pose proof (RN_nonneg a (Z.abs V) Ha) as Hnn.
    assert (HRV : RNs a V = Z.sgn V * RN a (Z.abs V)) by reflexivity.
    destruct (Z.sgn_spec V) as [[HV0 HV]|[[HV0 HV]|[HV0 HV]]]; rewrite HV in HRV.
    + lia.
    + subst V. change (RN a (Z.abs 0)) with 0 in Hbig.
      assert (Ha' : a <= -1074) by exact Ha.
      pose proof (pow2_pos (1024 - a) ltac:(lia)). unfold f64_emax in Hbig. lia.
    + lia.
Qed.

(** What a rounding to the finite range says about the scaled value. *)
Lemma rounds_to_okf (P : Prop) (a V : Z) (r : number) :
  rounds_to_or P a V r -> okf r = true -> sval a r = RNs a V.
Proof.
  intros [[_ H]|(s & -> & _)] Hok; [exact H|discriminate].
Qed.

Lemma shr_1_m_nonneg (mrs : shr_record) : 0 <= shr_m mrs -> 0 <= shr_m (shr_1 mrs).
Proof.
  intros H. rewrite shr_1_nonneg by exact H. cbn [shr_m].
  apply Z.div_pos; lia.
Qed.

Lemma shr_m_nonneg (mrs : shr_record) (e n : Z) :
  0 <= shr_m mrs -> 0 <= shr_m (fst (shr mrs e n)).
Proof.
  intros H. unfold shr. destruct n as [|p|p]; cbn [fst]; try exact H.
  rewrite iter_pos_nat. induction (Pos.to_nat p) as [|k IH]; [exact H|].
  rewrite Nat.iter_succ. apply shr_1_m_nonneg. exact IH.
Qed.

Lemma shr_fexp_m_nonneg (M e : Z) (l : location) :
  0 <= M -> 0 <= shr_m (fst (shr_fexp f64_prec f64_emax M e l)).
Proof.
  intros H. unfold shr_fexp. apply shr_m_nonneg.
  destruct l as [|[]]; exact H.
Qed.

Lemma round_nearest_even_nonneg (m : Z) (l : location) :
  0 <= m -> 0 <= round_nearest_even m l.
Proof.
  intros H. destruct l as [|[]]; cbn [round_nearest_even]; try lia.
  destruct (Z.even m); lia.
Qed.

(** Whatever the location, rounding a non-negative mantissa gives a zero,
    a finite number or an infinity of the requested sign. *)
Lemma bra_sign (s : bool) (M e : Z) (l : location) :
  0 <= M ->
  let r := binary_round_aux f64_prec f64_emax s M e l in
  is_nan r = false /\ sign_of r = s.
Proof.
  intros HM. cbn zeta. unfold binary_round_aux.
  pose proof (shr_fexp_m_nonneg M e l HM) as H1.
  destruct (shr_fexp f64_prec f64_emax M e l) as [mrs1 e1]. cbn [fst] in H1.
  pose proof (round_nearest_even_nonneg _ (loc_of_shr_record mrs1) H1) as HN.
  pose proof (shr_fexp_m_nonneg _ e1 loc_Exact HN) as H2.
  destruct (shr_fexp f64_prec f64_emax _ e1 loc_Exact) as [mrs2 e2]. cbn [fst] in H2.
  destruct (shr_m mrs2) as [|m|m]; try lia.
  - split; reflexivity.
  - destruct (e2 <=? f64_emax - f64_prec); split; reflexivity.
Qed.

Lemma div_eucl_fst_nonneg (a b : Z) : 0 <= a -> 0 < b -> 0 <= fst (Z.div_eucl a b).
Proof.
  intros Ha Hb. change (fst (Z.div_eucl a b)) with (a / b). apply Z.div_pos; lia.
Qed.

Lemma js_div_finite_sign (sx sy : bool) (mx my : positive) (ex ey : Z) :
  let r := js_div (S754_finite sx mx ex) (S754_finite sy my ey) in
  is_nan r = false /\ sign_of r = xorb sx sy.
Proof.
  cbn zeta. unfold js_div, SFdiv, SFdiv_core_binary.
  set (s := _ - _ - Z.min _ _).
  set (m' := match s with Z.pos _ => Z.shiftl (Z.pos mx) s | 0 => Z.pos mx | Z.neg _ => 0 end).
  assert (Hm : 0 <= m').
  { unfold m'. destruct s; try lia. apply Z.shiftl_nonneg. lia. }
  pose proof (div_eucl_fst_nonneg m' (Zpos my) Hm ltac:(lia)) as Hq.
  destruct (Z.div_eucl m' (Z.pos my)) as [q r]. cbn [fst] in Hq.
  apply bra_sign. exact Hq.
Qed.

(** Every product is NaN, an infinity, or in the finite range. *)
Lemma js_mul_numk (x y : number) : numk (js_mul x y) = true.
Proof.
  destruct x as [sx|sx| |sx mx ex]; destruct y as [sy|sy| |sy my ey]; try reflexivity.
  unfold js_mul, SFmul.
  set (a := Z.min (ex + ey) f64_emin).
  pose proof (bra_spec (xorb sx sy) (mx * my) (ex + ey) a ltac:(lia) ltac:(lia)) as H.
  destruct (binary_round_aux f64_prec f64_emax (xorb sx sy) (Z.pos (mx * my)) (ex + ey) loc_Exact)
    as [s|s| |s m e]; try reflexivity.
  cbn -[okf Z.pow Z.mul] in H. destruct H as (_ & Hok & _).
  unfold numk. rewrite Hok. reflexivity.
Qed.

Lemma js_mul_finite_sign (sx sy : bool) (mx my : positive) (ex ey : Z) :
  let r := js_mul (S754_finite sx mx ex) (S754_finite sy my ey) in
  is_nan r = false /\ sign_of r = xorb sx sy.
Proof. cbn zeta. unfold js_mul, SFmul. apply bra_sign. lia. Qed.

(** A binary64 datum is NaN, an infinity, or in the finite range. *)
Lemma is_double_okf (x : number) :
  is_double x = true -> is_finite x = true -> okf x = true.
Proof.
  destruct x as [s|s| |s m e]; try discriminate; try reflexivity.
  unfold is_double, valid_binary, bounded, canonical_mantissa. intros H _.
  apply andb_true_iff in H. destruct H as [Hc He].
  apply Z.eqb_eq in Hc. apply Z.leb_le in He.
  rewrite fexp_f64, digits2_pos_log2 in Hc.
  apply okf_finite. unfold f64_fexp, f64_prec, f64_emax, f64_emin in *. lia.
Qed.

Lemma is_double_numk (x : number) : is_double x = true -> numk x = true.
Proof.
  intros H. destruct x as [s|s| |s m e]; try reflexivity.
  unfold numk. rewrite (is_double_okf _ H eq_refl). reflexivity.
Qed.

Lemma numk_cases (x : number) :
  numk x = true -> okf x = true \/ (exists s, x = S754_infinity s) \/ x = S754_nan.
Proof.
  unfold numk. destruct (okf x) eqn:Hok; [auto|].
  destruct x as [s|s| |s m e]; cbn; intros H; try discriminate; eauto.
Qed.

Lemma js_lt_zero_okf (r : number) :
  okf r = true -> js_lt js_zero r = true <-> 0 < sval f64_emin r.
Proof.
  intros Hok. rewrite (js_lt_sval js_zero r f64_emin eq_refl Hok ltac:(lia)).
  reflexivity.
Qed.

Lemma comparator_correct_okf (x y : number) :
  okf x = true -> okf y = true ->
  js_gt (js_sub y x) js_zero = js_lt x y.
Proof.
  intros Hox Hoy. unfold js_gt.
  pose proof (js_sub_spec y x f64_emin Hoy Hox ltac:(lia)) as Hr.
  pose proof (RNs_sign (sval f64_emin y - sval f64_emin x)) as Hsg.
  apply eq_true_iff_eq. rewrite (js_lt_sval x y f64_emin Hox Hoy ltac:(lia)).
  destruct Hr as [[Hok Hv]|(s & Hr & Hs & [[]|Hbig])].
  - rewrite (js_lt_zero_okf _ Hok), Hv.
    destruct (Z.sgn_spec (sval f64_emin y - sval f64_emin x)) as [[H0 HS]|[[H0 HS]|[H0 HS]]];
      rewrite HS in Hsg.
    + apply Z.sgn_pos_iff in Hsg. lia.
    + apply Z.sgn_null_iff in Hsg. lia.
    + apply Z.sgn_neg_iff in Hsg. lia.
  - rewrite Hr.
    assert (Hne : sval f64_emin y - sval f64_emin x <> 0).
    { intros E. rewrite E in Hbig. change (RN f64_emin (Z.abs 0)) with 0 in Hbig.
      pose proof (pow2_pos (f64_emax - f64_emin) ltac:(unfold f64_emax, f64_emin; lia)). lia. }
    subst s. destruct (Z.ltb_spec (sval f64_emin y - sval f64_emin x) 0) as [Hn|Hp];
      cbn; split; intros; try discriminate; try reflexivity; lia.
Qed.

(** The comparator of the ranking says that [x] sorts after [y] exactly
    when the net amount of [x] is below that of [y]. *)
Lemma comparator_correct (x y : number) :
  numk x = true -> numk y = true ->
  js_gt (js_sub y x) js_zero = js_lt x y.
Proof.
  intros Hx Hy.
  destruct (okf x) eqn:Hox; destruct (okf y) eqn:Hoy.
  - apply comparator_correct_okf; assumption.
  - unfold numk in Hy. rewrite Hoy in Hy.
    destruct y as [sy|sy| |sy my ey]; try discriminate;
      destruct x as [sx|sx| |sx mx ex]; try discriminate;
      try reflexivity; destruct sy; reflexivity.
  - unfold numk in Hx. rewrite Hox in Hx.
    destruct x as [sx|sx| |sx mx ex]; try discriminate;
      destruct y as [sy|sy| |sy my ey]; try discriminate;
      try reflexivity; destruct sx; reflexivity.
  - unfold numk in Hx, Hy. rewrite Hox in Hx. rewrite Hoy in Hy.
    destruct x as [sx|sx| |sx mx ex]; try discriminate;
      destruct y as [sy|sy| |sy my ey]; try discriminate;
      try reflexivity; destruct sx, sy; reflexivity.
Qed.

(* ===================================================================== *)
(** * 12. The exact comparison is the library's on binary64 data *)
(* ===================================================================== *)

Lemma is_double_canonical (s : bool) (m : positive) (e : Z) :
  is_double (S754_finite s m e) = true ->
  f64_emin <= e /\ digitsZ (Zpos m) <= 53 /\ (f64_emin < e -> digitsZ (Zpos m) = 53).
Proof.
  unfold is_double, valid_binary, bounded, canonical_mantissa. intros H.
  apply andb_true_iff in H. destruct H as [Hc _]. apply Z.eqb_eq in Hc.
  rewrite fexp_f64, digits2_pos_log2 in Hc.
  unfold f64_fexp, f64_prec, f64_emin in *. lia.
Qed.

(** Mantissas of doubles with different exponents. *)
Lemma canonical_lt (m1 m2 : positive) (e1 e2 : Z) :
  digitsZ (Zpos m1) <= 53 -> digitsZ (Zpos m2) = 53 -> e1 < e2 ->
  Zpos m1 * 2 ^ (e1 - Z.min e1 e2) < Zpos m2 * 2 ^ (e2 - Z.min e1 e2).
Proof.
  intros H1 H2 He. replace (Z.min e1 e2) with e1 by lia.
  rewrite Z.sub_diag. change (2 ^ 0) with 1. rewrite Z.mul_1_r.
  pose proof (digitsZ_bounds (Zpos m1) ltac:(lia)) as [_ Hhi].
  pose proof (digitsZ_bounds (Zpos m2) ltac:(lia)) as [Hlo _].
  rewrite H2 in Hlo. change (2 ^ (53 - 1)) with 4503599627370496 in Hlo.
  assert (2 ^ digitsZ (Zpos m1) <= 2 ^ 53).
  { apply pow2_le. pose proof (digitsZ_pos (Zpos m1) ltac:(lia)). lia. }
  change (2 ^ 53) with 9007199254740992 in *.
  assert (2 ^ 1 <= 2 ^ (e2 - e1)) by (apply pow2_le; lia).
  change (2 ^ 1) with 2 in *. nia.
Qed.

(** On binary64 data [ncompare] is [SFcompare], the comparison the
    Standard Library specifies for primitive floats. *)
Lemma ncompare_SFcompare (x y : number) :
  is_double x = true -> is_double y = true -> ncompare x y = SFcompare x y.
Proof.
  intros Hx Hy.
  destruct x as [sx|sx| |sx mx ex]; destruct y as [sy|sy| |sy my ey]; try reflexivity.
  - cbn -[Z.pow Z.mul]. rewrite Z.sub_diag. change (2 ^ 0) with 1. rewrite Z.mul_1_r.
    destruct sy; reflexivity.
  - cbn -[Z.pow Z.mul]. rewrite Z.sub_diag. change (2 ^ 0) with 1. rewrite Z.mul_1_r.
    destruct sx; reflexivity.
  - destruct (is_double_canonical _ _ _ Hx) as (Hex & Hdx & Hnx).
    destruct (is_double_canonical _ _ _ Hy) as (Hey & Hdy & Hny).
    cbn [ncompare SFcompare common_exp sval]. f_equal.
    pose proof (pow2_pos (ex - Z.min ex ey) ltac:(lia)) as Hpx.
    pose proof (pow2_pos (ey - Z.min ex ey) ltac:(lia)) as Hpy.
    destruct (Z.compare_spec ex ey) as [He|He|He].
    + subst ey. replace (Z.min ex ex) with ex by lia.
      rewrite Z.sub_diag. change (2 ^ 0) with 1. rewrite !Z.mul_1_r.
      rewrite Pos.compare_cont_spec.
      change (Pos.compare mx my) with (Z.compare (Zpos mx) (Zpos my)).
      destruct sx, sy; cbn [cond_Zopp].
      * rewrite Z.compare_opp, (Z.compare_antisym (Zpos mx) (Zpos my)).
        destruct (Zpos mx ?= Zpos my); reflexivity.
      * apply Z.compare_lt_iff. lia.
      * apply Z.compare_gt_iff. lia.
      * destruct (Zpos mx ?= Zpos my); reflexivity.
    + pose proof (canonical_lt mx my ex ey Hdx (Hny ltac:(lia)) He) as Hlt.
      destruct sx, sy; cbn [cond_Zopp].
      * apply Z.compare_gt_iff. lia.
      * apply Z.compare_lt_iff. lia.
      * apply Z.compare_gt_iff. lia.
      * apply Z.compare_lt_iff. lia.
    + pose proof (canonical_lt my mx ey ex Hdy (Hnx ltac:(lia)) He) as Hlt.
      rewrite (Z.min_comm ey ex) in Hlt.
      destruct sx, sy; cbn [cond_Zopp].
      * apply Z.compare_lt_iff. lia.
      * apply Z.compare_lt_iff. lia.
      * apply Z.compare_gt_iff. lia.
      * apply Z.compare_gt_iff. lia.
Qed.

(* ===================================================================== *)
(** * 13. The sort: permutation, order and stability *)
(* ===================================================================== *)

Section ArraySort.
Context {A : Type} (comparefn : A -> A -> number).

Lemma sort_insert_perm (x : A) (l : list A) :
  Permutation (sort_insert comparefn x l) (x :: l).
Proof.
  induction l as [|y l IH]; cbn [sort_insert]; [reflexivity|].
  destruct (sorts_after comparefn x y); [|reflexivity].
  rewrite IH. apply perm_swap.
Qed.

Lemma array_sort_perm (l : list A) : Permutation (array_sort comparefn l) l.
Proof.
  induction l as [|x l IH]; cbn; [reflexivity|].
  fold (array_sort comparefn l). rewrite sort_insert_perm, IH. reflexivity.
Qed.

Lemma array_sort_length (l : list A) : length (array_sort comparefn l) = length l.
Proof. apply Permutation_length, array_sort_perm. Qed.

Lemma array_sort_In (x : A) (l : list A) : In x (array_sort comparefn l) <-> In x l.
Proof.
  split; apply Permutation_in; [|symmetry]; apply array_sort_perm.
Qed.

(** Elements in the same class [P] that never sort after one another
    keep their order. *)
Lemma sort_insert_filter (P : A -> bool) (x : A) (l : list A) :
  (forall y, In y l -> P x = true -> P y = true -> sorts_after comparefn x y = false) ->
  List.filter P (sort_insert comparefn x l) = List.filter P (x :: l).
Proof.
  induction l as [|y l IH]; intros Hxy; [reflexivity|].
  cbn [sort_insert].
  destruct (sorts_after comparefn x y) eqn:Hs; [|reflexivity].
  cbn [List.filter]. rewrite IH by (intros z Hz; apply Hxy; right; exact Hz).
  cbn [List.filter].
  destruct (P x) eqn:Hx; destruct (P y) eqn:Hy; try reflexivity.
  rewrite (Hxy y (or_introl eq_refl) eq_refl Hy) in Hs. discriminate.
Qed.

Lemma array_sort_stable (P : A -> bool) (l : list A) :
  (forall x y, In x l -> In y l -> P x = true -> P y = true ->
               sorts_after comparefn x y = false) ->
  List.filter P (array_sort comparefn l) = List.filter P l.
Proof.
  induction l as [|x l IH]; intros Hl; [reflexivity|].
  cbn [array_sort fold_right]. fold (array_sort comparefn l).
  rewrite sort_insert_filter.
  - cbn [List.filter]. rewrite IH; [reflexivity|].
    intros a b Ha Hb. apply Hl; right; assumption.
  - intros y Hy. apply Hl; [left; reflexivity|right].
    apply array_sort_In. exact Hy.
Qed.

(** When "sorts after" is asymmetric and its negation transitive on the
    elements at hand, no element of the result sorts after a later one. *)
Section Sorted.
Variable S : A -> Prop.
Hypothesis asym : forall x y, S x -> S y ->
  sorts_after comparefn x y = true -> sorts_after comparefn y x = false.
Hypothesis ntrans : forall x y z, S x -> S y -> S z ->
  sorts_after comparefn x y = false -> sorts_after comparefn y z = false ->
  sorts_after comparefn x z = false.

Lemma sort_insert_sorted (x : A) (l : list A) :
  S x -> Forall S l -> StronglySorted (may_precede comparefn) l ->
  StronglySorted (may_precede comparefn) (sort_insert comparefn x l).
Proof.
  intros Hx HS Hl. induction Hl as [|y l Hl IH Hy]; cbn [sort_insert].
  - constructor; [constructor|constructor].
  - apply Forall_cons_iff in HS. destruct HS as [HSy HSl].
    destruct (sorts_after comparefn x y) eqn:Hs.
    + constructor; [apply IH; exact HSl|].
      rewrite sort_insert_perm.
      constructor; [apply asym; assumption|exact Hy].
    + constructor; [constructor; assumption|].
      constructor; [exact Hs|].
      rewrite Forall_forall in *. intros z Hz.
      exact (ntrans x y z Hx HSy (HSl z Hz) Hs (Hy z Hz)).
Qed.

Lemma array_sort_sorted (l : list A) :
  Forall S l -> StronglySorted (may_precede comparefn) (array_sort comparefn l).
Proof.
  induction l as [|x l IH]; intros HS; [constructor|].
  apply Forall_cons_iff in HS. destruct HS as [Hx Hl].
  cbn [array_sort fold_right]. fold (array_sort comparefn l).
  apply sort_insert_sorted; [exact Hx| |apply IH; exact Hl].
  rewrite array_sort_perm. exact Hl.
Qed.
End Sorted.
End ArraySort.

Lemma array_sort_map {A B : Type} (f : B -> A) (comparefn : A -> A -> number) (l : list B) :
  map f (array_sort (fun p q => comparefn (f p) (f q)) l) = array_sort comparefn (map f l).
Proof.
  induction l as [|x l IH]; [reflexivity|].
  cbn [array_sort fold_right map].
  fold (array_sort (fun p q => comparefn (f p) (f q)) l).
  fold (array_sort comparefn (map f l)). rewrite <- IH.
  generalize (array_sort (fun p q => comparefn (f p) (f q)) l). intros s.
  induction s as [|y s IHs]; [reflexivity|].
  cbn [sort_insert map]. unfold sorts_after. cbn beta.
  destruct (js_gt (comparefn (f x) (f y)) js_zero); cbn [map]; [rewrite IHs|]; reflexivity.
Qed.

(** ** Every stable sort agrees with [array_sort]

    When the comparator is consistent on the elements at hand, a sorted
    permutation that keeps the elements of equal rank in their order is
    unique: whatever stable algorithm an engine runs, it returns what
    [array_sort] returns. *)
Section StableUnique.
Context {A : Type} (comparefn : A -> A -> number).
Variable S : A -> Prop.
Hypothesis asym : forall x y, S x -> S y ->
  sorts_after comparefn x y = true -> sorts_after comparefn y x = false.
Hypothesis ntrans : forall x y z, S x -> S y -> S z ->
  sorts_after comparefn x y = false -> sorts_after comparefn y z = false ->
  sorts_after comparefn x z = false.

Lemma same_rank_refl (x : A) : S x -> same_rank comparefn x x = true.
Proof.
  intros Hx. unfold same_rank.
  destruct (sorts_after comparefn x x) eqn:E; [|reflexivity].
  rewrite (asym x x Hx Hx E) in E. discriminate.
Qed.

Lemma sorted_stable_unique (l1 l2 : list A) :
  Forall S l1 -> Permutation l1 l2 ->
  StronglySorted (may_precede comparefn) l1 ->
  StronglySorted (may_precede comparefn) l2 ->
  (forall x, S x -> List.filter (same_rank comparefn x) l1
                    = List.filter (same_rank comparefn x) l2) ->
  l1 = l2.
Proof.
  revert l2. induction l1 as [|a l1 IH]; intros l2 HS Hperm Hs1 Hs2 Hst.
  - apply Permutation_nil in Hperm. symmetry. exact Hperm.
  - destruct l2 as [|b l2].
    { symmetry in Hperm. apply Permutation_nil in Hperm. discriminate. }
    apply Forall_cons_iff in HS. destruct HS as [Ha HS1].
    apply StronglySorted_inv in Hs1. destruct Hs1 as [Hs1 Ha1].
    apply StronglySorted_inv in Hs2. destruct Hs2 as [Hs2 Hb2].
    assert (Hb : S b).
    { assert (Hin : In b (a :: l1)).
      { apply (Permutation_in b (Permutation_sym Hperm)). left. reflexivity. }
      destruct Hin as [<-|Hin]; [exact Ha|].
      rewrite Forall_forall in HS1. apply HS1. apply list_elem_of_In. exact Hin. }
    (* the two heads have the same rank *)
    assert (Hab : may_precede comparefn a b).
    { assert (Hin : In b (a :: l1)).
      { apply (Permutation_in b (Permutation_sym Hperm)). left. reflexivity. }
      destruct Hin as [<-|Hin].
      - pose proof (same_rank_refl a Ha) as E. unfold same_rank in E.
        apply andb_true_iff in E. destruct E as [E _]. apply negb_true_iff in E. exact E.
      - rewrite Forall_forall in Ha1. apply Ha1. apply list_elem_of_In. exact Hin. }
    assert (Hba : may_precede comparefn b a).
    { assert (Hin : In a (b :: l2)).
      { apply (Permutation_in a Hperm). left. reflexivity. }
      destruct Hin as [<-|Hin]; [exact Hab|].
      rewrite Forall_forall in Hb2. apply Hb2. apply list_elem_of_In. exact Hin. }
    assert (Eab : same_rank comparefn a b = true).
    { unfold same_rank. unfold may_precede in Hab, Hba. rewrite Hab, Hba. reflexivity. }
    (* hence they are the same element *)
    pose proof (Hst a Ha) as Hfa. cbn [List.filter] in Hfa.
    rewrite (same_rank_refl a Ha), Eab in Hfa.
    injection Hfa as Heq _. subst b.
    f_equal. apply IH.
    + exact HS1.
    + apply (Permutation_cons_inv Hperm).
    + exact Hs1.
    + exact Hs2.
    + intros x Hx. pose proof (Hst x Hx) as Hfx. cbn [List.filter] in Hfx.
      destruct (same_rank comparefn x a); [injection Hfx as Hfx|]; exact Hfx.
Qed.

Lemma array_sort_unique (l l' : list A) :
  Forall S l -> Permutation l' l ->
  StronglySorted (may_precede comparefn) l' ->
  (forall x, S x -> List.filter (same_rank comparefn x) l'
                    = List.filter (same_rank comparefn x) l) ->
  l' = array_sort comparefn l.
Proof.
  intros HS Hperm Hsorted Hst.
  apply sorted_stable_unique.
  - rewrite Hperm. exact HS.
  - rewrite Hperm. symmetry. apply array_sort_perm.
  - exact Hsorted.
  - apply (array_sort_sorted comparefn S asym ntrans). exact HS.
  - intros x Hx. rewrite (Hst x Hx). symmetry. apply array_sort_stable.
    intros y z Hy Hz Exy Exz.
    rewrite Forall_forall in HS.
    pose proof (HS y (proj2 (list_elem_of_In _ _) Hy)) as HSy.
    pose proof (HS z (proj2 (list_elem_of_In _ _) Hz)) as HSz.
    unfold same_rank in Exy, Exz.
    apply andb_true_iff in Exy. destruct Exy as [_ Eyx]. apply negb_true_iff in Eyx.
    apply andb_true_iff in Exz. destruct Exz as [Exz _]. apply negb_true_iff in Exz.
    exact (ntrans y x z HSy Hx HSz Eyx Exz).
Qed.
End StableUnique.

Lemma StronglySorted_lookup {A : Type} (R : A -> A -> Prop) (l : list A) :
  StronglySorted R l ->
  forall i j x y, (i < j)%nat -> l !! i = Some x -> l !! j = Some y -> R x y.
Proof.
  induction 1 as [|a l Hl IH Ha]; intros i j x y Hij Hi Hj.
  - rewrite lookup_nil in Hi. discriminate.
  - destruct j as [|j]; [lia|]. cbn in Hj.
    destruct i as [|i]; cbn in Hi.
    + injection Hi as <-. rewrite Forall_forall in Ha. apply Ha.
      apply list_elem_of_lookup. eauto.
    + apply (IH i j); [lia|assumption|assumption].
Qed.

(* ===================================================================== *)
(** * 14. The rate ranker and the handlers *)
(* ===================================================================== *)

Lemma processedRates_perm (H : Token.t) (Q : list ExchangeRate.t) :
  Permutation (processedRates H Q) (map (withNetAmount H) Q).
Proof. apply array_sort_perm. Qed.

Lemma processedRates_In (H : Token.t) (Q : list ExchangeRate.t) (r : ExchangeRate.t) :
  In r (processedRates H Q) <-> exists q, In q Q /\ r = withNetAmount H q.
Proof.
  unfold processedRates. rewrite array_sort_In, in_map_iff.
  split; intros (q & H1 & H2); exists q; auto.
Qed.

Lemma netOf_withNetAmount (H : Token.t) (q : ExchangeRate.t) :
  netOf (withNetAmount H q) = netProceeds H q.
Proof. reflexivity. Qed.

Lemma js_le_zero_nonneg (r : number) :
  is_nan r = false -> sign_of r = false -> js_le js_zero r = true.
Proof.
  destruct r as [s|s| |s m e]; cbn [is_nan sign_of]; intros Hn Hs;
    try discriminate; subst; try reflexivity.
  unfold js_le, ncompare, js_zero. cbn [common_exp sval cond_Zopp].
  rewrite Z.sub_diag. reflexivity.
Qed.

(** ** analyzeWithAI and fetchRates as state transformers *)

Lemma analyzeWithAI_empty (w : World) (token : Token.t) (s : AppState) :
  analyzeWithAI w token [] s =
  (mkState (rates s) (loading s) (aiAnalysis s) false (aiPrompts s)
           (console s ++ ["AI Analysis failed"]), Ok tt).
Proof. reflexivity. Qed.

(** [analyzeWithAI] never throws, leaves [rates] and [loading] alone and
    writes nothing but its own message to the console. *)
Lemma analyzeWithAI_total (w : World) (token : Token.t)
    (currentRates : list ExchangeRate.t) (s : AppState) :
  exists s', analyzeWithAI w token currentRates s = (s', Ok tt) /\
             rates s' = rates s /\ loading s' = loading s /\
             (console s' = console s \/ console s' = console s ++ ["AI Analysis failed"]).
Proof.
  unfold analyzeWithAI.
  generalize (buildPrompt w token currentRates (nth_error currentRates 0)).
  intros bp.
  unfold mbind, M_bind, bind, try_catch_finally, lift, setAnalyzing,
    callGenerateContent, setAiAnalysis, console_error. cbn.
  destruct bp as [prompt|e]; cbn.
  - destruct (generateContent w prompt) as [text|e]; cbn;
      (eexists; split; [reflexivity|]; cbn; repeat split; auto).
  - eexists; split; [reflexivity|]; cbn; repeat split; auto.
Qed.

(** With an answer from the rate endpoint, [fetchRates] stores the ranked
    records, does not throw and does not report an error of its own. *)
Lemma fetchRates_ok (w : World) (token : Token.t) (data : list ExchangeRate.t)
    (s : AppState) :
  fetchJson w ("/api/rates?symbol=" +:+ Token.symbol token) = Ok data ->
  exists s', fetchRates w token s = (s', Ok tt) /\
             rates s' = processedRates token data /\
             loading s' = false /\
             (console s' = console s \/ console s' = console s ++ ["AI Analysis failed"]).
Proof.
  intros Hf. unfold fetchRates, mbind, M_bind, bind, try_catch_finally, lift.
  rewrite Hf. cbn -[analyzeWithAI processedRates].
  destruct (analyzeWithAI_total w token (processedRates token data)
              (mkState (processedRates token data) true (aiAnalysis s) (analyzing s)
                       (aiPrompts s) (console s)))
    as (s' & Hs' & Hr & Hl & Hc).
  rewrite Hs'. cbn. eexists; split; [reflexivity|]. cbn.
  cbn in Hr, Hl, Hc. repeat split; auto.
Qed.

(* ===================================================================== *)
(** * 15. The ranking: formula, validation, empty input *)
(* ===================================================================== *)

(** The scenario of the specification: A nets 990, B nets 981.75, and A
    is ranked first. *)
Example scenario_ranking :
  processedRates scenario_holding scenario_quotes =
  [ ExchangeRate.mk "A" (ofZ 2800) (dec 1 100) (Some (ofZ 990));
    ExchangeRate.mk "B" (ofZ 2805) (dec 2 100) (Some (dec 98175 100)) ].
Proof. vm_compute. reflexivity. Qed.

(** C3, as stated, fails: a quote with a negative price and a fee of 2 is
    in the specification's sense malformed, and yet it is ranked. *)
Lemma C3_malformed_quote_is_ranked :
  ~ (forall q, In q (malformed_quote :: scenario_quotes) ->
               spec_valid_quote q = false ->
               ~ In (ExchangeRate.exchange q)
                    (map ExchangeRate.exchange
                         (processedRates scenario_holding (malformed_quote :: scenario_quotes)))).
Proof.
  intros Hspec. apply (Hspec malformed_quote).
  - left. reflexivity.
  - vm_compute. reflexivity.
  - vm_compute. right. right. left. reflexivity.
Qed.

(** C3, amended. No quote is excluded or reported: the ranked result is a
    permutation of all the annotated input quotes, malformed or not; the
    run does not throw, does not take its error branch, and writes nothing
    about quotes to the console. *)
Theorem C3_no_quote_is_excluded (w : World) (H : Token.t) (Q : list ExchangeRate.t)
    (s : AppState) :
  exists s',
    fetchRates (answering w (Ok Q)) H s = (s', Ok tt) /\
    rates s' = processedRates H Q /\
    Permutation (rates s') (map (withNetAmount H) Q) /\
    length (rates s') = length Q /\
    (forall q, In q Q -> In (withNetAmount H q) (rates s')) /\
    (console s' = console s \/ console s' = console s ++ ["AI Analysis failed"]).
Proof.
  destruct (fetchRates_ok (answering w (Ok Q)) H Q s eq_refl) as (s' & Hs' & Hr & _ & Hc).
  exists s'. split; [exact Hs'|]. split; [exact Hr|]. rewrite Hr.
  split; [apply processedRates_perm|].
  split; [rewrite (Permutation_length (processedRates_perm H Q)); apply length_map|].
  split; [|exact Hc].
  intros q Hq. apply processedRates_In. exists q. auto.
Qed.

(** C4, as stated, fails: for a holding with unit price 0 and a negative
    total value the run neither throws nor takes its error branch. *)
Lemma C4_malformed_holding_is_ranked :
  ~ (spec_valid_holding malformed_holding = false ->
     ranking_failed initial_state
       (fetchRates (fixed_world scenario_quotes) malformed_holding initial_state)).
Proof.
  intros Hspec. destruct (Hspec eq_refl) as [[e He]|Hc].
  - vm_compute in He. discriminate.
  - vm_compute in Hc. discriminate.
Qed.

(** C4, amended. The holding is not validated: for every holding, also
    one with a unit price that is not positive or a negative total value,
    and every quote list the endpoint answers, the run does not fail and
    stores the annotated, sorted list.  The error branch is taken exactly
    when the rate request itself fails. *)
Theorem C4_holding_is_not_validated (w : World) (H : Token.t) (s : AppState) :
  (forall Q, ~ ranking_failed s (fetchRates (answering w (Ok Q)) H s) /\
             rates (fst (fetchRates (answering w (Ok Q)) H s)) = processedRates H Q) /\
  (forall e, fetchRates (answering w (Throw e)) H s =
             (mkState (rates s) false (aiAnalysis s) (analyzing s) (aiPrompts s)
                      (console s ++ ["Error fetching rates"]), Ok tt)).
Proof.
  split.
  - intros Q.
    destruct (fetchRates_ok (answering w (Ok Q)) H Q s eq_refl) as (s' & Hs' & Hr & _ & Hc).
    rewrite Hs'. cbn [fst snd]. split; [|exact Hr].
    intros [[e He]|Hf]; [discriminate|]. cbn [fst] in Hf.
    destruct Hc as [Hc|Hc]; rewrite Hc in Hf.
    + apply (f_equal (@length string)) in Hf. rewrite length_app in Hf. cbn in Hf. lia.
    + apply app_inv_head in Hf. discriminate.
  - intros e. reflexivity.
Qed.

(** C6, as stated, fails: with a unit price of [5e-324], total value 1 and
    a quote at price 1 with fee 1, the quotient overflows to [Infinity]
    and the net amount is [Infinity * 0], that is NaN. *)
Lemma C6_fee_one_overflow :
  ~ (js_gt (Token.price (dust_holding js_one)) js_zero = true ->
     is_finite (Token.value (dust_holding js_one)) = true ->
     ExchangeRate.fee (unit_quote js_one) = js_one ->
     js_gt (ExchangeRate.price (unit_quote js_one)) js_zero = true ->
     is_finite (ExchangeRate.price (unit_quote js_one)) = true ->
     js_eq (netProceeds (dust_holding js_one) (unit_quote js_one)) js_zero = true).
Proof.
  intros Hspec.
  specialize (Hspec eq_refl eq_refl eq_refl eq_refl eq_refl).
  vm_compute in Hspec. discriminate.
Qed.

(** C6, amended. A quote with fee exactly 1 yields a net amount equal to
    zero provided the product [totalValue * (unitPrice / H.unitPrice)] is
    finite. *)
Theorem C6_fee_one_yields_zero (H : Token.t) (q : ExchangeRate.t) :
  ExchangeRate.fee q = js_one ->
  is_finite (js_mul (Token.value H) (js_div (ExchangeRate.price q) (Token.price H))) = true ->
  js_eq (netProceeds H q) js_zero = true.
Proof.
  intros Hfee Hfin. unfold netProceeds. rewrite Hfee.
  change (js_sub js_one js_one) with (S754_zero false).
  destruct (js_mul (Token.value H) (js_div (ExchangeRate.price q) (Token.price H)))
    as [s|s| |s m e]; try discriminate; reflexivity.
Qed.

Lemma C6_fee_one_yields_zero_witness :
  js_eq (netProceeds scenario_holding (ExchangeRate.mk "A" (ofZ 2800) js_one None)) js_zero = true.
Proof.
  apply C6_fee_one_yields_zero; vm_compute; reflexivity.
Defined.

(** C7, as stated, fails in its general half: a list that holds a
    malformed quote only is ranked to a list of one record, not to the
    empty list. *)
Lemma C7_malformed_only_list_is_ranked :
  ~ (Forall (fun q => spec_valid_quote q = false) [malformed_quote] ->
     processedRates scenario_holding [malformed_quote] = []).
Proof.
  intros Hspec.
  assert (HQ : Forall (fun q => spec_valid_quote q = false) [malformed_quote]).
  { repeat constructor. }
  specialize (Hspec HQ). vm_compute in Hspec. discriminate Hspec.
Qed.

(** C7, amended. For every holding the empty quote list is ranked to the
    empty list, and the run neither throws nor takes its error branch.
    The result is empty only for the empty input: a list that is not
    empty, also one of malformed quotes only, is ranked to a list that is
    not empty. *)
Theorem C7_empty_quote_list (w : World) (H : Token.t) (s : AppState) :
  processedRates H [] = [] /\
  fetchRates (answering w (Ok [])) H s =
    (mkState [] false (aiAnalysis s) false (aiPrompts s)
             (console s ++ ["AI Analysis failed"]), Ok tt) /\
  ~ ranking_failed s (fetchRates (answering w (Ok [])) H s) /\
  (forall Q, processedRates H Q = [] <-> Q = []).
Proof.
  split; [reflexivity|]. split; [reflexivity|]. split.
  - cbn. intros [[e He]|Hf]; [discriminate|].
    apply app_inv_head in Hf. discriminate.
  - intros Q. split.
    + intros HQ. apply (f_equal (@length _)) in HQ.
      rewrite (Permutation_length (processedRates_perm H Q)), length_map in HQ.
      destruct Q; [reflexivity|discriminate].
    + intros ->. reflexivity.
Qed.

(** C10. On the empty ranked list, [currentRates[0]] is no value, building
    the prompt throws, the [catch] branch logs and swallows the error, no
    prompt reaches the generation API and the stored analysis text is left
    as it was. *)
Theorem C10_empty_list_keeps_analysis (w : World) (token : Token.t) (s : AppState) :
  nth_error ([] : list ExchangeRate.t) 0 = None /\
  (exists e, buildPrompt w token [] None = Throw e) /\
  analyzeWithAI w token [] s =
    (mkState (rates s) (loading s) (aiAnalysis s) false (aiPrompts s)
             (console s ++ ["AI Analysis failed"]), Ok tt) /\
  aiAnalysis (fst (analyzeWithAI w token [] s)) = aiAnalysis s /\
  aiPrompts (fst (analyzeWithAI w token [] s)) = aiPrompts s.
Proof.
  split; [reflexivity|]. split; [eexists; reflexivity|].
  split; [reflexivity|]. split; reflexivity.
Qed.

(* ===================================================================== *)
(** * 16. Signs and classes of the net amount *)
(* ===================================================================== *)

Lemma js_gt_zero_cases (x : number) :
  js_gt x js_zero = true ->
  (exists m e, x = S754_finite false m e) \/ x = S754_infinity false.
Proof.
  unfold js_gt, js_lt, js_zero.
  destruct x as [s|s| |s m e]; cbn -[Z.pow Z.mul]; try discriminate.
  - destruct s; [discriminate|auto].
  - rewrite Z.sub_diag. change (2 ^ 0) with 1. rewrite Z.mul_1_r.
    destruct s; cbn; [discriminate|eauto].
Qed.

Lemma js_ge_zero_cases (x : number) :
  is_finite x = true -> js_ge x js_zero = true ->
  (exists s, x = S754_zero s) \/ (exists m e, x = S754_finite false m e).
Proof.
  unfold js_ge, js_le, js_zero.
  destruct x as [s|s| |s m e]; cbn -[Z.pow Z.mul]; try discriminate; intros _.
  - eauto.
  - rewrite Z.sub_diag. change (2 ^ 0) with 1. rewrite Z.mul_1_r.
    destruct s; cbn; [discriminate|eauto].
Qed.

(** [1 - fee] is a positive finite number when [0 <= fee < 1]. *)
Lemma one_minus_fee_positive (fee : number) :
  is_double fee = true -> is_finite fee = true ->
  js_le js_zero fee = true -> js_lt fee js_one = true ->
  exists m e, js_sub js_one fee = S754_finite false m e.
Proof.
  intros Hd Hf H0 H1.
  pose proof (is_double_okf fee Hd Hf) as Hok.
  assert (Hone : okf js_one = true) by reflexivity.
  assert (Ha : f64_emin <= f64_emin) by lia.
  apply (js_le_sval js_zero fee f64_emin eq_refl Hok Ha) in H0.
  apply (js_lt_sval fee js_one f64_emin Hok Hone Ha) in H1.
  change (sval f64_emin js_zero) with 0 in H0.
  pose proof (js_sub_spec js_one fee f64_emin Hone Hok Ha) as Hr.
  destruct (rounds_to_between False f64_emin
              (sval f64_emin js_one - sval f64_emin fee) 0 (sval f64_emin js_one)
              (js_sub js_one fee) js_zero js_one Ha (fun f => f) Hr eq_refl eq_refl
              Hone (eq_sym (RNs_exact js_one f64_emin Hone Ha)) ltac:(lia))
    as [Hokr Hb].
  pose proof (rounds_to_okf _ _ _ _ Hr Hokr) as Hv.
  pose proof (RNs_sign (sval f64_emin js_one - sval f64_emin fee)) as Hs.
  rewrite <- Hv in Hs. rewrite (Z.sgn_pos (_ - _)) in Hs by lia.
  apply Z.sgn_pos_iff in Hs. clear Hr Hv Hb. revert Hokr Hs.
  destruct (js_sub js_one fee) as [s|s| |s m e]; try discriminate; intros Hokr Hs.
  destruct s; [|eauto].
  cbn -[Z.pow Z.mul] in Hs.
  apply (proj1 (okf_finite _ _ _)) in Hokr.
  pose proof (pow2_pos (e - f64_emin) ltac:(lia)). lia.
Qed.

(** The quotient of a positive finite price by a positive price. *)
Lemma ratio_class (p hp : number) :
  is_finite p = true -> js_gt p js_zero = true -> js_gt hp js_zero = true ->
  is_nan (js_div p hp) = false /\ sign_of (js_div p hp) = false.
Proof.
  intros Hf Hp Hhp.
  destruct (js_gt_zero_cases p Hp) as [(m & e & ->)| ->]; [|discriminate].
  destruct (js_gt_zero_cases hp Hhp) as [(m' & e' & ->)| ->].
  - apply (js_div_finite_sign false false).
  - split; reflexivity.
Qed.

(** The classes of a product with a positive finite factor. *)
Lemma mul_positive_finite (p : number) (m : positive) (e : Z) :
  match p with
  | S754_nan => js_mul p (S754_finite false m e) = S754_nan
  | S754_infinity s => js_mul p (S754_finite false m e) = S754_infinity s
  | S754_zero s => js_mul p (S754_finite false m e) = S754_zero s
  | S754_finite s _ _ =>
      is_nan (js_mul p (S754_finite false m e)) = false /\
      sign_of (js_mul p (S754_finite false m e)) = s
  end.
Proof.
  destruct p as [s|s| |s mp ep]; try (destruct s; reflexivity); try reflexivity.
  pose proof (js_mul_finite_sign s false mp m ep e) as H. cbn zeta in H.
  rewrite xorb_false_r in H. exact H.
Qed.

(** The classes of the product of the total value and the quotient. *)
Lemma value_times_ratio (v r : number) :
  is_nan r = false -> sign_of r = false ->
  match v with
  | S754_nan => js_mul v r = S754_nan
  | S754_infinity s => js_mul v r = S754_nan \/ js_mul v r = S754_infinity s
  | S754_zero s => js_mul v r = S754_nan \/ js_mul v r = S754_zero s
  | S754_finite s _ _ => is_nan (js_mul v r) = false /\ sign_of (js_mul v r) = s
  end.
Proof.
  intros Hn Hs.
  destruct r as [sr|sr| |sr mr er]; try discriminate; cbn [sign_of] in Hs; subst sr;
    destruct v as [s|s| |s mv ev]; try (destruct s; cbn; auto; fail); try reflexivity.
  pose proof (js_mul_finite_sign s false mv mr ev er) as H. cbn zeta in H.
  rewrite xorb_false_r in H. exact H.
Qed.

(** The class of the net amount in terms of the total value, for a valid
    quote and a positive unit price. *)
Lemma net_class (H : Token.t) (q : ExchangeRate.t) :
  js_gt (Token.price H) js_zero = true ->
  is_double (ExchangeRate.fee q) = true -> spec_valid_quote q = true ->
  let n := netProceeds H q in
  match Token.value H with
  | S754_nan => n = S754_nan
  | S754_infinity s => n = S754_nan \/ n = S754_infinity s
  | S754_zero s => n = S754_nan \/ n = S754_zero s
  | S754_finite s _ _ => is_nan n = false /\ (sign_of n = s)
  end.
Proof.
  intros Hhp Hd Hv. cbn zeta.
  pose proof Hd as Hdf.
  unfold spec_valid_quote in Hv. rewrite !andb_true_iff in Hv.
  destruct Hv as ((((Hfp & Hff) & Hp) & Hf0) & Hf1).
  destruct (one_minus_fee_positive _ Hdf Hff Hf0 Hf1) as (mg & eg & Hg).
  destruct (ratio_class _ _ Hfp Hp Hhp) as [Hrn Hrs].
  unfold netProceeds. rewrite Hg.
  pose proof (value_times_ratio (Token.value H) _ Hrn Hrs) as Hpv.
  set (p := js_mul (Token.value H) (js_div (ExchangeRate.price q) (Token.price H))) in *.
  pose proof (mul_positive_finite p mg eg) as Hn.
  destruct (Token.value H) as [s|s| |s mv ev].
  - destruct Hpv as [Hp'|Hp']; rewrite Hp' in *; auto.
  - destruct Hpv as [Hp'|Hp']; rewrite Hp' in *; auto.
  - rewrite Hpv in *. exact Hn.
  - destruct Hpv as [Hpn Hps].
    destruct p as [sp|sp| |sp mp ep]; try discriminate; cbn [sign_of] in Hps; subst sp.
    + rewrite Hn. split; reflexivity.
    + rewrite Hn. split; reflexivity.
    + exact Hn.
Qed.

(** C5, as stated, fails: with total value 0, a unit price of [5e-324] and
    a quote at price 1 without fee, the quotient overflows to [Infinity]
    and the net amount is [0 * Infinity], that is NaN, which is not
    [>= 0]. *)
Lemma C5_zero_value_overflow :
  ~ (spec_valid_holding (dust_holding js_zero) = true ->
     spec_valid_quote (unit_quote js_zero) = true ->
     js_ge (netProceeds (dust_holding js_zero) (unit_quote js_zero)) js_zero = true).
Proof.
  intros Hspec. specialize (Hspec eq_refl eq_refl).
  vm_compute in Hspec. discriminate.
Qed.

(** C5, amended. For a valid holding and a valid quote the net amount is
    non-negative provided the total value is positive or the quotient
    [unitPrice / H.unitPrice] is finite. *)
Theorem C5_net_amount_nonneg (H : Token.t) (q : ExchangeRate.t) :
  spec_valid_holding H = true ->
  is_double (ExchangeRate.fee q) = true -> spec_valid_quote q = true ->
  js_gt (Token.value H) js_zero = true \/
  is_finite (js_div (ExchangeRate.price q) (Token.price H)) = true ->
  js_ge (netProceeds H q) js_zero = true.
Proof.
  intros HH Hd Hq Hextra.
  unfold spec_valid_holding in HH. rewrite !andb_true_iff in HH.
  destruct HH as (((Hfp & Hfv) & Hp) & Hv).
  pose proof (net_class H q Hp Hd Hq) as Hn. cbn zeta in Hn.
  unfold js_ge.
  destruct (js_ge_zero_cases _ Hfv Hv) as [[s Hs]|(m & e & Hs)]; rewrite Hs in Hn.
  - (* total value zero: the quotient is finite *)
    destruct Hextra as [Hpos|Hfin]; [rewrite Hs in Hpos; destruct s; discriminate|].
    pose proof Hd as Hdf.
    unfold spec_valid_quote in Hq. rewrite !andb_true_iff in Hq.
    destruct Hq as ((((Hfq & Hff) & Hpq) & Hf0) & Hf1).
    destruct (one_minus_fee_positive _ Hdf Hff Hf0 Hf1) as (mg & eg & Hg).
    unfold netProceeds. rewrite Hg, Hs.
    destruct (js_div (ExchangeRate.price q) (Token.price H)) as [sr|sr| |sr mr er];
      try discriminate; destruct s, sr; reflexivity.
  - destruct Hn as [Hnan Hsign]. apply js_le_zero_nonneg; assumption.
Qed.

Lemma C5_net_amount_nonneg_witness :
  js_ge (netProceeds scenario_holding (ExchangeRate.mk "A" (ofZ 2800) (dec 1 100) None))
        js_zero = true.
Proof.
  apply C5_net_amount_nonneg.
  - vm_compute. reflexivity.
  - vm_compute. reflexivity.
  - vm_compute. reflexivity.
  - left. vm_compute. reflexivity.
Defined.

(* ===================================================================== *)
(** * 17. The order of the ranked list *)
(* ===================================================================== *)

Lemma ord_key_bound (x : number) :
  okf x = true -> Z.abs (ord_key x) < 2 ^ (f64_emax - f64_emin).
Proof.
  intros Hok. destruct x as [s|s| |s m e]; try discriminate;
    apply (okf_bound _ f64_emin Hok); lia.
Qed.

Lemma ncompare_key (x y : number) :
  numk x = true -> numk y = true -> is_nan x = false -> is_nan y = false ->
  ncompare x y = Some (ord_key x ?= ord_key y).
Proof.
  intros Hx Hy Hnx Hny.
  pose proof (pow2_pos (f64_emax - f64_emin) ltac:(unfold f64_emax, f64_emin; lia)) as HP.
  destruct (numk_cases x Hx) as [Hox|[[sx ->]| ->]]; [| |discriminate];
    destruct (numk_cases y Hy) as [Hoy|[[sy ->]| ->]]; try discriminate.
  - rewrite (ncompare_sval x y f64_emin Hox Hoy ltac:(lia)).
    destruct x as [s|s| |s m e]; try discriminate;
      destruct y as [s'|s'| |s' m' e']; try discriminate; reflexivity.
  - pose proof (ord_key_bound x Hox) as Hb.
    destruct x as [s|s| |s m e]; try discriminate;
      (destruct sy; cbn [ncompare ord_key cond_Zopp] in *; f_equal; symmetry;
       first [apply Z.compare_gt_iff; lia|apply Z.compare_lt_iff; lia]).
  - pose proof (ord_key_bound y Hoy) as Hb.
    destruct y as [s|s| |s m e]; try discriminate;
      (destruct sx; cbn [ncompare ord_key cond_Zopp] in *; f_equal; symmetry;
       first [apply Z.compare_gt_iff; lia|apply Z.compare_lt_iff; lia]).
  - destruct sx, sy; reflexivity.
Qed.

Lemma js_lt_key (x y : number) :
  numk x = true -> numk y = true -> is_nan x = false -> is_nan y = false ->
  js_lt x y = (ord_key x <? ord_key y).
Proof.
  intros Hx Hy Hnx Hny. unfold js_lt, Z.ltb. rewrite (ncompare_key x y Hx Hy Hnx Hny).
  destruct (ord_key x ?= ord_key y); reflexivity.
Qed.

Lemma js_le_key (x y : number) :
  numk x = true -> numk y = true -> is_nan x = false -> is_nan y = false ->
  js_le x y = (ord_key x <=? ord_key y).
Proof.
  intros Hx Hy Hnx Hny. unfold js_le, Z.leb. rewrite (ncompare_key x y Hx Hy Hnx Hny).
  destruct (ord_key x ?= ord_key y); reflexivity.
Qed.

(** Exact comparison of zeros and finite numbers at any common scale. *)
Lemma ncompare_exact (x y : number) (a : Z) :
  is_finite x = true -> is_finite y = true ->
  (forall s m e, x = S754_finite s m e -> a <= e) ->
  (forall s m e, y = S754_finite s m e -> a <= e) ->
  (forall s s', x = S754_zero s -> y = S754_zero s' -> a <= 0) ->
  ncompare x y = Some (sval a x ?= sval a y).
Proof.
  intros Hx Hy Hax Hay Hzz.
  set (c := common_exp x y).
  assert (Hcx : forall s m e, x = S754_finite s m e -> c <= e).
  { intros s m e ->. unfold c. destruct y; cbn; lia. }
  assert (Hcy : forall s m e, y = S754_finite s m e -> c <= e).
  { intros s m e ->. unfold c. destruct x; cbn; lia. }
  assert (Hac : a <= c).
  { unfold c. destruct x as [sx|sx| |sx mx ex]; try discriminate;
      destruct y as [sy|sy| |sy my ey]; try discriminate; cbn [common_exp].
    - eapply Hzz; reflexivity.
    - eapply Hay; reflexivity.
    - eapply Hax; reflexivity.
    - specialize (Hax _ _ _ eq_refl). specialize (Hay _ _ _ eq_refl). lia. }
  rewrite (sval_rescale x c a Hac Hcx), (sval_rescale y c a Hac Hcy).
  rewrite Zcompare_scale by (apply pow2_pos; lia).
  destruct x as [sx|sx| |sx mx ex]; try discriminate;
    destruct y as [sy|sy| |sy my ey]; try discriminate; reflexivity.
Qed.

(** Two numbers equal to a third are not strictly ordered. *)
Lemma js_eq_not_lt (x y v : number) :
  js_eq x v = true -> js_eq y v = true -> js_lt x y = false.
Proof.
  unfold js_eq, js_lt.
  destruct (is_finite x && is_finite y && is_finite v) eqn:Hfin.
  - rewrite !andb_true_iff in Hfin. destruct Hfin as [[Fx Fy] Fv].
    set (a := Z.min (Z.min (fexpo x) (fexpo y)) (Z.min (fexpo v) 0)).
    assert (Hax : forall s m e, x = S754_finite s m e -> a <= e).
    { intros s m e ->. unfold a. cbn [fexpo]. lia. }
    assert (Hay : forall s m e, y = S754_finite s m e -> a <= e).
    { intros s m e ->. unfold a. cbn [fexpo]. lia. }
    assert (Hav : forall s m e, v = S754_finite s m e -> a <= e).
    { intros s m e ->. unfold a. cbn [fexpo]. lia. }
    assert (Ha0 : a <= 0) by (unfold a; lia).
    rewrite (ncompare_exact x v a Fx Fv Hax Hav (fun _ _ _ _ => Ha0)).
    rewrite (ncompare_exact y v a Fy Fv Hay Hav (fun _ _ _ _ => Ha0)).
    rewrite (ncompare_exact x y a Fx Fy Hax Hay (fun _ _ _ _ => Ha0)).
    destruct (Z.compare_spec (sval a x) (sval a v)); try discriminate.
    destruct (Z.compare_spec (sval a y) (sval a v)); try discriminate.
    intros _ _.
    destruct (Z.compare_spec (sval a x) (sval a y)); try reflexivity. lia.
  - destruct x as [[]|[]| |[] mx ex]; destruct y as [[]|[]| |[] my ey];
      destruct v as [[]|[]| |[] mv ev]; try discriminate; try reflexivity;
      cbn; intros; discriminate.
Qed.

Lemma lookup_map {A B : Type} (f : A -> B) (l : list A) (i : nat) (y : B) :
  map f l !! i = Some y -> exists x, l !! i = Some x /\ y = f x.
Proof.
  revert i. induction l as [|a l IH]; intros i Hi.
  - destruct i; discriminate.
  - destruct i as [|i]; cbn in Hi.
    + injection Hi as <-. exists a. split; reflexivity.
    + apply IH. exact Hi.
Qed.

Lemma netOf_numk (H : Token.t) (Q : list ExchangeRate.t) (r : ExchangeRate.t) :
  In r (processedRates H Q) -> numk (netOf r) = true.
Proof.
  intros Hr. apply processedRates_In in Hr. destruct Hr as (q & _ & ->).
  rewrite netOf_withNetAmount. apply js_mul_numk.
Qed.

(** On annotated records the comparator orders by net amount. *)
Lemma sorts_after_net (a b : ExchangeRate.t) :
  numk (netOf a) = true -> numk (netOf b) = true ->
  sorts_after byNetAmountDesc a b = js_lt (netOf a) (netOf b).
Proof.
  intros Ha Hb. unfold sorts_after, byNetAmountDesc.
  apply comparator_correct; assumption.
Qed.

(** The ranked list when no net amount is NaN. *)
Lemma processedRates_sorted (H : Token.t) (Q : list ExchangeRate.t) :
  Forall (fun q => is_nan (netProceeds H q) = false) Q ->
  StronglySorted (fun a b => js_lt (netOf a) (netOf b) = false) (processedRates H Q).
Proof.
  intros Hnan.
  set (S := fun r : ExchangeRate.t => numk (netOf r) = true /\ is_nan (netOf r) = false).
  assert (HS : Forall S (map (withNetAmount H) Q)).
  { rewrite Forall_forall in *. intros r Hr. apply list_elem_of_In in Hr.
    apply in_map_iff in Hr. destruct Hr as (q & <- & Hq).
    split; [apply js_mul_numk|]. apply Hnan. apply list_elem_of_In. exact Hq. }
  pose proof (array_sort_sorted byNetAmountDesc S) as Hsorted.
  assert (Hs : StronglySorted (fun x y => sorts_after byNetAmountDesc x y = false)
                 (processedRates H Q)).
  { apply Hsorted; [| |exact HS].
    - intros x y [Hx Hx'] [Hy Hy'].
      rewrite !sorts_after_net, !js_lt_key by assumption.
      intros Hlt. apply Z.ltb_lt in Hlt. apply Z.ltb_ge. lia.
    - intros x y z [Hx Hx'] [Hy Hy'] [Hz Hz'].
      rewrite !sorts_after_net, !js_lt_key by assumption.
      intros H1 H2. apply Z.ltb_ge in H1, H2. apply Z.ltb_ge. lia. }
  assert (HSR : Forall S (processedRates H Q)).
  { unfold processedRates. rewrite array_sort_perm. exact HS. }
  clear Hsorted HS. induction Hs as [|a l Hl IH Ha]; constructor.
  - apply IH. apply Forall_cons_iff in HSR. tauto.
  - apply Forall_cons_iff in HSR. destruct HSR as [[Hka _] HSl].
    rewrite Forall_forall in *. intros b Hb.
    rewrite <- sorts_after_net; [apply Ha; exact Hb|exact Hka|apply (HSl b Hb)].
Qed.

(** Whatever stable sort the engine runs, it returns [processedRates]
    when no net amount is NaN. *)
Lemma processedRates_unique (H : Token.t) (Q R : list ExchangeRate.t) :
  Forall (fun q => is_nan (netProceeds H q) = false) Q ->
  Permutation R (map (withNetAmount H) Q) ->
  StronglySorted (may_precede byNetAmountDesc) R ->
  (forall x, List.filter (same_rank byNetAmountDesc x) R
             = List.filter (same_rank byNetAmountDesc x) (map (withNetAmount H) Q)) ->
  R = processedRates H Q.
Proof.
  intros Hnan Hperm Hsorted Hst.
  set (S := fun r : ExchangeRate.t => numk (netOf r) = true /\ is_nan (netOf r) = false).
  apply (array_sort_unique byNetAmountDesc S).
  - intros x y [Hx Hx'] [Hy Hy'].
    rewrite !sorts_after_net, !js_lt_key by assumption.
    intros Hlt. apply Z.ltb_lt in Hlt. apply Z.ltb_ge. lia.
  - intros x y z [Hx Hx'] [Hy Hy'] [Hz Hz'].
    rewrite !sorts_after_net, !js_lt_key by assumption.
    intros H1 H2. apply Z.ltb_ge in H1, H2. apply Z.ltb_ge. lia.
  - rewrite Forall_forall in *. intros r Hr. apply list_elem_of_In in Hr.
    apply in_map_iff in Hr. destruct Hr as (q & <- & Hq).
    split; [apply js_mul_numk|]. apply Hnan. apply list_elem_of_In. exact Hq.
  - exact Hperm.
  - exact Hsorted.
  - intros x _. apply Hst.
Qed.

(** Either no net amount is NaN, or no two net amounts are strictly
    ordered. *)
Lemma nets_dichotomy (H : Token.t) (Q : list ExchangeRate.t) :
  js_gt (Token.price H) js_zero = true ->
  Forall (fun q => is_double (ExchangeRate.fee q) = true /\ spec_valid_quote q = true) Q ->
  Forall (fun q => is_nan (netProceeds H q) = false) Q \/
  (forall q1 q2, In q1 Q -> In q2 Q ->
                 js_lt (netProceeds H q1) (netProceeds H q2) = false).
Proof.
  intros Hp HQ. rewrite Forall_forall in HQ.
  assert (Hc : forall q, In q Q ->
            match Token.value H with
            | S754_nan => netProceeds H q = S754_nan
            | S754_infinity s => netProceeds H q = S754_nan \/ netProceeds H q = S754_infinity s
            | S754_zero s => netProceeds H q = S754_nan \/ netProceeds H q = S754_zero s
            | S754_finite s _ _ => is_nan (netProceeds H q) = false /\ sign_of (netProceeds H q) = s
            end).
  { intros q Hq. apply list_elem_of_In in Hq. destruct (HQ q Hq) as [Hd Hv].
    apply (net_class H q Hp Hd Hv). }
  destruct (Token.value H) as [s|s| |s m e].
  - right. intros q1 q2 H1 H2.
    destruct (Hc q1 H1) as [-> | ->]; destruct (Hc q2 H2) as [-> | ->];
      destruct s; reflexivity.
  - right. intros q1 q2 H1 H2.
    destruct (Hc q1 H1) as [-> | ->]; destruct (Hc q2 H2) as [-> | ->];
      destruct s; reflexivity.
  - right. intros q1 q2 H1 H2. rewrite (Hc q1 H1). reflexivity.
  - left. rewrite Forall_forall. intros q Hq. apply list_elem_of_In in Hq.
    apply (Hc q Hq).
Qed.

Lemma filter_all {A : Type} (l : list A) : List.filter (fun _ => true) l = l.
Proof. induction l as [|a l IH]; [reflexivity|]. cbn. rewrite IH. reflexivity. Qed.

(** When no two net amounts are strictly ordered the ranking returns the
    annotated quotes in their input order. *)
Lemma processedRates_flat (H : Token.t) (Q : list ExchangeRate.t) :
  (forall q1 q2, In q1 Q -> In q2 Q ->
                 js_lt (netProceeds H q1) (netProceeds H q2) = false) ->
  processedRates H Q = map (withNetAmount H) Q.
Proof.
  intros Hflat.
  rewrite <- (filter_all (processedRates H Q)), <- (filter_all (map (withNetAmount H) Q)).
  unfold processedRates. apply array_sort_stable.
  intros x y Hx Hy _ _.
  apply in_map_iff in Hx. destruct Hx as (q1 & <- & H1).
  apply in_map_iff in Hy. destruct Hy as (q2 & <- & H2).
  rewrite sorts_after_net by (rewrite netOf_withNetAmount; apply js_mul_numk).
  rewrite !netOf_withNetAmount. apply Hflat; assumption.
Qed.

(** C2, as stated, fails: for a holding without value the quote whose
    price quotient overflows nets [0 * Infinity], which is NaN, after a
    quote that nets 0; the ranked net amounts are [0; NaN], and 0 is not
    [>=] NaN. *)
Lemma C2_nan_net_is_not_ordered :
  ~ (js_gt (Token.price idle_holding) js_zero = true ->
     Forall (fun q => spec_valid_quote q = true) spread_quotes ->
     descending (map netOf (processedRates idle_holding spread_quotes))).
Proof.
  intros Hspec.
  assert (Hp : js_gt (Token.price idle_holding) js_zero = true) by (vm_compute; reflexivity).
  assert (HQ : Forall (fun q => spec_valid_quote q = true) spread_quotes).
  { repeat constructor; vm_compute; reflexivity. }
  specialize (Hspec Hp HQ 0%nat 1%nat (S754_zero false) S754_nan).
  assert (Hlt : (0 < 1)%nat) by lia.
  specialize (Hspec Hlt).
  assert (H0 : map netOf (processedRates idle_holding spread_quotes) !! 0%nat
               = Some (S754_zero false)) by (vm_compute; reflexivity).
  assert (H1 : map netOf (processedRates idle_holding spread_quotes) !! 1%nat
               = Some S754_nan) by (vm_compute; reflexivity).
  specialize (Hspec H0 H1). vm_compute in Hspec. discriminate Hspec.
Qed.

(** C2, amended. For every holding with a positive unit price and every
    list of valid quotes, the ranked list is a permutation of the
    annotated quotes in which the quotes of equal net amount stand in
    their input order.  When no net amount is NaN (in particular when
    the total value is finite and not zero), every net amount is [>=]
    all the later ones.  When some net amount is NaN, the quotes are
    returned in their input order. *)
Theorem C2_sorted_descending_stable (H : Token.t) (Q : list ExchangeRate.t) :
  js_gt (Token.price H) js_zero = true ->
  Forall (fun q => is_double (ExchangeRate.fee q) = true /\ spec_valid_quote q = true) Q ->
  Permutation (processedRates H Q) (map (withNetAmount H) Q) /\
  (forall v, with_net v (processedRates H Q) = with_net v (map (withNetAmount H) Q)) /\
  (Forall (fun q => is_nan (netProceeds H q) = false) Q ->
   descending (map netOf (processedRates H Q))) /\
  (is_finite (Token.value H) = true -> js_eq (Token.value H) js_zero = false ->
   descending (map netOf (processedRates H Q))) /\
  (Exists (fun q => is_nan (netProceeds H q) = true) Q ->
   processedRates H Q = map (withNetAmount H) Q).
Proof.
  intros Hp HQ.
  assert (Hdesc : Forall (fun q => is_nan (netProceeds H q) = false) Q ->
                  descending (map netOf (processedRates H Q))).
  { intros Hnan i j x y Hij Hi Hj.
    apply lookup_map in Hi. destruct Hi as (a & Hi & ->).
    apply lookup_map in Hj. destruct Hj as (b & Hj & ->).
    pose proof (StronglySorted_lookup _ _ (processedRates_sorted H Q Hnan) i j a b Hij Hi Hj) as Hlt.
    assert (Ha : In a (processedRates H Q))
      by (apply list_elem_of_In, list_elem_of_lookup; eauto).
    assert (Hb : In b (processedRates H Q))
      by (apply list_elem_of_In, list_elem_of_lookup; eauto).
    pose proof (netOf_numk H Q a Ha) as Hka. pose proof (netOf_numk H Q b Hb) as Hkb.
    assert (Hna : is_nan (netOf a) = false).
    { apply processedRates_In in Ha. destruct Ha as (q & Hq & ->).
      rewrite Forall_forall in Hnan. apply Hnan. apply list_elem_of_In. exact Hq. }
    assert (Hnb : is_nan (netOf b) = false).
    { apply processedRates_In in Hb. destruct Hb as (q & Hq & ->).
      rewrite Forall_forall in Hnan. apply Hnan. apply list_elem_of_In. exact Hq. }
    cbn beta in Hlt. unfold js_ge. rewrite js_lt_key in Hlt by assumption.
    rewrite js_le_key by assumption.
    apply Z.ltb_ge in Hlt. apply Z.leb_le. exact Hlt. }
  split; [apply processedRates_perm|]. split; [|split; [|split]].
  - (* stability *)
    intros v. unfold with_net, processedRates. apply array_sort_stable.
    intros x y Hx Hy Hxv Hyv.
    apply in_map_iff in Hx. destruct Hx as (q1 & <- & _).
    apply in_map_iff in Hy. destruct Hy as (q2 & <- & _).
    rewrite sorts_after_net by (rewrite netOf_withNetAmount; apply js_mul_numk).
    apply (js_eq_not_lt _ _ v); assumption.
  - exact Hdesc.
  - intros Hfin Hnz. apply Hdesc.
    rewrite Forall_forall in *. intros q Hq. destruct (HQ q Hq) as [Hd Hv].
    pose proof (net_class H q Hp Hd Hv) as Hc. cbn zeta in Hc.
    revert Hfin Hnz Hc.
    destruct (Token.value H) as [s|s| |s m e]; try discriminate.
    intros _ _ Hc. apply Hc.
  - (* a NaN among the net amounts: nothing is moved *)
    intros Hex. destruct (nets_dichotomy H Q Hp HQ) as [Hnan|Hflat].
    + exfalso. apply List.Exists_exists in Hex. destruct Hex as (q & Hq & Hn).
      rewrite List.Forall_forall in Hnan. rewrite (Hnan q Hq) in Hn. discriminate Hn.
    + apply processedRates_flat. exact Hflat.
Qed.

Lemma C2_sorted_descending_stable_witness :
  map ExchangeRate.exchange (processedRates scenario_holding scenario_quotes) = ["A"; "B"] /\
  descending (map netOf (processedRates scenario_holding scenario_quotes)) /\
  map ExchangeRate.exchange (processedRates idle_holding spread_quotes) = ["A"; "B"] /\
  processedRates idle_holding spread_quotes = map (withNetAmount idle_holding) spread_quotes.
Proof.
  assert (Hp : js_gt (Token.price scenario_holding) js_zero = true) by (vm_compute; reflexivity).
  assert (HQ : Forall (fun q => is_double (ExchangeRate.fee q) = true /\ spec_valid_quote q = true) scenario_quotes).
  { repeat constructor; vm_compute; reflexivity. }
  assert (Hp' : js_gt (Token.price idle_holding) js_zero = true) by (vm_compute; reflexivity).
  assert (HQ' : Forall (fun q => is_double (ExchangeRate.fee q) = true /\ spec_valid_quote q = true) spread_quotes).
  { repeat constructor; vm_compute; reflexivity. }
  destruct (C2_sorted_descending_stable scenario_holding scenario_quotes Hp HQ)
    as (_ & _ & _ & H4 & _).
  destruct (C2_sorted_descending_stable idle_holding spread_quotes Hp' HQ')
    as (_ & _ & _ & _ & H5).
  split; [vm_compute; reflexivity|]. split; [apply H4; vm_compute; reflexivity|].
  split; [vm_compute; reflexivity|].
  apply H5. apply List.Exists_cons_tl, List.Exists_cons_hd. vm_compute. reflexivity.
Defined.

(* ===================================================================== *)
(** * 18. The ranking on the heap: inputs are left alone *)
(* ===================================================================== *)

Lemma heapM_bind_Some {A B : Type} (m : heapM A) (k : A -> heapM B)
    (h h' : heap) (a : A) :
  m h = Some (a, h') -> (m ≫= k) h = k a h'.
Proof. intros Hm. unfold mbind, heapM_bind. rewrite Hm. reflexivity. Qed.

Lemma h_rate_Some (h : heap) (l : loc) (r : ExchangeRate.t) :
  h !! l = Some (HRate r) -> h_rate l h = Some (r, h).
Proof.
  intros Hl. unfold h_rate, h_read, mbind, heapM_bind. rewrite Hl. reflexivity.
Qed.

Lemma h_token_Some (h : heap) (l : loc) (t : Token.t) :
  h !! l = Some (HToken t) -> h_token l h = Some (t, h).
Proof.
  intros Hl. unfold h_token, h_read, mbind, heapM_bind. rewrite Hl. reflexivity.
Qed.

Lemma h_array_Some (h : heap) (l : loc) (elems : list loc) :
  h !! l = Some (HArray elems) -> h_array l h = Some (elems, h).
Proof.
  intros Hl. unfold h_array, h_read, mbind, heapM_bind. rewrite Hl. reflexivity.
Qed.

Lemma h_token_inv (h h' : heap) (l : loc) (t : Token.t) :
  h_token l h = Some (t, h') -> h' = h /\ h !! l = Some (HToken t).
Proof.
  unfold h_token, h_read, mbind, heapM_bind.
  destruct (h !! l) as [[t'|r|es]|]; try discriminate.
  intros [= -> ->]. auto.
Qed.

Lemma h_array_inv (h h' : heap) (l : loc) (elems : list loc) :
  h_array l h = Some (elems, h') -> h' = h /\ h !! l = Some (HArray elems).
Proof.
  unfold h_array, h_read, mbind, heapM_bind.
  destruct (h !! l) as [[t'|r|es]|]; try discriminate.
  intros [= -> ->]. auto.
Qed.

Lemma h_rate_inv (h h' : heap) (l : loc) (r : ExchangeRate.t) :
  h_rate l h = Some (r, h') -> h' = h /\ h !! l = Some (HRate r).
Proof.
  unfold h_rate, h_read, mbind, heapM_bind.
  destruct (h !! l) as [[t'|r'|es]|]; try discriminate.
  intros [= -> ->]. auto.
Qed.

(** Reading the records of a list of references: the heap is unchanged
    and every reference holds its record. *)
Lemma h_mapM_rate_inv (h h' : heap) (elems : list loc) (rs : list ExchangeRate.t) :
  h_mapM h_rate elems h = Some (rs, h') ->
  h' = h /\ Forall2 (fun l r => h !! l = Some (HRate r)) elems rs.
Proof.
  revert rs h'. induction elems as [|l elems IH]; intros rs h'; cbn [h_mapM].
  - intros [= <- <-]. split; [reflexivity|constructor].
  - unfold mbind at 1, heapM_bind at 1.
    destruct (h_rate l h) as [[r h1]|] eqn:Hl; [|discriminate].
    apply h_rate_inv in Hl. destruct Hl as [-> Hl].
    unfold mbind at 1, heapM_bind at 1.
    destruct (h_mapM h_rate elems h) as [[rs' h2]|] eqn:Hrest; [|discriminate].
    destruct (IH _ _ eq_refl) as [-> HF].
    intros [= <- <-]. split; [reflexivity|constructor; assumption].
Qed.

Lemma h_mapM_rate_Some (h : heap) (elems : list loc) (rs : list ExchangeRate.t) :
  Forall2 (fun l r => h !! l = Some (HRate r)) elems rs ->
  h_mapM h_rate elems h = Some (rs, h).
Proof.
  induction 1 as [|l r elems rs Hl HF IH]; [reflexivity|].
  cbn [h_mapM]. rewrite (heapM_bind_Some _ _ h h r (h_rate_Some h l r Hl)).
  rewrite (heapM_bind_Some _ _ h h rs IH). reflexivity.
Qed.

Lemma read_rates_spec (h : heap) (a : loc) (rs : list ExchangeRate.t) :
  read_rates h a = Some rs <->
  exists elems, h !! a = Some (HArray elems) /\
                Forall2 (fun l r => h !! l = Some (HRate r)) elems rs.
Proof.
  unfold read_rates, h_rates. split.
  - unfold mbind, heapM_bind.
    destruct (h_array a h) as [[elems h1]|] eqn:Ha; [|discriminate].
    apply h_array_inv in Ha. destruct Ha as [-> Ha].
    destruct (h_mapM h_rate elems h) as [[rs' h2]|] eqn:Hm; [|discriminate].
    apply h_mapM_rate_inv in Hm. destruct Hm as [-> HF].
    intros [= <-]. eauto.
  - intros (elems & Ha & HF).
    rewrite (heapM_bind_Some _ _ h h elems (h_array_Some h a elems Ha)).
    rewrite (h_mapM_rate_Some h elems rs HF). reflexivity.
Qed.

Lemma read_token_spec (h : heap) (l : loc) (t : Token.t) :
  read_token h l = Some t <-> h !! l = Some (HToken t).
Proof.
  unfold read_token. split.
  - destruct (h_token l h) as [[t' h']|] eqn:Ht; [|discriminate].
    apply h_token_inv in Ht. destruct Ht as [-> Ht]. intros [= <-]. exact Ht.
  - intros Hl. rewrite (h_token_Some h l t Hl). reflexivity.
Qed.

Lemma h_alloc_spec (h : heap) (o : hobj) :
  exists l, h_alloc o h = Some (l, <[l := o]> h) /\ h !! l = None.
Proof.
  exists (fresh (dom h)). split; [reflexivity|].
  apply not_elem_of_dom. apply is_fresh.
Qed.

(** The callback of [map] run over the references of the input array:
    the heap only grows, by one fresh record per element. *)
Lemma h_mapM_withNetAmount (tok : Token.t) (token : loc) (elems : list loc)
    (rs : list ExchangeRate.t) (h0 h : heap) :
  h0 ⊆ h ->
  h0 !! token = Some (HToken tok) ->
  Forall2 (fun l r => h0 !! l = Some (HRate r)) elems rs ->
  exists out h',
    h_mapM (withNetAmount_h token) elems h = Some (out, h') /\
    h ⊆ h' /\
    Forall2 (fun l r => h' !! l = Some (HRate r)) out (map (withNetAmount tok) rs) /\
    Forall (fun l => h0 !! l = None) out.
Proof.
  intros Hsub Htok HF. revert h Hsub.
  induction HF as [|l r elems rs Hl HF IH]; intros h Hsub.
  - exists [], h. split; [reflexivity|]. split; [reflexivity|]. split; constructor.
  - cbn [h_mapM]. unfold withNetAmount_h at 1.
    pose proof (lookup_weaken _ _ _ _ Htok Hsub) as Htok'.
    pose proof (lookup_weaken _ _ _ _ Hl Hsub) as Hl'.
    destruct (h_alloc_spec h (HRate (withNetAmount tok r))) as (n & Hn & Hfresh).
    assert (Hstep : (t ← h_token token; x ← h_rate l; h_alloc (HRate (withNetAmount t x))) h
                    = Some (n, <[n := HRate (withNetAmount tok r)]> h)).
    { rewrite (heapM_bind_Some _ _ h h tok (h_token_Some h token tok Htok')).
      rewrite (heapM_bind_Some _ _ h h r (h_rate_Some h l r Hl')). exact Hn. }
    rewrite (heapM_bind_Some _ _ _ _ _ Hstep).
    assert (Hsub1 : h ⊆ <[n := HRate (withNetAmount tok r)]> h)
      by (apply insert_subseteq; exact Hfresh).
    destruct (IH (<[n := HRate (withNetAmount tok r)]> h)) as (out & h' & Hm & Hsub' & Hout & Hnew).
    { etrans; eassumption. }
    rewrite (heapM_bind_Some _ _ _ _ _ Hm).
    exists (n :: out), h'. split; [reflexivity|]. split; [etrans; eassumption|].
    split; [|constructor].
    + cbn [map]. constructor; [|exact Hout].
      apply (lookup_weaken _ _ _ _ (lookup_insert_eq h n _) Hsub').
    + destruct (h0 !! n) as [o|] eqn:Hn0; [|reflexivity].
      rewrite (lookup_weaken _ _ _ _ Hn0 Hsub) in Hfresh. discriminate.
    + exact Hnew.
Qed.

(** Reading back the records of the references of a list of pairs. *)
Lemma Forall2_pairs (h : heap) (ps : list (loc * ExchangeRate.t)) :
  Forall (fun p => h !! fst p = Some (HRate (snd p))) ps ->
  Forall2 (fun l r => h !! l = Some (HRate r)) (map fst ps) (map snd ps).
Proof.
  induction 1; cbn [map]; constructor; assumption.
Qed.

Lemma h_mapM_pairs (h : heap) (elems : list loc) (rs : list ExchangeRate.t) :
  Forall2 (fun l r => h !! l = Some (HRate r)) elems rs ->
  exists ps, h_mapM (fun l => r ← h_rate l; mret (l, r)) elems h = Some (ps, h) /\
             map fst ps = elems /\ map snd ps = rs /\
             Forall (fun p => h !! fst p = Some (HRate (snd p))) ps.
Proof.
  induction 1 as [|l r elems rs Hl HF IH].
  - exists []. repeat split; constructor.
  - destruct IH as (ps & Hm & Hf & Hs & HP).
    exists ((l, r) :: ps). cbn [h_mapM].
    assert (Hstep : (r0 ← h_rate l; mret (l, r0)) h = Some ((l, r), h)).
    { rewrite (heapM_bind_Some _ _ h h r (h_rate_Some h l r Hl)). reflexivity. }
    rewrite (heapM_bind_Some _ _ _ _ _ Hstep).
    rewrite (heapM_bind_Some _ _ _ _ _ Hm).
    split; [reflexivity|]. cbn [map fst snd]. rewrite Hf, Hs.
    split; [reflexivity|]. split; [reflexivity|]. constructor; assumption.
Qed.

(** [sort] on an array of records: the cell of the array is overwritten,
    nothing else. *)
Lemma array_sort_h_spec (comparefn : ExchangeRate.t -> ExchangeRate.t -> number)
    (h : heap) (a : loc) (elems : list loc) (rs : list ExchangeRate.t) :
  h !! a = Some (HArray elems) ->
  Forall2 (fun l r => h !! l = Some (HRate r)) elems rs ->
  exists sorted,
    array_sort_h comparefn a h = Some (a, <[a := HArray sorted]> h) /\
    Forall2 (fun l r => <[a := HArray sorted]> h !! l = Some (HRate r))
            sorted (array_sort comparefn rs).
Proof.
  intros Ha HF.
  destruct (h_mapM_pairs h elems rs HF) as (ps & Hm & Hf & Hs & HP).
  set (sps := array_sort (fun p q : loc * ExchangeRate.t => comparefn (snd p) (snd q)) ps).
  exists (map fst sps). split.
  - unfold array_sort_h.
    rewrite (heapM_bind_Some _ _ h h elems (h_array_Some h a elems Ha)).
    rewrite (heapM_bind_Some _ _ _ _ _ Hm). reflexivity.
  - rewrite <- Hs, <- (array_sort_map snd comparefn ps). fold sps.
    apply Forall2_pairs.
    assert (HP' : Forall (fun p => h !! fst p = Some (HRate (snd p))) sps).
    { unfold sps. rewrite array_sort_perm. exact HP. }
    rewrite Forall_forall in *. intros p Hp.
    rewrite lookup_insert_ne; [apply HP'; exact Hp|].
    intros E. rewrite E, (HP' p Hp) in Ha. discriminate.
Qed.

Lemma Forall2_weaken_heap (h h' : heap) (elems : list loc) (rs : list ExchangeRate.t) :
  h ⊆ h' ->
  Forall2 (fun l r => h !! l = Some (HRate r)) elems rs ->
  Forall2 (fun l r => h' !! l = Some (HRate r)) elems rs.
Proof.
  intros Hsub HF. induction HF; constructor; [|assumption].
  eapply lookup_weaken; eassumption.
Qed.

(** One run of the ranking on the heap. *)
Lemma processedRates_h_spec (h : heap) (token data : loc) (tok : Token.t)
    (rs : list ExchangeRate.t) :
  read_token h token = Some tok -> read_rates h data = Some rs ->
  exists a h',
    processedRates_h token data h = Some (a, h') /\
    read_rates h' a = Some (processedRates tok rs) /\
    h ⊆ h' /\ h !! a = None.
Proof.
  intros Htok Hdata.
  apply read_token_spec in Htok.
  apply read_rates_spec in Hdata. destruct Hdata as (elems & Hd & HF).
  destruct (h_mapM_withNetAmount tok token elems rs h h ltac:(reflexivity) Htok HF)
    as (out & h1 & Hm & Hsub1 & Hout & Hnew).
  destruct (h_alloc_spec h1 (HArray out)) as (a & Ha & Hfresh).
  set (h2 := <[a := HArray out]> h1) in *.
  assert (Hsub2 : h1 ⊆ h2) by (apply insert_subseteq; exact Hfresh).
  assert (Ha2 : h2 !! a = Some (HArray out)) by apply lookup_insert_eq.
  pose proof (Forall2_weaken_heap h1 h2 _ _ Hsub2 Hout) as Hout2.
  destruct (array_sort_h_spec byNetAmountDesc h2 a out _ Ha2 Hout2) as (sorted & Hs & Hsorted).
  exists a, (<[a := HArray sorted]> h2).
  assert (Hha : h !! a = None).
  { destruct (h !! a) as [o|] eqn:E; [|reflexivity].
    rewrite (lookup_weaken _ _ _ _ E Hsub1) in Hfresh. discriminate. }
  split; [|split; [|split]].
  - unfold processedRates_h, array_map_h.
    assert (Hmap : (elems0 ← h_array data; out0 ← h_mapM (withNetAmount_h token) elems0;
                    h_alloc (HArray out0)) h = Some (a, h2)).
    { rewrite (heapM_bind_Some _ _ h h elems (h_array_Some h data elems Hd)).
      rewrite (heapM_bind_Some _ _ _ _ _ Hm). exact Ha. }
    rewrite (heapM_bind_Some _ _ _ _ _ Hmap). exact Hs.
  - apply read_rates_spec. exists sorted. split; [apply lookup_insert_eq|exact Hsorted].
  - apply map_subseteq_spec. intros l o Hl.
    rewrite lookup_insert_ne by (intros <-; rewrite Hha in Hl; discriminate).
    apply (lookup_weaken _ _ _ _ Hl). etrans; eassumption.
  - exact Hha.
Qed.

(** C8. The ranking is a function of the contents of its inputs and
    modifies none of them: it returns a fresh array whose records are the
    pure ranking of the holding and the quotes read from the heap; every
    cell that existed before (the holding, the input array, its records)
    still holds what it held; and a second call with the same arguments
    returns an array with the same contents. *)
Theorem C8_rank_is_pure (h : heap) (token data : loc) (tok : Token.t)
    (rs : list ExchangeRate.t) :
  read_token h token = Some tok -> read_rates h data = Some rs ->
  exists a h',
    processedRates_h token data h = Some (a, h') /\
    read_rates h' a = Some (processedRates tok rs) /\
    h !! a = None /\
    (forall l o, h !! l = Some o -> h' !! l = Some o) /\
    read_token h' token = Some tok /\ read_rates h' data = Some rs /\
    exists a2 h2,
      processedRates_h token data h' = Some (a2, h2) /\
      read_rates h2 a2 = Some (processedRates tok rs) /\
      read_rates h2 a = Some (processedRates tok rs).
Proof.
  intros Htok Hdata.
  destruct (processedRates_h_spec h token data tok rs Htok Hdata) as (a & h' & Hrun & Hres & Hsub & Hfresh).
  assert (Htok' : read_token h' token = Some tok).
  { apply read_token_spec. apply read_token_spec in Htok.
    eapply lookup_weaken; eassumption. }
  assert (Hdata' : read_rates h' data = Some rs).
  { apply read_rates_spec. apply read_rates_spec in Hdata.
    destruct Hdata as (elems & Hd & HF). exists elems.
    split; [eapply lookup_weaken; eassumption|].
    eapply Forall2_weaken_heap; eassumption. }
  destruct (processedRates_h_spec h' token data tok rs Htok' Hdata')
    as (a2 & h2 & Hrun2 & Hres2 & Hsub2 & Hfresh2).
  exists a, h'. split; [exact Hrun|]. split; [exact Hres|]. split; [exact Hfresh|].
  split; [intros l o Hl; eapply lookup_weaken; eassumption|].
  split; [exact Htok'|]. split; [exact Hdata'|].
  exists a2, h2. split; [exact Hrun2|]. split; [exact Hres2|].
  apply read_rates_spec. apply read_rates_spec in Hres.
  destruct Hres as (elems & Hd & HF). exists elems.
  split; [eapply lookup_weaken; eassumption|].
  eapply Forall2_weaken_heap; eassumption.
Qed.

Lemma C8_rank_is_pure_witness :
  exists a h',
    processedRates_h 1%positive 4%positive scenario_heap = Some (a, h') /\
    read_rates h' a = Some (processedRates scenario_holding scenario_quotes) /\
    read_rates h' 4%positive = Some scenario_quotes.
Proof.
  assert (Htok : read_token scenario_heap 1%positive = Some scenario_holding)
    by (vm_compute; reflexivity).
  assert (Hdata : read_rates scenario_heap 4%positive = Some scenario_quotes)
    by (vm_compute; reflexivity).
  destruct (C8_rank_is_pure scenario_heap 1%positive 4%positive _ _ Htok Hdata)
    as (a & h' & H1 & H2 & _ & _ & _ & H6 & _).
  exists a, h'. split; [exact H1|]. split; [exact H2|exact H6].
Defined.

(* ===================================================================== *)
(** * 19. The mock rate endpoint: fees, prices and the factor *)
(* ===================================================================== *)

Lemma okf_fexpo_le (x : number) : okf x = true -> fexpo x <= 971.
Proof.
  intros Hok. destruct (okf_exp x Hok) as [->|H]; [cbn; lia|lia].
Qed.

(** Multiplication by a non-negative constant keeps a number between the
    products of its bounds. *)
Lemma mul_between (x lo hi c : number) (a b : Z) :
  okf x = true -> okf lo = true -> okf hi = true -> okf c = true ->
  a <= f64_emin -> b <= f64_emin ->
  0 <= sval b c -> fexpo c <= 0 ->
  sval a lo <= sval a x <= sval a hi ->
  okf (js_mul lo c) = true -> okf (js_mul hi c) = true ->
  okf (js_mul x c) = true /\
  sval (a + b) (js_mul lo c) <= sval (a + b) (js_mul x c) <= sval (a + b) (js_mul hi c).
Proof.
  intros Hx Hlo Hhi Hc Ha Hb Hc0 Hce Hbnd Hoklo Hokhi.
  assert (Hab : a + b <= f64_emin) by (unfold f64_emin in *; lia).
  pose proof (okf_fexpo_le x Hx) as Hxe.
  apply (rounds_to_between (971 < fexpo x + fexpo c) (a + b)
           (sval a x * sval b c) (sval a lo * sval b c) (sval a hi * sval b c)).
  - exact Hab.
  - lia.
  - apply js_mul_spec; assumption.
  - exact Hoklo.
  - apply (rounds_to_okf _ _ _ _ (js_mul_spec lo c a b Hlo Hc Ha Hb) Hoklo).
  - exact Hokhi.
  - apply (rounds_to_okf _ _ _ _ (js_mul_spec hi c a b Hhi Hc Ha Hb) Hokhi).
  - split; apply Z.mul_le_mono_nonneg_r; lia.
Qed.

Lemma mul_between_l (c x lo hi : number) (a b : Z) :
  okf x = true -> okf lo = true -> okf hi = true -> okf c = true ->
  a <= f64_emin -> b <= f64_emin ->
  0 <= sval b c -> fexpo c <= 0 ->
  sval a lo <= sval a x <= sval a hi ->
  okf (js_mul c lo) = true -> okf (js_mul c hi) = true ->
  okf (js_mul c x) = true /\
  sval (b + a) (js_mul c lo) <= sval (b + a) (js_mul c x) <= sval (b + a) (js_mul c hi).
Proof.
  intros Hx Hlo Hhi Hc Ha Hb Hc0 Hce Hbnd Hoklo Hokhi.
  assert (Hab : b + a <= f64_emin) by (unfold f64_emin in *; lia).
  pose proof (okf_fexpo_le x Hx) as Hxe.
  apply (rounds_to_between (971 < fexpo c + fexpo x) (b + a)
           (sval b c * sval a x) (sval b c * sval a lo) (sval b c * sval a hi)).
  - exact Hab.
  - lia.
  - apply js_mul_spec; assumption.
  - exact Hoklo.
  - apply (rounds_to_okf _ _ _ _ (js_mul_spec c lo b a Hc Hlo Hb Ha) Hoklo).
  - exact Hokhi.
  - apply (rounds_to_okf _ _ _ _ (js_mul_spec c hi b a Hc Hhi Hb Ha) Hokhi).
  - split; apply Z.mul_le_mono_nonneg_l; lia.
Qed.

Lemma sub_between (x lo hi c : number) (a : Z) :
  okf x = true -> okf lo = true -> okf hi = true -> okf c = true ->
  a <= f64_emin ->
  sval a lo <= sval a x <= sval a hi ->
  okf (js_sub lo c) = true -> okf (js_sub hi c) = true ->
  okf (js_sub x c) = true /\
  sval a (js_sub lo c) <= sval a (js_sub x c) <= sval a (js_sub hi c).
Proof.
  intros Hx Hlo Hhi Hc Ha Hbnd Hoklo Hokhi.
  apply (rounds_to_between False a
           (sval a x - sval a c) (sval a lo - sval a c) (sval a hi - sval a c)).
  - exact Ha.
  - tauto.
  - apply js_sub_spec; assumption.
  - exact Hoklo.
  - apply (rounds_to_okf _ _ _ _ (js_sub_spec lo c a Hlo Hc Ha) Hoklo).
  - exact Hokhi.
  - apply (rounds_to_okf _ _ _ _ (js_sub_spec hi c a Hhi Hc Ha) Hokhi).
  - lia.
Qed.

Lemma add_between_r (c x lo hi : number) (a : Z) :
  okf x = true -> okf lo = true -> okf hi = true -> okf c = true ->
  a <= f64_emin ->
  sval a lo <= sval a x <= sval a hi ->
  okf (js_add c lo) = true -> okf (js_add c hi) = true ->
  okf (js_add c x) = true /\
  sval a (js_add c lo) <= sval a (js_add c x) <= sval a (js_add c hi).
Proof.
  intros Hx Hlo Hhi Hc Ha Hbnd Hoklo Hokhi.
  apply (rounds_to_between False a
           (sval a c + sval a x) (sval a c + sval a lo) (sval a c + sval a hi)).
  - exact Ha.
  - tauto.
  - apply js_add_spec; assumption.
  - exact Hoklo.
  - apply (rounds_to_okf _ _ _ _ (js_add_spec c lo a Hc Hlo Ha) Hoklo).
  - exact Hokhi.
  - apply (rounds_to_okf _ _ _ _ (js_add_spec c hi a Hc Hhi Ha) Hokhi).
  - lia.
Qed.

(** A double below 1 is at most [1 - 2^-53]. *)
Lemma draw_le_max (u : number) :
  okf u = true -> sval f64_emin u < sval f64_emin js_one ->
  sval f64_emin u <= sval f64_emin max_draw.
Proof.
  intros Hok Hlt.
  assert (Hone : sval f64_emin js_one = 4503599627370496 * (2 * 2 ^ 1021)) by reflexivity.
  assert (Hmax : sval f64_emin max_draw = 9007199254740991 * 2 ^ 1021) by reflexivity.
  rewrite Hone in Hlt. rewrite Hmax.
  pose proof (pow2_pos 1021 ltac:(lia)) as Hp.
  destruct u as [s|s| |s m e]; [|discriminate Hok|discriminate Hok|].
  { cbn [sval]. apply Z.mul_nonneg_nonneg; lia. }
  { apply (proj1 (okf_finite _ _ _)) in Hok. destruct Hok as (He & _ & Hd).
    unfold f64_emin in *. cbn [sval] in *.
    pose proof (pow2_pos (e - -1074) ltac:(lia)) as Hpe.
    destruct s; cbn [cond_Zopp] in *; [nia|].
    pose proof (digitsZ_bounds (Zpos m) ltac:(lia)) as [_ Hhi].
    assert (Hm : Zpos m < 9007199254740992).
    { assert (2 ^ digitsZ (Zpos m) <= 2 ^ 53).
      { apply pow2_le. pose proof (digitsZ_pos (Zpos m) ltac:(lia)). lia. }
      change (2 ^ 53) with 9007199254740992 in *. lia. }
    destruct (Z_le_gt_dec e (-53)) as [Hle|Hgt].
    + assert (2 ^ (e - -1074) <= 2 ^ 1021) by (apply pow2_le; lia).
      remember (2 ^ 1021) as P eqn:HeqP. remember (2 ^ (e - -1074)) as J eqn:HeqJ.
      clear HeqP HeqJ Hone Hmax. nia.
    + (* the value is a multiple of [2 ^ 1022] below [2 ^ 52 * 2 ^ 1022] *)
      assert (Hsplit : 2 ^ (e - -1074) = 2 ^ (e + 52) * (2 * 2 ^ 1021)).
      { change (2 * 2 ^ 1021) with (2 ^ 1022).
        rewrite <- pow2_split by lia. f_equal. lia. }
      rewrite Hsplit in *.
      pose proof (pow2_pos (e + 52) ltac:(lia)) as Hpj.
      remember (2 ^ 1021) as P eqn:HeqP. remember (2 ^ (e + 52)) as J eqn:HeqJ.
      clear HeqP HeqJ Hsplit Hone Hmax.
      assert (HmJ : Zpos m * J < 4503599627370496).
      { apply (Z.mul_lt_mono_pos_r (2 * P)); lia. }
      assert (Zpos m * J * (2 * P) <= 4503599627370495 * (2 * P))
        by (apply Z.mul_le_mono_nonneg_r; lia).
      lia. }
Qed.

Lemma random_draw_okf (u : number) :
  is_random_draw u = true ->
  okf u = true /\ sval f64_emin js_zero <= sval f64_emin u <= sval f64_emin max_draw.
Proof.
  unfold is_random_draw. rewrite !andb_true_iff. intros [[Hd H0] H1].
  assert (Hfin : is_finite u = true).
  { destruct u as [s|s| |s m e]; try reflexivity; try discriminate.
    destruct s; discriminate. }
  pose proof (is_double_okf u Hd Hfin) as Hok.
  apply (js_le_sval js_zero u f64_emin eq_refl Hok ltac:(lia)) in H0.
  apply (js_lt_sval u js_one f64_emin Hok eq_refl ltac:(lia)) in H1.
  split; [exact Hok|]. split; [exact H0|]. apply draw_le_max; assumption.
Qed.

(** The factor is between its values at the least and at the greatest
    draw, which are the doubles [0.995] and [1.005]. *)
Lemma priceFactor_bounds (u : number) :
  is_random_draw u = true ->
  okf (priceFactor u) = true /\
  sval (f64_emin + f64_emin) (dec 995 1000) <= sval (f64_emin + f64_emin) (priceFactor u)
    <= sval (f64_emin + f64_emin) (dec 1005 1000).
Proof.
  intros Hu. destruct (random_draw_okf u Hu) as [Hok Hb].
  assert (Ha : f64_emin <= f64_emin) by lia.
  assert (Hab : f64_emin + f64_emin <= f64_emin) by (unfold f64_emin; lia).
  destruct (mul_between u js_zero max_draw (dec 1 100) f64_emin f64_emin
              Hok eq_refl eq_refl eq_refl Ha Ha ltac:(vm_compute; discriminate)
              ltac:(vm_compute; discriminate) Hb eq_refl eq_refl) as [Hok1 Hb1].
  destruct (sub_between (js_mul u (dec 1 100)) (js_mul js_zero (dec 1 100))
              (js_mul max_draw (dec 1 100)) (dec 5 1000) (f64_emin + f64_emin)
              Hok1 eq_refl eq_refl eq_refl Hab Hb1 eq_refl eq_refl) as [Hok2 Hb2].
  destruct (add_between_r js_one (js_sub (js_mul u (dec 1 100)) (dec 5 1000))
              (js_sub (js_mul js_zero (dec 1 100)) (dec 5 1000))
              (js_sub (js_mul max_draw (dec 1 100)) (dec 5 1000)) (f64_emin + f64_emin)
              Hok2 eq_refl eq_refl eq_refl Hab Hb2 eq_refl eq_refl) as [Hok3 Hb3].
  split; [exact Hok3|].
  change (js_add js_one (js_sub (js_mul js_zero (dec 1 100)) (dec 5 1000)))
    with (priceFactor js_zero) in Hb3.
  change (js_add js_one (js_sub (js_mul max_draw (dec 1 100)) (dec 5 1000)))
    with (priceFactor max_draw) in Hb3.
  assert (E0 : priceFactor js_zero = dec 995 1000) by (vm_compute; reflexivity).
  assert (E1 : priceFactor max_draw = dec 1005 1000) by (vm_compute; reflexivity).
  rewrite E0, E1 in Hb3. exact Hb3.
Qed.

Lemma basePrice_cases (symbol : query_value) :
  basePrice symbol = ofZ 2800 \/ basePrice symbol = ofZ 65000 \/ basePrice symbol = ofZ 100.
Proof.
  destruct symbol as [|s|l]; cbn [basePrice]; auto.
  destruct (String.eqb s "ETH"); auto. destruct (String.eqb s "BTC"); auto.
Qed.

(** Every price the endpoint produces is finite and positive. *)
Lemma endpoint_price_positive (symbol : query_value) (u : number) :
  is_random_draw u = true ->
  is_finite (js_mul (basePrice symbol) (priceFactor u)) = true /\
  js_gt (js_mul (basePrice symbol) (priceFactor u)) js_zero = true.
Proof.
  intros Hu. destruct (priceFactor_bounds u Hu) as [Hokf Hbf].
  assert (Ha : f64_emin <= f64_emin) by lia.
  assert (Hab : f64_emin + f64_emin <= f64_emin) by (unfold f64_emin; lia).
  assert (Hgen : forall base, okf base = true -> 0 <= sval f64_emin base -> fexpo base <= 0 ->
            okf (js_mul base (dec 995 1000)) = true ->
            okf (js_mul base (dec 1005 1000)) = true ->
            0 < sval (f64_emin + (f64_emin + f64_emin)) (js_mul base (dec 995 1000)) ->
            is_finite (js_mul base (priceFactor u)) = true /\
            js_gt (js_mul base (priceFactor u)) js_zero = true).
  { intros base Hb Hb0 Hbe Hlo Hhi Hpos.
    destruct (mul_between_l base (priceFactor u) (dec 995 1000) (dec 1005 1000)
                (f64_emin + f64_emin) f64_emin Hokf eq_refl eq_refl Hb Hab Ha Hb0 Hbe Hbf Hlo Hhi)
      as [Hokp Hbp].
    split.
    - destruct (js_mul base (priceFactor u)); try discriminate; reflexivity.
    - unfold js_gt.
      apply (js_lt_sval js_zero _ (f64_emin + (f64_emin + f64_emin)) eq_refl Hokp).
      + unfold f64_emin; lia.
      + change (sval (f64_emin + (f64_emin + f64_emin)) js_zero) with 0. lia. }
  destruct (basePrice_cases symbol) as [-> | [-> | ->]];
    apply Hgen; first [reflexivity | vm_compute; discriminate | vm_compute; reflexivity].
Qed.

(** C9, as stated, fails: at the draw 0, which [Math.random()] may return,
    the factor is the double [0.995] itself, so it is not inside the open
    interval from 0.995 to 1.005. *)
Lemma C9_factor_reaches_bound :
  ~ (is_random_draw js_zero = true ->
     js_lt (dec 995 1000) (priceFactor js_zero) = true /\
     js_lt (priceFactor js_zero) (dec 1005 1000) = true).
Proof.
  intros Hspec. destruct (Hspec eq_refl) as [H _].
  vm_compute in H. discriminate.
Qed.

(** C9, amended. Whatever the symbol, the answer is the four quotes of
    Coinbase, Binance, Kraken and Uniswap (DEX) with the fees 0.015, 0.001,
    0.0026 and 0.003; each price is the base price times a factor of the
    closed interval from 0.995 to 1.005, finite and strictly positive; so
    every quote is in the valid quote domain. *)
Theorem C9_endpoint_quotes_valid (symbol : query_value) (draws : nat -> number) :
  (forall i, (i < 4)%nat -> is_random_draw (draws i) = true) ->
  map ExchangeRate.exchange (ratesEndpoint symbol draws)
    = ["Coinbase"; "Binance"; "Kraken"; "Uniswap (DEX)"] /\
  map ExchangeRate.fee (ratesEndpoint symbol draws)
    = [dec 15 1000; dec 1 1000; dec 26 10000; dec 3 1000] /\
  map ExchangeRate.price (ratesEndpoint symbol draws)
    = map (fun i => js_mul (basePrice symbol) (priceFactor (draws i))) [0; 1; 2; 3]%nat /\
  (forall i, (i < 4)%nat ->
     js_le (dec 995 1000) (priceFactor (draws i)) = true /\
     js_le (priceFactor (draws i)) (dec 1005 1000) = true) /\
  Forall (fun q => is_double (ExchangeRate.fee q) = true /\ spec_valid_quote q = true)
         (ratesEndpoint symbol draws).
Proof.
  intros Hdraws.
  split; [reflexivity|]. split; [reflexivity|]. split; [reflexivity|]. split.
  - intros i Hi. destruct (priceFactor_bounds (draws i) (Hdraws i Hi)) as [Hok [Hlo Hhi]].
    assert (Hab : f64_emin + f64_emin <= f64_emin) by (unfold f64_emin; lia).
    split.
    + apply (js_le_sval (dec 995 1000) _ (f64_emin + f64_emin) eq_refl Hok Hab). exact Hlo.
    + apply (js_le_sval _ (dec 1005 1000) (f64_emin + f64_emin) Hok eq_refl Hab). exact Hhi.
  - assert (Hq : forall name i fee, (i < 4)%nat ->
              is_double fee = true ->
              is_finite fee && js_le js_zero fee && js_lt fee js_one = true ->
              is_double (ExchangeRate.fee (ExchangeRate.mk name
                 (js_mul (basePrice symbol) (priceFactor (draws i))) fee None)) = true /\
              spec_valid_quote (ExchangeRate.mk name
                 (js_mul (basePrice symbol) (priceFactor (draws i))) fee None) = true).
    { intros name i fee Hi Hdf Hfee. split; [exact Hdf|]. unfold spec_valid_quote.
      cbn [ExchangeRate.price ExchangeRate.fee].
      destruct (endpoint_price_positive symbol (draws i) (Hdraws i Hi)) as [-> ->].
      rewrite !andb_true_iff in Hfee. destruct Hfee as [[-> ->] ->]. reflexivity. }
    unfold ratesEndpoint.
    constructor; [|constructor; [|constructor; [|constructor; [|constructor]]]];
      apply Hq; first [lia | reflexivity].
Qed.

Lemma C9_endpoint_quotes_valid_witness :
  Forall (fun q => is_double (ExchangeRate.fee q) = true /\ spec_valid_quote q = true)
         (ratesEndpoint (QString "ETH") (fun _ => dec 1 2)).
Proof.
  apply C9_endpoint_quotes_valid.
  intros i _. vm_compute. reflexivity.
Defined.

(* ===================================================================== *)
(** * 20. Rounding a quotient: inexact locations, and the closure of the doubles *)
(* ===================================================================== *)

Lemma odd_double (k : Z) : Z.odd (2 * k) = false.
Proof. rewrite Z.odd_mul. reflexivity. Qed.

Lemma odd_double_succ (k : Z) : Z.odd (2 * k + 1) = true.
Proof. rewrite Z.odd_add, Z.odd_mul. reflexivity. Qed.

Lemma shr_1_twice (q : Z) (l : location) :
  0 <= q ->
  shr_1 (shr_1 (Build_shr_record (4 * q + loc_bits l) false false)) = shr_record_of_loc q l.
Proof.
  intros Hq.
  assert (H0 : 0 <= 4 * q + loc_bits l) by (destruct l as [|[| |]]; cbn; lia).
  rewrite (shr_1_nonneg (Build_shr_record _ _ _)) by exact H0.
  cbn [shr_m shr_r shr_s orb].
  rewrite shr_1_nonneg by (cbn [shr_m]; apply Z.div_pos; lia).
  cbn [shr_m shr_r shr_s orb].
  rewrite Z.div_div by lia. change (2 * 2) with 4.
  destruct l as [|[| |]]; cbn [loc_bits shr_record_of_loc].
  - replace ((4 * q + 0) / 4) with q by (apply (Z.div_unique _ _ _ 0); lia).
    replace ((4 * q + 0) / 2) with (2 * q) by (apply (Z.div_unique _ _ _ 0); lia).
    replace (4 * q + 0) with (2 * (2 * q)) by lia.
    rewrite !odd_double. reflexivity.
  - replace ((4 * q + 2) / 4) with q by (apply (Z.div_unique _ _ _ 2); lia).
    replace ((4 * q + 2) / 2) with (2 * q + 1) by (apply (Z.div_unique _ _ _ 0); lia).
    replace (4 * q + 2) with (2 * (2 * q + 1)) by lia.
    rewrite odd_double, odd_double_succ. reflexivity.
  - replace ((4 * q + 1) / 4) with q by (apply (Z.div_unique _ _ _ 1); lia).
    replace ((4 * q + 1) / 2) with (2 * q) by (apply (Z.div_unique _ _ _ 1); lia).
    replace (4 * q + 1) with (2 * (2 * q) + 1) by lia.
    rewrite odd_double, odd_double_succ. reflexivity.
  - replace ((4 * q + 3) / 4) with q by (apply (Z.div_unique _ _ _ 3); lia).
    replace ((4 * q + 3) / 2) with (2 * q + 1) by (apply (Z.div_unique _ _ _ 1); lia).
    replace (4 * q + 3) with (2 * (2 * q + 1) + 1) by lia.
    rewrite !odd_double_succ. reflexivity.
Qed.

(** Rounding a quotient with the position of its remainder is rounding
    the quotient extended by the two bits of that position. *)
Lemma bra_sticky (s : bool) (q e : Z) (l : location) :
  0 <= q ->
  e <= f64_fexp (Zdigits2 q + e) ->
  f64_fexp (Zdigits2 (4 * q + loc_bits l) + (e - 2)) = f64_fexp (Zdigits2 q + e) ->
  binary_round_aux f64_prec f64_emax s q e l =
  binary_round_aux f64_prec f64_emax s (4 * q + loc_bits l) (e - 2) loc_Exact.
Proof.
  intros Hq Hn Hd. unfold binary_round_aux.
  assert (Hs : shr_fexp f64_prec f64_emax q e l =
               shr_fexp f64_prec f64_emax (4 * q + loc_bits l) (e - 2) loc_Exact).
  { unfold shr_fexp. change (fexp f64_prec f64_emax) with f64_fexp. rewrite Hd.
    set (E := f64_fexp (Zdigits2 q + e)) in *.
    replace (E - (e - 2)) with (E - e + 2) by lia.
    unfold shr. cbn [shr_record_of_loc].
    destruct (E - e) as [|p|p] eqn:Hp; [| |lia].
    - change (0 + 2) with 2. cbn [SpecFloat.iter_pos]. rewrite shr_1_twice by exact Hq.
      f_equal. lia.
    - change (Z.pos p + 2) with (Z.pos (p + 2)).
      rewrite !iter_pos_nat. rewrite Pos2Nat.inj_add.
      rewrite Nat.iter_add. change (Pos.to_nat 2) with 2%nat.
      cbn [Nat.iter nat_rect]. rewrite shr_1_twice by exact Hq.
      f_equal. lia. }
  rewrite Hs. reflexivity.
Qed.

Lemma is_double_finite (s : bool) (m : positive) (e : Z) :
  is_double (S754_finite s m e) = true <->
  f64_fexp (digitsZ (Zpos m) + e) = e /\ e <= 971.
Proof.
  unfold is_double, valid_binary, bounded, canonical_mantissa.
  rewrite andb_true_iff, Z.eqb_eq, Z.leb_le, fexp_f64, digits2_pos_log2.
  unfold f64_emax, f64_prec. change (1024 - 53) with 971. tauto.
Qed.

(** What [binary_round_aux] returns is a binary64 datum whenever the
    mantissa it is given is not shorter than the format asks for. *)
Lemma bra_exact_double (s : bool) (m : positive) (e : Z) :
  e <= f64_fexp (digitsZ (Zpos m) + e) ->
  is_double (binary_round_aux f64_prec f64_emax s (Zpos m) e loc_Exact) = true.
Proof.
  intros Hn.
  set (M := Zpos m) in *. assert (HM : 0 < M) by (unfold M; lia).
  unfold binary_round_aux.
  destruct (stage1 M e HM) as (mrs1 & e1 & Hs1 & Hcase1). rewrite Hs1.
  cbn zeta in Hcase1.
  set (N := round_nearest_even (shr_m mrs1) (loc_of_shr_record mrs1)) in *.
  set (d := digitsZ M) in *.
  set (E := f64_fexp (d + e)) in *.
  pose proof (f64_fexp_ge_emin (d + e)) as HEmin. fold E in HEmin.
  pose proof (digitsZ_bounds M HM) as [HMlo HMhi]. fold d in HMlo, HMhi.
  pose proof (digitsZ_pos M HM) as Hd. fold d in Hd.
  assert (HEd : d + e - 53 <= E) by (unfold E, f64_fexp, f64_prec; lia).
  assert (HEmin' : -1074 <= E) by exact HEmin.
  destruct Hcase1 as [(HEe & -> & HN) | (HEe & -> & HN)].
  - assert (HN0 : 0 <= N) by lia.
    destruct (stage2 N e HN0) as (mrs2 & e2 & Hs2 & _ & Hcase2). rewrite Hs2.
    specialize (Hcase2 ltac:(lia)). cbn zeta in Hcase2. rewrite HN in Hcase2.
    fold d in Hcase2. fold E in Hcase2.
    destruct Hcase2 as [(_ & -> & Hm2) | (Hc & _)]; [|lia].
    rewrite Hm2. unfold M.
    change (f64_emax - f64_prec) with 971.
      destruct (Z.leb_spec e 971) as [He|He]; [|reflexivity].
    apply is_double_finite. fold M. fold d. fold E. lia.
  - pose proof (round_shift_bounds (E - e) M ltac:(lia) ltac:(lia)) as HNb.
    rewrite <- HN in HNb.
    assert (Hq0 : 0 <= M / 2 ^ (E - e)).
    { apply Z.div_pos; [lia|apply pow2_pos; lia]. }
    assert (Hq53 : M / 2 ^ (E - e) < 2 ^ 53).
    { apply (div_pow2_lt M d); lia. }
    assert (HN0 : 0 <= N) by lia.
    destruct (stage2 N E HN0) as (mrs2 & e2 & Hs2 & Hz2 & Hcase2). rewrite Hs2.
    destruct (Z.eq_dec N 0) as [HNz|HNz].
    { rewrite (Hz2 HNz). reflexivity. }
    specialize (Hcase2 ltac:(lia)). cbn zeta in Hcase2.
    assert (HNpos : 0 < N) by lia.
    (* above the least exponent the quotient has 53 bits *)
    assert (Hbig : -1074 < E -> 2 ^ 52 <= N).
    { intros HE. assert (E = d + e - 53) by (unfold E, f64_fexp, f64_prec, f64_emin in *; lia).
      assert (2 ^ 52 <= M / 2 ^ (E - e)); [|lia].
      replace (E - e) with (d - 53) by lia. apply div_pow2_ge; lia. }
    destruct (Z_lt_le_dec N (2 ^ 53)) as [Hlt|Hge].
    + assert (HdN : digitsZ N <= 53) by (apply digitsZ_le_of_lt; lia).
      assert (HdN' : -1074 < E -> digitsZ N = 53).
      { intros HE. apply digitsZ_unique; [|lia]. specialize (Hbig HE).
        change (53 - 1) with 52. lia. }
      destruct Hcase2 as [(_ & -> & Hm2) | (Hc & _)].
      2:{ unfold f64_fexp, f64_prec, f64_emin in *. lia. }
      rewrite Hm2. destruct N as [|n|n] eqn:HNe; try lia.
      change (f64_emax - f64_prec) with 971.
      destruct (Z.leb_spec E 971) as [He|He]; [|reflexivity].
      apply is_double_finite. split; [|exact He].
      pose proof (digitsZ_pos (Zpos n) ltac:(lia)).
      unfold f64_fexp, f64_prec, f64_emin in *. lia.
    + assert (HNeq : N = 2 ^ 53) by lia.
      assert (HdN : digitsZ N = 54) by (rewrite HNeq; apply digitsZ_pow2; lia).
      rewrite HdN in Hcase2.
      destruct Hcase2 as [(Hc & _) | (_ & -> & Hm2)].
      { unfold f64_fexp, f64_prec, f64_emin in *. lia. }
      assert (HE1 : f64_fexp (54 + E) = E + 1).
      { unfold f64_fexp, f64_prec, f64_emin in *. lia. }
      rewrite HE1 in *. replace (E + 1 - E) with 1 in Hm2 by lia.
      rewrite HNeq in Hm2. change (2 ^ 53 / 2 ^ 1) with (2 ^ 52) in Hm2.
      rewrite Hm2. change (2 ^ 52) with (Zpos (Z.to_pos (2 ^ 52))).
      change (f64_emax - f64_prec) with 971.
      destruct (Z.leb_spec (E + 1) 971) as [He|He]; [|reflexivity].
      apply is_double_finite. split; [|exact He].
      change (digitsZ (Zpos (Z.to_pos (2 ^ 52)))) with 53.
      unfold f64_fexp, f64_prec, f64_emin in *. lia.
Qed.

Lemma digitsZ_mul_ge (M N : Z) :
  0 < M -> 0 < N -> digitsZ M + digitsZ N - 1 <= digitsZ (M * N).
Proof.
  intros HM HN.
  pose proof (digitsZ_bounds M HM) as [HMlo _].
  pose proof (digitsZ_bounds N HN) as [HNlo _].
  pose proof (digitsZ_pos M HM) as HdM. pose proof (digitsZ_pos N HN) as HdN.
  assert (Hp : 2 ^ (digitsZ M + digitsZ N - 2) <= M * N).
  { replace (digitsZ M + digitsZ N - 2) with ((digitsZ M - 1) + (digitsZ N - 1)) by lia.
    rewrite pow2_split by lia.
    pose proof (pow2_pos (digitsZ M - 1) ltac:(lia)).
    pose proof (pow2_pos (digitsZ N - 1) ltac:(lia)). nia. }
  pose proof (digitsZ_le _ _ (pow2_pos (digitsZ M + digitsZ N - 2) ltac:(lia)) Hp) as Hle.
  rewrite digitsZ_pow2 in Hle by lia. lia.
Qed.

Lemma binary_round_double (s : bool) (m : positive) (e : Z) :
  is_double (binary_round f64_prec f64_emax s m e) = true.
Proof.
  unfold binary_round.
  pose proof (shl_align_spec m e (fexp f64_prec f64_emax (Zpos (digits2_pos m) + e))) as [He Hm].
  destruct (shl_align m e (fexp f64_prec f64_emax (Zpos (digits2_pos m) + e))) as [mz ez].
  cbn [fst snd] in He, Hm.
  rewrite fexp_f64, digits2_pos_log2 in He, Hm.
  apply bra_exact_double. rewrite Hm.
  set (E := f64_fexp (digitsZ (Zpos m) + e)) in *.
  assert (Hj : 0 <= e - Z.min e E) by lia.
  rewrite digitsZ_mul_pow2 by lia.
  replace (digitsZ (Zpos m) + (e - Z.min e E) + ez) with (digitsZ (Zpos m) + e) by lia.
  fold E. lia.
Qed.

Lemma binary_normalize_double (S e : Z) :
  is_double (binary_normalize f64_prec f64_emax S e false) = true.
Proof.
  destruct S as [|p|p]; cbn [binary_normalize]; [reflexivity| |]; apply binary_round_double.
Qed.

(** The sum, the difference and the product of two doubles are doubles. *)
Lemma js_add_double (x y : number) :
  is_double x = true -> is_double y = true -> is_double (js_add x y) = true.
Proof.
  intros Hx Hy.
  destruct x as [sx|sx| |sx mx ex]; destruct y as [sy|sy| |sy my ey];
    try reflexivity; try assumption.
  - destruct sx, sy; reflexivity.
  - destruct sx, sy; reflexivity.
  - apply binary_normalize_double.
Qed.

Lemma js_sub_double (x y : number) :
  is_double x = true -> is_double y = true -> is_double (js_sub x y) = true.
Proof.
  intros Hx Hy.
  destruct x as [sx|sx| |sx mx ex]; destruct y as [sy|sy| |sy my ey];
    try reflexivity; try assumption.
  - destruct sx, sy; reflexivity.
  - destruct sx, sy; reflexivity.
  - apply binary_normalize_double.
Qed.

Lemma js_mul_double (x y : number) :
  is_double x = true -> is_double y = true -> is_double (js_mul x y) = true.
Proof.
  intros Hx Hy.
  destruct x as [sx|sx| |sx mx ex]; destruct y as [sy|sy| |sy my ey]; try reflexivity.
  unfold js_mul, SFmul. apply bra_exact_double.
  destruct (is_double_canonical _ _ _ Hx) as (Hex & Hdx & Hnx).
  destruct (is_double_canonical _ _ _ Hy) as (Hey & Hdy & Hny).
  rewrite Pos2Z.inj_mul.
  pose proof (digitsZ_mul_ge (Zpos mx) (Zpos my) ltac:(lia) ltac:(lia)) as Hd.
  pose proof (digitsZ_pos (Zpos mx) ltac:(lia)).
  pose proof (digitsZ_pos (Zpos my) ltac:(lia)).
  unfold f64_fexp, f64_prec, f64_emin in *. lia.
Qed.

(** ** Division *)

Lemma new_location_bits (m2 r : Z) :
  0 < m2 -> 0 <= r < m2 -> loc_bits (new_location m2 r) = remainder_bits r m2.
Proof.
  intros Hm Hr. unfold new_location, remainder_bits.
  destruct (Z.even m2) eqn:Hev.
  - unfold new_location_even. destruct (Z.eqb_spec r 0) as [H0|H0]; [reflexivity|].
    destruct (Z.compare_spec (2 * r) m2) as [Hc|Hc|Hc]; cbn [loc_bits].
    + destruct (Z.ltb_spec (2 * r) m2); [lia|]. destruct (Z.eqb_spec (2 * r) m2); [reflexivity|lia].
    + destruct (Z.ltb_spec (2 * r) m2); [reflexivity|lia].
    + destruct (Z.ltb_spec (2 * r) m2); [lia|]. destruct (Z.eqb_spec (2 * r) m2); [lia|reflexivity].
  - unfold new_location_odd. destruct (Z.eqb_spec r 0) as [H0|H0]; [reflexivity|].
    assert (Hodd : Z.odd m2 = true) by (rewrite <- Z.negb_even, Hev; reflexivity).
    apply Z.odd_spec in Hodd. destruct Hodd as [k Hk].
    destruct (Z.compare_spec (2 * r + 1) m2) as [Hc|Hc|Hc]; cbn [loc_bits].
    + destruct (Z.ltb_spec (2 * r) m2); [reflexivity|lia].
    + destruct (Z.ltb_spec (2 * r) m2); [reflexivity|lia].
    + destruct (Z.ltb_spec (2 * r) m2); [lia|]. destruct (Z.eqb_spec (2 * r) m2); [lia|reflexivity].
Qed.

Lemma remainder_bits_range (r m2 : Z) : 0 <= remainder_bits r m2 <= 3.
Proof.
  unfold remainder_bits.
  destruct (r =? 0); [lia|]. destruct (2 * r <? m2); [lia|]. destruct (2 * r =? m2); lia.
Qed.

Lemma SFdiv_core_spec (m1 m2 : positive) (e1 e2 : Z) :
  let e' := div_exp (digitsZ (Zpos m1)) e1 (digitsZ (Zpos m2)) e2 in
  let s := e1 - e2 - e' in
  SFdiv_core_binary f64_prec f64_emax (Zpos m1) e1 (Zpos m2) e2 =
  ((Zpos m1 * 2 ^ s) / Zpos m2, e',
   new_location (Zpos m2) ((Zpos m1 * 2 ^ s) mod Zpos m2)).
Proof.
  intros e' s. unfold SFdiv_core_binary.
  rewrite !Zdigits2_digitsZ by lia. rewrite fexp_f64.
  change (IntDef.Z.min (f64_fexp (digitsZ (Zpos m1) + e1 - (digitsZ (Zpos m2) + e2))) (e1 - e2))
    with e'.
  fold s.
  assert (Hs : 0 <= s) by (unfold s, e', div_exp; lia).
  assert (Hm : match s with
               | 0 => Zpos m1
               | Zpos _ => Z.shiftl (Zpos m1) s
               | Zneg _ => 0
               end = Zpos m1 * 2 ^ s).
  { destruct s as [|p|p]; [change (2 ^ 0) with 1; lia| |lia].
    apply Z.shiftl_mul_pow2. lia. }
  change IntDef.Z.shiftl with Z.shiftl. rewrite Hm.
  change IntDef.Z.div_eucl with Z.div_eucl.
  rewrite (surjective_pairing (Z.div_eucl (Zpos m1 * 2 ^ s) (Zpos m2))).
  reflexivity.
Qed.

Lemma digitsZ_4 (q c : Z) : 0 < q -> 0 <= c <= 3 -> digitsZ (4 * q + c) = digitsZ q + 2.
Proof.
  intros Hq Hc.
  pose proof (digitsZ_bounds q Hq) as [Hlo Hhi].
  pose proof (digitsZ_pos q Hq) as Hd.
  apply digitsZ_unique; [|lia].
  replace (digitsZ q + 2 - 1) with (2 + (digitsZ q - 1)) by lia.
  replace (digitsZ q + 2) with (2 + digitsZ q) by lia.
  rewrite !pow2_split by lia. change (2 ^ 2) with 4. lia.
Qed.

Section DivCore.
Variables (m1 m2 : positive) (e1 e2 : Z).
Hypothesis Hd1 : digitsZ (Zpos m1) <= 53.

Let d1 := digitsZ (Zpos m1).
Let d2 := digitsZ (Zpos m2).
Let e' := div_exp d1 e1 d2 e2.
Let s := e1 - e2 - e'.
Let q := (Zpos m1 * 2 ^ s) / Zpos m2.
Let r := (Zpos m1 * 2 ^ s) mod Zpos m2.

Lemma div_core_facts :
  0 <= s /\ Zpos m1 * 2 ^ s = Zpos m2 * q + r /\ 0 <= r < Zpos m2 /\ 0 <= q /\
  (0 < q -> d1 + s - d2 <= digitsZ q) /\
  (f64_emin < e' -> s = 53 - d1 + d2 /\ 2 ^ 52 <= q) /\
  (q = 0 -> e' <= f64_emin /\ 0 < r).
Proof.
  assert (Hs : 0 <= s) by (unfold s, e', div_exp; lia).
  pose proof (pow2_pos s Hs) as Hps.
  pose proof (Z.div_mod (Zpos m1 * 2 ^ s) (Zpos m2) ltac:(lia)) as Hdm.
  fold q in Hdm. fold r in Hdm.
  pose proof (Z.mod_pos_bound (Zpos m1 * 2 ^ s) (Zpos m2) ltac:(lia)) as Hr. fold r in Hr.
  assert (Hq0 : 0 <= q) by (apply Z.div_pos; nia).
  pose proof (digitsZ_bounds (Zpos m1) ltac:(lia)) as [H1lo H1hi]. fold d1 in H1lo, H1hi.
  pose proof (digitsZ_bounds (Zpos m2) ltac:(lia)) as [H2lo H2hi]. fold d2 in H2lo, H2hi.
  pose proof (digitsZ_pos (Zpos m1) ltac:(lia)) as Hp1. fold d1 in Hp1.
  pose proof (digitsZ_pos (Zpos m2) ltac:(lia)) as Hp2. fold d2 in Hp2.
  (* the quotient is not smaller than [2 ^ (d1 - 1 + s - d2)] *)
  assert (Hlow : forall k, 0 <= k -> k <= d1 - 1 + s - d2 -> 2 ^ k <= q).
  { intros k Hk Hk'.
    assert (H1 : 2 ^ (k + d2) <= Zpos m1 * 2 ^ s).
    { assert (H : 2 ^ (k + d2) <= 2 ^ (d1 - 1 + s)) by (apply pow2_le; lia).
      rewrite (pow2_split (d1 - 1) s) in H by lia.
      assert (2 ^ (d1 - 1) * 2 ^ s <= Zpos m1 * 2 ^ s)
        by (apply Z.mul_le_mono_nonneg_r; lia).
      lia. }
    rewrite pow2_split in H1 by lia.
    pose proof (pow2_pos k Hk) as Hpk.
    destruct (Z_lt_le_dec q (2 ^ k)) as [Hlt|Hge]; [|exact Hge].
    exfalso.
    assert (Ha : Zpos m2 * (q + 1) <= Zpos m2 * 2 ^ k) by (apply Z.mul_le_mono_nonneg_l; lia).
    assert (Hb : Zpos m2 * 2 ^ k < 2 ^ d2 * 2 ^ k) by (apply Z.mul_lt_mono_pos_r; lia).
    lia. }
  split; [exact Hs|]. split; [exact Hdm|]. split; [exact Hr|]. split; [exact Hq0|].
  split; [|split].
  - intros Hq. pose proof (digitsZ_pos q Hq).
    destruct (Z_le_gt_dec (d1 + s - d2) 1) as [Hle|Hgt]; [lia|].
    pose proof (Hlow (d1 - 1 + s - d2) ltac:(lia) ltac:(lia)) as Hq'.
    pose proof (digitsZ_le _ _ (pow2_pos (d1 - 1 + s - d2) ltac:(lia)) Hq') as Hle.
    rewrite digitsZ_pow2 in Hle by lia. lia.
  - intros He.
    assert (Hs' : s = 53 - d1 + d2).
    { unfold s, e', div_exp, f64_fexp, f64_prec, f64_emin in *. lia. }
    split; [exact Hs'|]. apply Hlow; lia.
  - intros Hq. split.
    + destruct (Z_le_gt_dec e' f64_emin) as [Hle|Hgt]; [exact Hle|exfalso].
      assert (Hs' : s = 53 - d1 + d2).
      { unfold s, e', div_exp, f64_fexp, f64_prec, f64_emin in *. lia. }
      pose proof (Hlow 52 ltac:(lia) ltac:(lia)) as H52.
      pose proof (pow2_pos 52 ltac:(lia)). lia.
    + nia.
Qed.

End DivCore.

(** The quotient of two finite numbers is the rounding of the integer
    quotient extended by the two bits that place the remainder. *)
Lemma js_div_sticky (sx sy : bool) (mx my : positive) (ex ey : Z) :
  digitsZ (Zpos mx) <= 53 ->
  let e' := div_exp (digitsZ (Zpos mx)) ex (digitsZ (Zpos my)) ey in
  let s := ex - ey - e' in
  let q := (Zpos mx * 2 ^ s) / Zpos my in
  let r := (Zpos mx * 2 ^ s) mod Zpos my in
  0 < 4 * q + remainder_bits r (Zpos my) /\
  e' <= f64_fexp (digitsZ (4 * q + remainder_bits r (Zpos my)) + (e' - 2)) /\
  js_div (S754_finite sx mx ex) (S754_finite sy my ey) =
  binary_round_aux f64_prec f64_emax (xorb sx sy)
    (4 * q + remainder_bits r (Zpos my)) (e' - 2) loc_Exact.
Proof.
  intros Hd1 e' s q r.
  destruct (div_core_facts mx my ex ey Hd1) as (Hs & Hdm & Hr & Hq0 & Hdq & Hbig & Hzero).
  fold e' in Hs, Hdm, Hr, Hq0, Hdq, Hbig, Hzero.
  fold s in Hs, Hdm, Hr, Hq0, Hdq, Hbig, Hzero.
  fold q in Hdm, Hq0, Hdq, Hbig, Hzero. fold r in Hdm, Hr, Hzero.
  pose proof (remainder_bits_range r (Zpos my)) as Hc.
  set (c := remainder_bits r (Zpos my)) in *.
  assert (Hpos : 0 < 4 * q + c).
  { destruct (Z.eq_dec q 0) as [Hq|Hq]; [|lia].
    destruct (Hzero Hq) as [_ Hr0]. unfold c, remainder_bits.
    destruct (Z.eqb_spec r 0); [lia|].
    destruct (2 * r <? Zpos my); [lia|]. destruct (2 * r =? Zpos my); lia. }
  (* the exponent of the rounding, for the quotient and for its extension *)
  assert (HE : e' <= f64_fexp (Zdigits2 q + e') /\
               f64_fexp (Zdigits2 (4 * q + c) + (e' - 2)) = f64_fexp (Zdigits2 q + e')).
  { destruct (Z.eq_dec q 0) as [Hq|Hq].
    - destruct (Hzero Hq) as [He _]. rewrite Hq in *. cbn [Zdigits2].
      rewrite (Zdigits2_digitsZ (4 * 0 + c)) by lia.
      assert (digitsZ (4 * 0 + c) <= 2).
      { apply digitsZ_le_of_lt. change (2 ^ 2) with 4. lia. }
      pose proof (digitsZ_pos (4 * 0 + c) ltac:(lia)).
      unfold f64_fexp, f64_prec, f64_emin in *. lia.
    - assert (Hq' : 0 < q) by lia. specialize (Hdq Hq').
      rewrite (Zdigits2_digitsZ q Hq'), (Zdigits2_digitsZ (4 * q + c)) by lia.
      rewrite digitsZ_4 by lia.
      replace (digitsZ q + 2 + (e' - 2)) with (digitsZ q + e') by lia.
      split; [|reflexivity].
      assert (f64_fexp (digitsZ (Zpos mx) + ex - (digitsZ (Zpos my) + ey))
              <= f64_fexp (digitsZ q + e')) by (apply f64_fexp_mono; lia).
      unfold e', div_exp in *. lia. }
  destruct HE as [HE1 HE2].
  split; [exact Hpos|]. split.
  - rewrite <- (Zdigits2_digitsZ (4 * q + c)) by lia. rewrite HE2. exact HE1.
  - unfold js_div, SFdiv. rewrite SFdiv_core_spec. cbn zeta.
    fold e'. fold s. fold q. fold r.
    rewrite (bra_sticky _ q e' (new_location (Zpos my) r) Hq0 HE1);
      rewrite new_location_bits by lia; fold c; [reflexivity|exact HE2].
Qed.

(** The quotient of two doubles is a double. *)
Lemma js_div_double (x y : number) :
  is_double x = true -> is_double y = true -> is_double (js_div x y) = true.
Proof.
  intros Hx Hy.
  destruct x as [sx|sx| |sx mx ex]; destruct y as [sy|sy| |sy my ey]; try reflexivity.
  destruct (is_double_canonical _ _ _ Hx) as (_ & Hdx & _).
  destruct (js_div_sticky sx sy mx my ex ey Hdx) as (Hpos & HE & ->).
  revert Hpos HE. cbn zeta.
  set (X := 4 * _ + _). intros Hpos HE.
  destruct X as [|p|p]; try lia.
  apply bra_exact_double. lia.
Qed.

(* ===================================================================== *)
(** * 21. An order-preserving key, and the monotonicity of the operators *)
(* ===================================================================== *)

Lemma omega_pos (a : Z) : a <= f64_emin -> 0 < 2 ^ (f64_emax - a).
Proof. intros Ha. apply pow2_pos. unfold f64_emax, f64_emin in *. lia. Qed.

Lemma inf_key_big (a : Z) : a <= f64_emin -> 2 * 2 ^ (f64_emax - a) <= inf_key a.
Proof.
  intros Ha. unfold inf_key, f64_emax, f64_emin in *.
  replace (1024 - -1074 - a) with (1074 + (1024 - a)) by lia.
  rewrite pow2_split by lia.
  pose proof (pow2_pos (1024 - a) ltac:(lia)).
  assert (2 ^ 1 <= 2 ^ 1074) by (apply pow2_le; lia).
  change (2 ^ 1) with 2 in *. nia.
Qed.

Lemma RNs_abs (a V : Z) : a <= f64_emin -> Z.abs (RNs a V) = RN a (Z.abs V).
Proof.
  intros Ha. unfold RNs. pose proof (RN_nonneg a (Z.abs V) Ha) as Hnn.
  destruct (Z.sgn_spec V) as [[HV ->]|[[HV ->]|[HV ->]]]; [lia| |lia].
  rewrite <- HV. reflexivity.
Qed.

Lemma RN_omega (a : Z) : a <= f64_emin -> RN a (2 ^ (f64_emax - a)) = 2 ^ (f64_emax - a).
Proof.
  intros Ha. apply RN_pow2; [exact Ha|]. unfold f64_emax, f64_emin in *. lia.
Qed.

Lemma RN_beyond (a V : Z) :
  a <= f64_emin -> 2 ^ (f64_emax - a) <= V -> 2 ^ (f64_emax - a) <= RN a V.
Proof.
  intros Ha HV. rewrite <- (RN_omega a Ha) at 1. apply RN_mono; assumption.
Qed.

Lemma RNc_bound (a V : Z) : a <= f64_emin -> Z.abs (RNc a V) <= inf_key a.
Proof.
  intros Ha. unfold RNc. pose proof (inf_key_big a Ha) as Hk.
  pose proof (omega_pos a Ha) as Ho.
  destruct (Z.leb_spec (2 ^ (f64_emax - a)) (RN a (Z.abs V))) as [Hc|Hc].
  - destruct (Z.sgn_spec V) as [[HV ->]|[[HV ->]|[HV ->]]]; lia.
  - rewrite RNs_abs by exact Ha. lia.
Qed.

Lemma RNc_clamped (a V : Z) :
  2 ^ (f64_emax - a) <= RN a (Z.abs V) -> RNc a V = Z.sgn V * inf_key a.
Proof.
  intros H. unfold RNc.
  destruct (Z.leb_spec (2 ^ (f64_emax - a)) (RN a (Z.abs V))); [reflexivity|lia].
Qed.

Lemma RNc_unclamped (a V : Z) :
  RN a (Z.abs V) < 2 ^ (f64_emax - a) -> RNc a V = RNs a V.
Proof.
  intros H. unfold RNc.
  destruct (Z.leb_spec (2 ^ (f64_emax - a)) (RN a (Z.abs V))); [lia|reflexivity].
Qed.

Lemma RNc_mono (a X Y : Z) : a <= f64_emin -> X <= Y -> RNc a X <= RNc a Y.
Proof.
  intros Ha HXY.
  pose proof (inf_key_big a Ha) as Hk. pose proof (omega_pos a Ha) as Ho.
  pose proof (RNc_bound a X Ha) as HbX. pose proof (RNc_bound a Y Ha) as HbY.
  pose proof (RNs_abs a X Ha) as HaX. pose proof (RNs_abs a Y Ha) as HaY.
  pose proof (RN_0 a) as H0.
  destruct (Z_le_gt_dec (2 ^ (f64_emax - a)) (RN a (Z.abs Y))) as [HcY|HcY].
  - rewrite (RNc_clamped a Y HcY) in *.
    destruct (Z.sgn_spec Y) as [[HY0 HsY]|[[HY0 HsY]|[HY0 HsY]]]; rewrite HsY in *.
    + lia.
    + rewrite <- HY0 in HcY. change (Z.abs 0) with 0 in HcY. lia.
    + pose proof (RN_mono a (Z.abs Y) (Z.abs X) Ha ltac:(lia)) as Hm.
      rewrite (RNc_clamped a X) by lia.
      rewrite (Z.sgn_neg X) by lia. lia.
  - rewrite (RNc_unclamped a Y) in * by lia.
    destruct (Z_le_gt_dec (2 ^ (f64_emax - a)) (RN a (Z.abs X))) as [HcX|HcX].
    + rewrite (RNc_clamped a X HcX) in *.
      destruct (Z.sgn_spec X) as [[HX0 HsX]|[[HX0 HsX]|[HX0 HsX]]]; rewrite HsX in *.
      * pose proof (RN_mono a (Z.abs X) (Z.abs Y) Ha ltac:(lia)) as Hm. lia.
      * rewrite <- HX0 in HcX. change (Z.abs 0) with 0 in HcX. lia.
      * lia.
    + rewrite (RNc_unclamped a X) by lia. apply RNs_mono; assumption.
Qed.

Lemma rounds_to_strengthen (P : Prop) (a V : Z) (r : number) :
  a <= f64_emin -> (P -> 2 ^ (f64_emax - a) <= Z.abs V) ->
  rounds_to_or P a V r -> rounds_to a V r.
Proof.
  intros Ha HP [H|(s & -> & Hs & Hc)]; [left; exact H|].
  right. exists s. split; [reflexivity|]. split; [exact Hs|]. right.
  destruct Hc as [Hc|Hc]; [|exact Hc]. apply RN_beyond; auto.
Qed.

(** The key of a rounding. *)
Lemma rounds_to_xkey (a V : Z) (r : number) :
  a <= f64_emin -> rounds_to a V r -> xkey a r = RNc a V.
Proof.
  intros Ha [[Hok Hv]|(s & -> & Hs & [[]|Hc])]; unfold RNc.
  - pose proof (okf_bound r a Hok Ha) as Hb. rewrite Hv, RNs_abs in Hb by exact Ha.
    destruct (Z.leb_spec (2 ^ (f64_emax - a)) (RN a (Z.abs V))) as [Hc|_]; [lia|].
    rewrite <- Hv. destruct r; try discriminate; reflexivity.
  - destruct (Z.leb_spec (2 ^ (f64_emax - a)) (RN a (Z.abs V))) as [_|Hc']; [|lia].
    pose proof (omega_pos a Ha) as Ho.
    assert (HV : V <> 0) by (intros ->; cbn [Z.abs] in Hc; rewrite RN_0 in Hc; lia).
    cbn [xkey]. rewrite Hs.
    destruct (Z.ltb_spec V 0) as [Hn|Hp]; cbn [cond_Zopp].
    + rewrite Z.sgn_neg by lia. lia.
    + rewrite Z.sgn_pos by lia. lia.
Qed.

Lemma xkey_okf (a : Z) (x : number) : okf x = true -> xkey a x = sval a x.
Proof. destruct x; try discriminate; reflexivity. Qed.

Lemma dnum_cases (x : number) :
  dnum x = true ->
  (okf x = true /\ is_double x = true) \/ (exists s, x = S754_infinity s).
Proof.
  unfold dnum. rewrite andb_true_iff. intros [Hd Hn].
  destruct x as [s|s| |s m e]; try discriminate.
  - left. split; reflexivity.
  - right. eauto.
  - left. split; [apply is_double_okf; [exact Hd|reflexivity]|exact Hd].
Qed.

Lemma dnum_numk (x : number) : dnum x = true -> numk x = true /\ is_nan x = false.
Proof.
  unfold dnum. rewrite andb_true_iff, negb_true_iff. intros [Hd Hn].
  split; [apply is_double_numk; exact Hd|exact Hn].
Qed.

(** The order of the numbers is the order of their keys. *)
Lemma ncompare_xkey (x y : number) (a : Z) :
  numk x = true -> numk y = true -> is_nan x = false -> is_nan y = false ->
  a <= f64_emin ->
  ncompare x y = Some (xkey a x ?= xkey a y).
Proof.
  intros Hx Hy Hnx Hny Ha.
  pose proof (inf_key_big a Ha) as Hk. pose proof (omega_pos a Ha) as Ho.
  destruct (numk_cases x Hx) as [Hox|[[sx ->]| ->]]; [| |discriminate];
    destruct (numk_cases y Hy) as [Hoy|[[sy ->]| ->]]; try discriminate.
  - rewrite (ncompare_sval x y a Hox Hoy Ha), !xkey_okf by assumption. reflexivity.
  - pose proof (okf_bound x a Hox Ha) as Hb. rewrite <- (xkey_okf a x Hox) in Hb.
    destruct x as [s|s| |s m e]; try discriminate;
      (destruct sy; cbn [ncompare xkey cond_Zopp] in *; f_equal; symmetry;
       first [apply Z.compare_gt_iff; lia|apply Z.compare_lt_iff; lia]).
  - pose proof (okf_bound y a Hoy Ha) as Hb. rewrite <- (xkey_okf a y Hoy) in Hb.
    destruct y as [s|s| |s m e]; try discriminate;
      (destruct sx; cbn [ncompare xkey cond_Zopp] in *; f_equal; symmetry;
       first [apply Z.compare_gt_iff; lia|apply Z.compare_lt_iff; lia]).
  - destruct sx, sy; cbn [ncompare xkey cond_Zopp]; f_equal; symmetry;
      first [apply Z.compare_eq_iff; lia|apply Z.compare_gt_iff; lia|apply Z.compare_lt_iff; lia].
Qed.

Lemma js_le_xkey (x y : number) (a : Z) :
  numk x = true -> numk y = true -> is_nan x = false -> is_nan y = false ->
  a <= f64_emin ->
  js_le x y = true <-> xkey a x <= xkey a y.
Proof.
  intros Hx Hy Hnx Hny Ha. unfold js_le.
  rewrite (ncompare_xkey x y a Hx Hy Hnx Hny Ha).
  destruct (Z.compare_spec (xkey a x) (xkey a y)); split; intros; try lia; try discriminate; reflexivity.
Qed.

Lemma js_lt_xkey (x y : number) (a : Z) :
  numk x = true -> numk y = true -> is_nan x = false -> is_nan y = false ->
  a <= f64_emin ->
  js_lt x y = true <-> xkey a x < xkey a y.
Proof.
  intros Hx Hy Hnx Hny Ha. unfold js_lt.
  rewrite (ncompare_xkey x y a Hx Hy Hnx Hny Ha).
  destruct (Z.compare_spec (xkey a x) (xkey a y)); split; intros; try lia; try discriminate; reflexivity.
Qed.

Lemma dnum_double (x : number) : dnum x = true -> is_double x = true.
Proof. unfold dnum. rewrite andb_true_iff. tauto. Qed.

Lemma dnum_intro (x : number) : is_double x = true -> is_nan x = false -> dnum x = true.
Proof. intros Hd Hn. unfold dnum. rewrite Hd, Hn. reflexivity. Qed.

Lemma xkey_inf (a : Z) (s : bool) : xkey a (S754_infinity s) = cond_Zopp s (inf_key a).
Proof. reflexivity. Qed.

(** The key of a sum is the rounding of the sum of the keys. *)
Lemma js_add_key (x y : number) (a : Z) :
  dnum x = true -> dnum y = true -> is_nan (js_add x y) = false -> a <= f64_emin ->
  xkey a (js_add x y) = RNc a (xkey a x + xkey a y).
Proof.
  intros Hx Hy Hn Ha.
  pose proof (inf_key_big a Ha) as Hk. pose proof (omega_pos a Ha) as Ho.
  destruct (dnum_cases x Hx) as [[Hox _]|[sx ->]];
    destruct (dnum_cases y Hy) as [[Hoy _]|[sy ->]].
  - rewrite (xkey_okf a x), (xkey_okf a y) by assumption.
    apply rounds_to_xkey; [exact Ha|]. apply js_add_spec; assumption.
  - pose proof (okf_bound x a Hox Ha) as Hb. rewrite (xkey_okf a x Hox).
    assert (E : js_add x (S754_infinity sy) = S754_infinity sy)
      by (destruct x; try discriminate; reflexivity).
    rewrite E, xkey_inf.
    rewrite RNc_clamped.
    + destruct sy; cbn [cond_Zopp]; [rewrite Z.sgn_neg by lia|rewrite Z.sgn_pos by lia]; lia.
    + apply RN_beyond; [exact Ha|]. destruct sy; cbn [cond_Zopp]; lia.
  - pose proof (okf_bound y a Hoy Ha) as Hb. rewrite (xkey_okf a y Hoy).
    assert (E : js_add (S754_infinity sx) y = S754_infinity sx)
      by (destruct y; try discriminate; reflexivity).
    rewrite E, xkey_inf.
    rewrite RNc_clamped.
    + destruct sx; cbn [cond_Zopp]; [rewrite Z.sgn_neg by lia|rewrite Z.sgn_pos by lia]; lia.
    + apply RN_beyond; [exact Ha|]. destruct sx; cbn [cond_Zopp]; lia.
  - destruct sx, sy; try discriminate; cbn [js_add SFadd xkey cond_Zopp].
    + rewrite RNc_clamped; [rewrite Z.sgn_neg by lia; lia|].
      apply RN_beyond; [exact Ha|lia].
    + rewrite RNc_clamped; [rewrite Z.sgn_pos by lia; lia|].
      apply RN_beyond; [exact Ha|lia].
Qed.

Lemma js_sub_key (x y : number) (a : Z) :
  dnum x = true -> dnum y = true -> is_nan (js_sub x y) = false -> a <= f64_emin ->
  xkey a (js_sub x y) = RNc a (xkey a x - xkey a y).
Proof.
  intros Hx Hy Hn Ha.
  pose proof (inf_key_big a Ha) as Hk. pose proof (omega_pos a Ha) as Ho.
  destruct (dnum_cases x Hx) as [[Hox _]|[sx ->]];
    destruct (dnum_cases y Hy) as [[Hoy _]|[sy ->]].
  - rewrite (xkey_okf a x), (xkey_okf a y) by assumption.
    apply rounds_to_xkey; [exact Ha|]. apply js_sub_spec; assumption.
  - pose proof (okf_bound x a Hox Ha) as Hb. rewrite (xkey_okf a x Hox).
    assert (E : js_sub x (S754_infinity sy) = S754_infinity (negb sy))
      by (destruct x; try discriminate; reflexivity).
    rewrite E, !xkey_inf.
    rewrite RNc_clamped.
    + destruct sy; cbn [cond_Zopp negb]; [rewrite Z.sgn_pos by lia|rewrite Z.sgn_neg by lia]; lia.
    + apply RN_beyond; [exact Ha|]. destruct sy; cbn [cond_Zopp]; lia.
  - pose proof (okf_bound y a Hoy Ha) as Hb. rewrite (xkey_okf a y Hoy).
    assert (E : js_sub (S754_infinity sx) y = S754_infinity sx)
      by (destruct y; try discriminate; reflexivity).
    rewrite E, xkey_inf.
    rewrite RNc_clamped.
    + destruct sx; cbn [cond_Zopp]; [rewrite Z.sgn_neg by lia|rewrite Z.sgn_pos by lia]; lia.
    + apply RN_beyond; [exact Ha|]. destruct sx; cbn [cond_Zopp]; lia.
  - destruct sx, sy; try discriminate; cbn [js_sub SFsub xkey cond_Zopp].
    + rewrite RNc_clamped; [rewrite Z.sgn_neg by lia; lia|].
      apply RN_beyond; [exact Ha|lia].
    + rewrite RNc_clamped; [rewrite Z.sgn_pos by lia; lia|].
      apply RN_beyond; [exact Ha|lia].
Qed.

(** A finite double that is not zero is at least the least positive
    double in magnitude. *)
Lemma sval_finite_ge (s : bool) (m : positive) (e b : Z) :
  okf (S754_finite s m e) = true -> b <= f64_emin ->
  2 ^ (f64_emin - b) <= Z.abs (sval b (S754_finite s m e)).
Proof.
  intros Hok Hb. apply (proj1 (okf_finite _ _ _)) in Hok. destruct Hok as (He & _).
  cbn [sval]. unfold f64_emin in *.
  assert (2 ^ (-1074 - b) <= 2 ^ (e - b)) by (apply pow2_le; lia).
  pose proof (pow2_pos (e - b) ltac:(lia)).
  destruct s; cbn [cond_Zopp]; rewrite ?Z.abs_opp, Z.abs_eq by nia; nia.
Qed.

Lemma inf_key_mul_min (a b : Z) :
  a <= f64_emin -> b <= f64_emin ->
  inf_key a * 2 ^ (f64_emin - b) = 2 ^ (f64_emax - (a + b)).
Proof.
  intros Ha Hb. unfold inf_key, f64_emax, f64_emin in *.
  rewrite <- pow2_split by lia. f_equal. lia.
Qed.

Lemma inf_key_mul (a b : Z) :
  a <= f64_emin -> b <= f64_emin -> inf_key (a + b) <= inf_key a * inf_key b.
Proof.
  intros Ha Hb. unfold inf_key, f64_emax, f64_emin in *.
  rewrite <- pow2_split by lia. apply pow2_le. lia.
Qed.

Lemma sgn_cond_Zopp (s : bool) (z : Z) : 0 < z -> Z.sgn (cond_Zopp s z) = cond_Zopp s 1.
Proof. intros Hz. destruct s; cbn [cond_Zopp]; [apply Z.sgn_neg|apply Z.sgn_pos]; lia. Qed.

Lemma cond_Zopp_mul (s t : bool) (u v : Z) :
  cond_Zopp s u * cond_Zopp t v = cond_Zopp (xorb s t) (u * v).
Proof. destruct s, t; cbn [cond_Zopp xorb]; lia. Qed.

(** The product of two doubles overflows only beyond the finite range. *)
Lemma js_mul_rounds (x y : number) (a b : Z) :
  okf x = true -> is_double x = true -> okf y = true -> is_double y = true ->
  a <= f64_emin -> b <= f64_emin ->
  rounds_to (a + b) (sval a x * sval b y) (js_mul x y).
Proof.
  intros Hox Hdx Hoy Hdy Ha Hb.
  assert (Hab : a + b <= f64_emin) by (unfold f64_emin in *; lia).
  apply (rounds_to_strengthen (971 < fexpo x + fexpo y)); [exact Hab| |apply js_mul_spec; assumption].
  intros HP.
  destruct x as [sx|sx| |sx mx ex]; try discriminate; try (cbn [fexpo] in HP; pose proof (okf_fexpo_le y Hoy); lia).
  destruct y as [sy|sy| |sy my ey]; try discriminate; try (cbn [fexpo] in HP; pose proof (okf_fexpo_le _ Hox); cbn [fexpo] in *; lia).
  cbn [fexpo] in HP.
  pose proof (proj1 (okf_finite _ _ _) Hox) as (Hex & Hex' & _).
  pose proof (proj1 (okf_finite _ _ _) Hoy) as (Hey & Hey' & _).
  destruct (is_double_canonical _ _ _ Hdx) as (_ & _ & Hnx).
  destruct (is_double_canonical _ _ _ Hdy) as (_ & _ & Hny).
  unfold f64_emin, f64_emax in *.
  pose proof (digitsZ_bounds (Zpos mx) ltac:(lia)) as [Hx1 _].
  pose proof (digitsZ_bounds (Zpos my) ltac:(lia)) as [Hy1 _].
  rewrite (Hnx ltac:(lia)) in Hx1. rewrite (Hny ltac:(lia)) in Hy1.
  change (2 ^ (53 - 1)) with (2 ^ 52) in *.
  cbn [sval]. rewrite cond_Zopp_mul.
  replace (Zpos mx * 2 ^ (ex - a) * (Zpos my * 2 ^ (ey - b)))
    with (Zpos mx * Zpos my * 2 ^ (ex + ey - (a + b))).
  2:{ replace (ex + ey - (a + b)) with ((ex - a) + (ey - b)) by lia.
      rewrite pow2_split by lia. lia. }
  assert (H1 : 2 ^ (1024 - (a + b)) <= 2 ^ 52 * 2 ^ (ex + ey - (a + b))).
  { rewrite <- pow2_split by lia. apply pow2_le. lia. }
  pose proof (pow2_pos (ex + ey - (a + b)) ltac:(lia)) as Hp.
  pose proof (pow2_pos 52 ltac:(lia)) as Hp52.
  assert (H2 : 2 ^ 52 * 2 ^ (ex + ey - (a + b)) <= Zpos mx * Zpos my * 2 ^ (ex + ey - (a + b))).
  { apply Z.mul_le_mono_nonneg_r; [lia|]. nia. }
  destruct (xorb sx sy); cbn [cond_Zopp]; rewrite ?Z.abs_opp, Z.abs_eq by nia; lia.
Qed.

(** The key of a product is the rounding of the product of the keys. *)
Lemma js_mul_key (x y : number) (a b : Z) :
  dnum x = true -> dnum y = true -> is_nan (js_mul x y) = false ->
  a <= f64_emin -> b <= f64_emin ->
  xkey (a + b) (js_mul x y) = RNc (a + b) (xkey a x * xkey b y).
Proof.
  intros Hx Hy Hn Ha Hb.
  assert (Hab : a + b <= f64_emin) by (unfold f64_emin in *; lia).
  pose proof (inf_key_big a Ha) as Hka. pose proof (omega_pos a Ha) as Hoa.
  pose proof (inf_key_big b Hb) as Hkb. pose proof (omega_pos b Hb) as Hob.
  pose proof (inf_key_big (a + b) Hab) as Hkab. pose proof (omega_pos (a + b) Hab) as Hoab.
  assert (Hinf : forall s t u v, 0 < u -> 0 < v -> 2 ^ (f64_emax - (a + b)) <= u * v ->
            cond_Zopp (xorb s t) (inf_key (a + b)) =
            RNc (a + b) (cond_Zopp s u * cond_Zopp t v)).
  { intros s t u v Hu Hv Huv. rewrite cond_Zopp_mul.
    rewrite RNc_clamped.
    - rewrite sgn_cond_Zopp by nia. destruct (xorb s t); cbn [cond_Zopp]; lia.
    - apply RN_beyond; [exact Hab|].
      destruct (xorb s t); cbn [cond_Zopp]; rewrite ?Z.abs_opp, Z.abs_eq by nia; lia. }
  destruct (dnum_cases x Hx) as [[Hox Hdx]|[sx ->]];
    destruct (dnum_cases y Hy) as [[Hoy Hdy]|[sy ->]].
  - rewrite (xkey_okf a x), (xkey_okf b y) by assumption.
    apply rounds_to_xkey; [exact Hab|]. apply js_mul_rounds; assumption.
  - destruct x as [sx|sx| |sx mx ex]; try discriminate.
    pose proof (sval_finite_ge sx mx ex a Hox Ha) as Hge.
    pose proof (pow2_pos (f64_emin - a) ltac:(lia)) as Hp.
    cbn [js_mul SFmul]. rewrite !xkey_inf. cbn [xkey sval] in *.
    assert (Hm : 0 < Zpos mx * 2 ^ (ex - a)).
    { destruct sx; cbn [cond_Zopp] in Hge; lia. }
    apply Hinf; [exact Hm|lia|].
    replace (f64_emax - (a + b)) with (f64_emax - (b + a)) by lia.
    rewrite <- (inf_key_mul_min b a) by assumption.
    assert (Z.abs (cond_Zopp sx (Zpos mx * 2 ^ (ex - a))) = Zpos mx * 2 ^ (ex - a))
      by (destruct sx; cbn [cond_Zopp]; lia).
    rewrite (Z.mul_comm (inf_key b)). apply Z.mul_le_mono_nonneg; lia.
  - destruct y as [sy|sy| |sy my ey]; try discriminate.
    pose proof (sval_finite_ge sy my ey b Hoy Hb) as Hge.
    pose proof (pow2_pos (f64_emin - b) ltac:(lia)) as Hp.
    cbn [js_mul SFmul]. rewrite !xkey_inf. cbn [xkey sval] in *.
    assert (Hm : 0 < Zpos my * 2 ^ (ey - b)).
    { destruct sy; cbn [cond_Zopp] in Hge; lia. }
    apply Hinf; [lia|exact Hm|].
    rewrite <- (inf_key_mul_min a b) by assumption.
    assert (Z.abs (cond_Zopp sy (Zpos my * 2 ^ (ey - b))) = Zpos my * 2 ^ (ey - b))
      by (destruct sy; cbn [cond_Zopp]; lia).
    apply Z.mul_le_mono_nonneg; lia.
  - cbn [js_mul SFmul]. rewrite !xkey_inf.
    apply Hinf; [lia|lia|].
    pose proof (inf_key_mul a b Ha Hb). lia.
Qed.

(** ** Monotonicity of the operators *)

Lemma js_le_dnum (x y : number) (a : Z) :
  dnum x = true -> dnum y = true -> a <= f64_emin ->
  js_le x y = true <-> xkey a x <= xkey a y.
Proof.
  intros Hx Hy Ha.
  destruct (dnum_numk x Hx) as [Hkx Hnx]. destruct (dnum_numk y Hy) as [Hky Hny].
  apply js_le_xkey; assumption.
Qed.

Lemma js_lt_dnum (x y : number) (a : Z) :
  dnum x = true -> dnum y = true -> a <= f64_emin ->
  js_lt x y = true <-> xkey a x < xkey a y.
Proof.
  intros Hx Hy Ha.
  destruct (dnum_numk x Hx) as [Hkx Hnx]. destruct (dnum_numk y Hy) as [Hky Hny].
  apply js_lt_xkey; assumption.
Qed.

Lemma js_le_not_nan (x y : number) : js_le x y = true -> is_nan x = false /\ is_nan y = false.
Proof. destruct x, y; try discriminate; auto. Qed.

Lemma js_lt_not_nan (x y : number) : js_lt x y = true -> is_nan x = false /\ is_nan y = false.
Proof. destruct x, y; try discriminate; auto. Qed.

Lemma js_add_dnum (x y : number) :
  dnum x = true -> dnum y = true -> is_nan (js_add x y) = false -> dnum (js_add x y) = true.
Proof.
  intros Hx Hy Hn. apply dnum_intro; [|exact Hn].
  apply js_add_double; apply dnum_double; assumption.
Qed.

Lemma js_sub_dnum (x y : number) :
  dnum x = true -> dnum y = true -> is_nan (js_sub x y) = false -> dnum (js_sub x y) = true.
Proof.
  intros Hx Hy Hn. apply dnum_intro; [|exact Hn].
  apply js_sub_double; apply dnum_double; assumption.
Qed.

Lemma js_mul_dnum (x y : number) :
  dnum x = true -> dnum y = true -> is_nan (js_mul x y) = false -> dnum (js_mul x y) = true.
Proof.
  intros Hx Hy Hn. apply dnum_intro; [|exact Hn].
  apply js_mul_double; apply dnum_double; assumption.
Qed.

(** Addition is monotone in both arguments. *)
Lemma js_add_mono (x x' y y' : number) :
  is_double x = true -> is_double x' = true -> is_double y = true -> is_double y' = true ->
  js_le x x' = true -> js_le y y' = true ->
  is_nan (js_add x y) = false -> is_nan (js_add x' y') = false ->
  js_le (js_add x y) (js_add x' y') = true.
Proof.
  intros Dx Dx' Dy Dy' Hx Hy Hn Hn'.
  destruct (js_le_not_nan _ _ Hx) as [Nx Nx']. destruct (js_le_not_nan _ _ Hy) as [Ny Ny'].
  pose proof (dnum_intro x Dx Nx) as Kx. pose proof (dnum_intro x' Dx' Nx') as Kx'.
  pose proof (dnum_intro y Dy Ny) as Ky. pose proof (dnum_intro y' Dy' Ny') as Ky'.
  assert (Ha : f64_emin <= f64_emin) by lia.
  apply (js_le_dnum _ _ f64_emin); [apply js_add_dnum; assumption|apply js_add_dnum; assumption|exact Ha|].
  rewrite !js_add_key by assumption.
  apply RNc_mono; [exact Ha|].
  apply (js_le_dnum x x' f64_emin Kx Kx' Ha) in Hx.
  apply (js_le_dnum y y' f64_emin Ky Ky' Ha) in Hy. lia.
Qed.

(** Subtraction is monotone in its first and antitone in its second
    argument. *)
Lemma js_sub_mono (x x' y y' : number) :
  is_double x = true -> is_double x' = true -> is_double y = true -> is_double y' = true ->
  js_le x x' = true -> js_le y' y = true ->
  is_nan (js_sub x y) = false -> is_nan (js_sub x' y') = false ->
  js_le (js_sub x y) (js_sub x' y') = true.
Proof.
  intros Dx Dx' Dy Dy' Hx Hy Hn Hn'.
  destruct (js_le_not_nan _ _ Hx) as [Nx Nx']. destruct (js_le_not_nan _ _ Hy) as [Ny' Ny].
  pose proof (dnum_intro x Dx Nx) as Kx. pose proof (dnum_intro x' Dx' Nx') as Kx'.
  pose proof (dnum_intro y Dy Ny) as Ky. pose proof (dnum_intro y' Dy' Ny') as Ky'.
  assert (Ha : f64_emin <= f64_emin) by lia.
  apply (js_le_dnum _ _ f64_emin); [apply js_sub_dnum; assumption|apply js_sub_dnum; assumption|exact Ha|].
  rewrite !js_sub_key by assumption.
  apply RNc_mono; [exact Ha|].
  apply (js_le_dnum x x' f64_emin Kx Kx' Ha) in Hx.
  apply (js_le_dnum y' y f64_emin Ky' Ky Ha) in Hy. lia.
Qed.

Lemma xkey_zero (a : Z) : xkey a js_zero = 0.
Proof. reflexivity. Qed.

(** Multiplication of non-negative numbers is monotone in both
    arguments. *)
Lemma js_mul_mono (x x' y y' : number) :
  is_double x = true -> is_double x' = true -> is_double y = true -> is_double y' = true ->
  js_le js_zero x = true -> js_le x x' = true ->
  js_le js_zero y = true -> js_le y y' = true ->
  is_nan (js_mul x y) = false -> is_nan (js_mul x' y') = false ->
  js_le (js_mul x y) (js_mul x' y') = true.
Proof.
  intros Dx Dx' Dy Dy' H0x Hx H0y Hy Hn Hn'.
  destruct (js_le_not_nan _ _ Hx) as [Nx Nx']. destruct (js_le_not_nan _ _ Hy) as [Ny Ny'].
  pose proof (dnum_intro x Dx Nx) as Kx. pose proof (dnum_intro x' Dx' Nx') as Kx'.
  pose proof (dnum_intro y Dy Ny) as Ky. pose proof (dnum_intro y' Dy' Ny') as Ky'.
  assert (Ha : f64_emin <= f64_emin) by lia.
  assert (Hab : f64_emin + f64_emin <= f64_emin) by (unfold f64_emin; lia).
  apply (js_le_dnum _ _ (f64_emin + f64_emin));
    [apply js_mul_dnum; assumption|apply js_mul_dnum; assumption|exact Hab|].
  rewrite !js_mul_key by assumption.
  apply RNc_mono; [exact Hab|].
  apply (js_le_dnum x x' f64_emin Kx Kx' Ha) in Hx.
  apply (js_le_dnum y y' f64_emin Ky Ky' Ha) in Hy.
  apply (js_le_dnum js_zero x f64_emin eq_refl Kx Ha) in H0x.
  apply (js_le_dnum js_zero y f64_emin eq_refl Ky Ha) in H0y.
  rewrite xkey_zero in *.
  apply Z.mul_le_mono_nonneg; lia.
Qed.

(** A product of non-negative numbers is not negative. *)
Lemma js_mul_nonneg (x y : number) :
  is_double x = true -> is_double y = true ->
  js_le js_zero x = true -> js_le js_zero y = true ->
  is_nan (js_mul x y) = false ->
  js_le js_zero (js_mul x y) = true.
Proof.
  intros Dx Dy Hx Hy Hn.
  change js_zero with (js_mul js_zero js_zero) at 1.
  apply js_mul_mono; try assumption; reflexivity.
Qed.

(* ===================================================================== *)
(** * 22. Division as the rounding of the exact quotient *)
(* ===================================================================== *)

Lemma sticky_scale (N D k : Z) : 0 < D -> 0 < k -> sticky (N * k) (D * k) = sticky N D.
Proof.
  intros HD Hk. unfold sticky.
  rewrite Z.div_mul_cancel_r by lia. rewrite Z.mul_mod_distr_r by lia.
  destruct (Z.eqb_spec (N mod D) 0) as [H|H].
  - rewrite H. reflexivity.
  - destruct (Z.eqb_spec (N mod D * k) 0); [nia|reflexivity].
Qed.

Lemma sticky_mono (N N' D : Z) : 0 < D -> N <= N' -> sticky N D <= sticky N' D.
Proof.
  intros HD HN. unfold sticky.
  pose proof (Z.div_le_mono N N' D HD HN) as Hq.
  pose proof (Z.div_mod N D ltac:(lia)) as E. pose proof (Z.div_mod N' D ltac:(lia)) as E'.
  pose proof (Z.mod_pos_bound N D HD) as B. pose proof (Z.mod_pos_bound N' D HD) as B'.
  destruct (Z.eqb_spec (N mod D) 0); destruct (Z.eqb_spec (N' mod D) 0); try lia.
  destruct (Z.eq_dec (N / D) (N' / D)) as [Heq|Hne]; [|lia].
  rewrite Heq in E. nia.
Qed.

Lemma sticky_0 (D : Z) : sticky 0 D = 0.
Proof. unfold sticky. rewrite Zdiv_0_l, Zmod_0_l. reflexivity. Qed.

(** Rounding to nearest in terms of the half unit. *)
Lemma round_shift_grid (n j X Y : Z) :
  0 <= j < n -> 0 <= X -> 0 <= Y ->
  X / 2 ^ j = Y / 2 ^ j ->
  (X mod 2 ^ j = 0 <-> Y mod 2 ^ j = 0) ->
  round_shift n X = round_shift n Y.
Proof.
  intros Hj HX HY Hdiv Hmod.
  set (k := n - 1 - j). assert (Hk : 0 <= k) by (unfold k; lia).
  pose proof (pow2_pos j ltac:(lia)) as Hpj. pose proof (pow2_pos k Hk) as Hpk.
  set (h := 2 ^ (n - 1)).
  assert (Hh : h = 2 ^ j * 2 ^ k).
  { unfold h. rewrite <- pow2_split by lia. f_equal. unfold k. lia. }
  assert (Hn : 2 ^ n = h * 2).
  { unfold h. replace n with ((n - 1) + 1) at 1 by lia. rewrite pow2_split by lia. reflexivity. }
  assert (Hph : 0 < h) by (unfold h; apply pow2_pos; lia).
  assert (Hu : X / h = Y / h).
  { rewrite Hh, <- !Z.div_div by lia. rewrite Hdiv. reflexivity. }
  assert (Hv : X mod h = 0 <-> Y mod h = 0).
  { rewrite Hh, !Z.rem_mul_r by lia. rewrite Hdiv.
    pose proof (Z.mod_pos_bound X (2 ^ j) Hpj). pose proof (Z.mod_pos_bound Y (2 ^ j) Hpj).
    pose proof (Z.mod_pos_bound (Y / 2 ^ j) (2 ^ k) Hpk).
    split; intros H2.
    - assert (X mod 2 ^ j = 0) by nia. assert ((Y / 2 ^ j) mod 2 ^ k = 0) by nia.
      assert (Y mod 2 ^ j = 0) by tauto. nia.
    - assert (Y mod 2 ^ j = 0) by nia. assert ((Y / 2 ^ j) mod 2 ^ k = 0) by nia.
      assert (X mod 2 ^ j = 0) by tauto. nia. }
  unfold round_shift. rewrite Hn.
  rewrite <- !Z.div_div by lia. rewrite !Z.rem_mul_r by lia. rewrite <- Hu.
  set (u := X / h) in *.
  pose proof (Z.mod_pos_bound X h Hph) as BX. pose proof (Z.mod_pos_bound Y h Hph) as BY.
  pose proof (Z.mod_pos_bound u 2 ltac:(lia)) as Bu.
  set (vX := X mod h) in *. set (vY := Y mod h) in *.
  f_equal.
  assert (Hcases : u mod 2 = 0 \/ u mod 2 = 1) by lia.
  destruct Hcases as [E|E]; rewrite E.
  - assert (H1 : (h * 2 <? 2 * (vX + h * 0)) = false) by (apply Z.ltb_ge; lia).
    assert (H2 : (h * 2 =? 2 * (vX + h * 0)) = false) by (apply Z.eqb_neq; lia).
    assert (H3 : (h * 2 <? 2 * (vY + h * 0)) = false) by (apply Z.ltb_ge; lia).
    assert (H4 : (h * 2 =? 2 * (vY + h * 0)) = false) by (apply Z.eqb_neq; lia).
    rewrite H1, H2, H3, H4. reflexivity.
  - destruct (Z.eq_dec vX 0) as [Z0|NZ].
    + assert (Z0' : vY = 0) by tauto. rewrite Z0, Z0'. reflexivity.
    + assert (NZ' : vY <> 0) by tauto.
      assert (H1 : (h * 2 <? 2 * (vX + h * 1)) = true) by (apply Z.ltb_lt; lia).
      assert (H3 : (h * 2 <? 2 * (vY + h * 1)) = true) by (apply Z.ltb_lt; lia).
      rewrite H1, H3. reflexivity.
Qed.

Lemma digitsZ_div_pow2 (X j : Z) :
  0 <= j -> 0 < X / 2 ^ j -> digitsZ X = digitsZ (X / 2 ^ j) + j.
Proof.
  intros Hj Hu. pose proof (pow2_pos j Hj) as Hp.
  pose proof (Z.div_mod X (2 ^ j) ltac:(lia)) as E.
  pose proof (Z.mod_pos_bound X (2 ^ j) Hp) as B.
  set (u := X / 2 ^ j) in *.
  pose proof (digitsZ_bounds u Hu) as [Hlo Hhi]. pose proof (digitsZ_pos u Hu) as Hd.
  apply digitsZ_unique; [|nia].
  replace (digitsZ u + j - 1) with ((digitsZ u - 1) + j) by lia.
  rewrite !pow2_split by lia. nia.
Qed.

(** Two positive integers in the same cell of a grid finer than the
    rounding have the same rounding. *)
Lemma RN_grid (a j X Y : Z) :
  0 <= j -> 0 < X -> 0 < Y ->
  X / 2 ^ j = Y / 2 ^ j ->
  (X mod 2 ^ j = 0 <-> Y mod 2 ^ j = 0) ->
  j < f64_fexp (digitsZ X + a) - a ->
  (X / 2 ^ j = 0 -> j + a <= f64_emin) ->
  RN a X = RN a Y.
Proof.
  intros Hj HX HY Hdiv Hmod Hn Hsmall.
  assert (HE : f64_fexp (digitsZ Y + a) = f64_fexp (digitsZ X + a)).
  { destruct (Z.eq_dec (X / 2 ^ j) 0) as [H0|H0].
    - specialize (Hsmall H0). pose proof (pow2_pos j Hj) as Hp.
      assert (HXs : X < 2 ^ j).
      { pose proof (Z.div_mod X (2 ^ j) ltac:(lia)). pose proof (Z.mod_pos_bound X (2 ^ j) Hp). nia. }
      assert (HYs : Y < 2 ^ j).
      { rewrite Hdiv in H0.
        pose proof (Z.div_mod Y (2 ^ j) ltac:(lia)). pose proof (Z.mod_pos_bound Y (2 ^ j) Hp). nia. }
      pose proof (digitsZ_le_of_lt X j ltac:(lia)). pose proof (digitsZ_le_of_lt Y j ltac:(lia)).
      unfold f64_fexp, f64_prec, f64_emin in *. lia.
    - assert (Hu : 0 < X / 2 ^ j).
      { pose proof (Z.div_pos X (2 ^ j) ltac:(lia) (pow2_pos j Hj)). lia. }
      rewrite (digitsZ_div_pow2 X j Hj Hu).
      rewrite Hdiv in Hu. rewrite (digitsZ_div_pow2 Y j Hj Hu), Hdiv. reflexivity. }
  unfold RN.
  destruct (Z.leb_spec X 0); [lia|]. destruct (Z.leb_spec Y 0); [lia|].
  rewrite HE. f_equal.
  apply (round_shift_grid _ j); try lia; assumption.
Qed.

(** The extended quotient of a division and the sticky quotient of the
    same division at a finer scale lie in the same cell of the grid of
    half units. *)
Lemma div_cell (m m2 J : Z) :
  0 <= m -> 0 < m2 -> 1 <= J ->
  let q := m / m2 in
  let r := m mod m2 in
  let X := (4 * q + remainder_bits r m2) * 2 ^ (J - 1) in
  let Y := sticky (m * 2 ^ J) m2 in
  X / 2 ^ J = 2 * q + (if 2 * r <? m2 then 0 else 1) /\
  Y / 2 ^ J = 2 * q + (if 2 * r <? m2 then 0 else 1) /\
  (X mod 2 ^ J = 0 <-> r = 0 \/ 2 * r = m2) /\
  (Y mod 2 ^ J = 0 <-> r = 0 \/ 2 * r = m2).
Proof.
  intros Hm Hm2 HJ q r X Y.
  pose proof (Z.div_mod m m2 ltac:(lia)) as E. fold q in E. fold r in E.
  pose proof (Z.mod_pos_bound m m2 Hm2) as Br. fold r in Br.
  assert (Hq : 0 <= q) by (apply Z.div_pos; lia).
  set (H := 2 ^ (J - 1)).
  assert (HH : 0 < H) by (apply pow2_pos; lia).
  assert (HJ2 : 2 ^ J = 2 * H).
  { unfold H. replace J with (1 + (J - 1)) at 1 by lia. rewrite pow2_split by lia. reflexivity. }
  (* the quotient at the finer scale *)
  set (t := (r * (2 * H)) / m2). set (w := (r * (2 * H)) mod m2).
  pose proof (Z.div_mod (r * (2 * H)) m2 ltac:(lia)) as Et. fold t in Et. fold w in Et.
  pose proof (Z.mod_pos_bound (r * (2 * H)) m2 Hm2) as Bw. fold w in Bw.
  assert (Ht0 : 0 <= t) by (apply Z.div_pos; nia).
  assert (Ht2 : t < 2 * H) by (apply Z.div_lt_upper_bound; nia).
  assert (HtH : 2 * r < m2 <-> t < H).
  { split; intros Hlt.
    - apply Z.div_lt_upper_bound; nia.
    - destruct (Z_lt_le_dec (2 * r) m2) as [Hc|Hc]; [exact Hc|exfalso].
      assert (H <= t) by (apply Z.div_le_lower_bound; nia). lia. }
  assert (EY1 : (m * 2 ^ J) / m2 = q * (2 * H) + t).
  { rewrite HJ2. replace (m * (2 * H)) with (r * (2 * H) + q * (2 * H) * m2) by nia.
    rewrite Z.div_add by lia. fold t. lia. }
  assert (EY2 : (m * 2 ^ J) mod m2 = w).
  { rewrite HJ2. replace (m * (2 * H)) with (r * (2 * H) + q * (2 * H) * m2) by nia.
    rewrite Z.mod_add by lia. reflexivity. }
  assert (Hw0 : w = 0 -> t = 0 -> r = 0) by nia.
  assert (HwH : w = 0 -> t = H -> 2 * r = m2) by nia.
  assert (Hr0 : r = 0 -> w = 0 /\ t = 0).
  { intros Hr. subst r. unfold w, t. rewrite Hr. cbn. rewrite Zdiv_0_l, Zmod_0_l. auto. }
  assert (HrH : 2 * r = m2 -> w = 0 /\ t = H).
  { intros Hr.
    assert (Hd : r * (2 * H) = H * m2 + 0) by nia.
    split.
    - unfold w. symmetry. apply (Z.mod_unique _ _ H 0); lia.
    - unfold t. symmetry. apply (Z.div_unique _ _ H 0); lia. }
  assert (HY : Y = 2 * q * (2 * H) + (2 * t + (if w =? 0 then 0 else 1))).
  { unfold Y, sticky. rewrite EY1, EY2. lia. }
  set (st := if w =? 0 then 0 else 1) in *.
  assert (Hst : (st = 0 /\ w = 0) \/ (st = 1 /\ w <> 0)).
  { unfold st. destruct (Z.eqb_spec w 0); [left|right]; auto. }
  pose proof (remainder_bits_range r m2) as Hc.
  assert (Hbits : remainder_bits r m2 =
                  if r =? 0 then 0 else if 2 * r <? m2 then 1 else if 2 * r =? m2 then 2 else 3)
    by reflexivity.
  set (c := remainder_bits r m2) in *.
  assert (HX : X = (4 * q + c) * H) by reflexivity.
  rewrite HJ2.
  split; [|split; [|split]].
  - (* the cell of X *)
    rewrite HX.
    destruct (Z.ltb_spec (2 * r) m2) as [Hlt|Hge].
    + assert (Hc' : c = 0 \/ c = 1).
      { rewrite Hbits. destruct (Z.eqb_spec r 0); [auto|]. destruct (Z.ltb_spec (2 * r) m2); [auto|lia]. }
      symmetry. apply (Z.div_unique _ _ _ (c * H)); nia.
    + assert (Hc' : c = 2 \/ c = 3).
      { rewrite Hbits. destruct (Z.eqb_spec r 0); [lia|]. destruct (Z.ltb_spec (2 * r) m2); [lia|].
        destruct (Z.eqb_spec (2 * r) m2); auto. }
      symmetry. apply (Z.div_unique _ _ _ ((c - 2) * H)); nia.
  - (* the cell of Y *)
    rewrite HY.
    destruct (Z.ltb_spec (2 * r) m2) as [Hlt|Hge].
    + assert (t < H) by tauto.
      symmetry. apply (Z.div_unique _ _ _ (2 * t + st)); lia.
    + assert (H <= t) by (destruct (Z_lt_le_dec t H); [exfalso; apply HtH in l; lia|lia]).
      symmetry. apply (Z.div_unique _ _ _ (2 * t + st - 2 * H)); lia.
  - (* X on the grid *)
    rewrite HX.
    assert (Hc' : (c = 0 /\ r = 0) \/ (c = 1 /\ r <> 0 /\ 2 * r < m2) \/
                  (c = 2 /\ 2 * r = m2) \/ (c = 3 /\ r <> 0 /\ m2 < 2 * r)).
    { rewrite Hbits. destruct (Z.eqb_spec r 0); [auto|].
      destruct (Z.ltb_spec (2 * r) m2); [auto|].
      destruct (Z.eqb_spec (2 * r) m2); [auto|]. right. right. right. lia. }
    destruct Hc' as [[-> Hr]|[[-> Hr]|[[-> Hr]|[-> Hr]]]].
    + split; [auto|intros _]. symmetry. apply (Z.mod_unique _ _ (2 * q) 0); lia.
    + split; [|lia]. intros Hz.
      assert (Hmu : (4 * q + 1) * H mod (2 * H) = H)
        by (symmetry; apply (Z.mod_unique _ _ (2 * q) H); lia).
      lia.
    + split; [auto|intros _]. symmetry. apply (Z.mod_unique _ _ (2 * q + 1) 0); lia.
    + split; [|lia]. intros Hz.
      assert (Hmu : (4 * q + 3) * H mod (2 * H) = H)
        by (symmetry; apply (Z.mod_unique _ _ (2 * q + 1) H); lia).
      lia.
  - (* Y on the grid *)
    rewrite HY.
    destruct (Z_lt_le_dec t H) as [Hlt|Hge].
    + assert (Hmu : (2 * q * (2 * H) + (2 * t + st)) mod (2 * H) = 2 * t + st)
        by (symmetry; apply (Z.mod_unique _ _ (2 * q) (2 * t + st)); lia).
      rewrite Hmu. split.
      * intros Hz. left. apply Hw0; lia.
      * intros [Hr|Hr]; [destruct (Hr0 Hr); lia|destruct (HrH Hr); lia].
    + assert (Hmu : (2 * q * (2 * H) + (2 * t + st)) mod (2 * H) = 2 * t + st - 2 * H)
        by (symmetry; apply (Z.mod_unique _ _ (2 * q + 1) (2 * t + st - 2 * H)); lia).
      rewrite Hmu. split.
      * intros Hz. right. apply HwH; lia.
      * intros [Hr|Hr]; [destruct (Hr0 Hr); lia|destruct (HrH Hr); lia].
Qed.

Lemma RNc_0 (a : Z) : a <= f64_emin -> RNc a 0 = 0.
Proof.
  intros Ha. apply RNc_unclamped. change (Z.abs 0) with 0. rewrite RN_0.
  apply omega_pos. exact Ha.
Qed.

Lemma js_le_zero_inv (x : number) :
  js_le js_zero x = true ->
  (exists s, x = S754_zero s) \/ (exists m e, x = S754_finite false m e) \/
  x = S754_infinity false.
Proof.
  unfold js_le, js_zero.
  destruct x as [s|s| |s m e]; cbn -[Z.pow Z.mul]; try discriminate.
  - eauto.
  - destruct s; [discriminate|auto].
  - rewrite Z.sub_diag. change (2 ^ 0) with 1. rewrite Z.mul_1_r.
    destruct s; cbn; [discriminate|eauto].
Qed.

Lemma js_lt_zero_inv (x : number) :
  js_lt js_zero x = true ->
  (exists m e, x = S754_finite false m e) \/ x = S754_infinity false.
Proof. apply js_gt_zero_cases. Qed.

Lemma sticky_pos (N D : Z) : 0 < N -> 0 < D -> 0 < sticky N D.
Proof.
  intros HN HD. unfold sticky.
  pose proof (Z.div_mod N D ltac:(lia)) as E.
  pose proof (Z.mod_pos_bound N D HD) as B.
  assert (0 <= N / D) by (apply Z.div_pos; lia).
  destruct (Z.eqb_spec (N mod D) 0); nia.
Qed.

Lemma div_exp_ge (d1 e1 d2 e2 : Z) :
  f64_emin <= e1 -> e2 <= 971 -> -2045 <= div_exp d1 e1 d2 e2.
Proof.
  intros H1 H2. unfold div_exp. pose proof (f64_fexp_ge_emin (d1 + e1 - (d2 + e2))).
  unfold f64_emin in *. lia.
Qed.

(** The quotient of two finite numbers is the rounding of their exact
    quotient. *)
Lemma js_div_rounds (sx sy : bool) (mx my : positive) (ex ey c : Z) :
  okf (S754_finite sx mx ex) = true -> okf (S754_finite sy my ey) = true ->
  c <= -2047 ->
  encodes c (xorb sx sy)
    (RN c (sticky (Zpos mx * 2 ^ (ex - ey - c - 1)) (Zpos my)))
    (js_div (S754_finite sx mx ex) (S754_finite sy my ey)).
Proof.
  intros Hox Hoy Hc.
  pose proof (proj1 (okf_finite _ _ _) Hox) as (Hex & Hex' & Hdx).
  pose proof (proj1 (okf_finite _ _ _) Hoy) as (Hey & Hey' & Hdy).
  destruct (js_div_sticky sx sy mx my ex ey Hdx) as (Hpos & HE & ->).
  destruct (div_core_facts mx my ex ey Hdx) as (Hs & Hdm & Hr & Hq0 & _ & Hbig & Hzero).
  pose proof (div_exp_ge (digitsZ (Zpos mx)) ex (digitsZ (Zpos my)) ey Hex Hey') as He'.
  revert Hpos HE Hs Hdm Hr Hq0 Hbig Hzero He'. cbn zeta.
  set (e' := div_exp (digitsZ (Zpos mx)) ex (digitsZ (Zpos my)) ey).
  set (s := ex - ey - e').
  set (q := (Zpos mx * 2 ^ s) / Zpos my).
  set (r := (Zpos mx * 2 ^ s) mod Zpos my).
  set (X0 := 4 * q + remainder_bits r (Zpos my)).
  intros Hpos HE Hs Hdm Hr Hq0 Hbig Hzero He'.
  assert (Hce : c <= e' - 2) by lia.
  assert (Hcm : c <= f64_emin) by (unfold f64_emin; lia).
  set (J := e' - c - 1). assert (HJ : 1 <= J) by (unfold J; lia).
  pose proof (pow2_pos s Hs) as Hps.
  pose proof (pow2_pos (J - 1) ltac:(lia)) as HpJ1.
  (* the two integers round alike *)
  assert (HN : Zpos mx * 2 ^ (ex - ey - c - 1) = (Zpos mx * 2 ^ s) * 2 ^ J).
  { rewrite <- Z.mul_assoc, <- pow2_split by lia. do 2 f_equal. unfold s, J. lia. }
  destruct (div_cell (Zpos mx * 2 ^ s) (Zpos my) J ltac:(lia) ltac:(lia) HJ)
    as (HXd & HYd & HXm & HYm).
  fold q in HXd, HYd, HXm, HYm. fold r in HXd, HYd, HXm, HYm.
  fold X0 in HXd, HXm.
  assert (Hgrid : RN c (X0 * 2 ^ (J - 1)) = RN c (sticky (Zpos mx * 2 ^ (ex - ey - c - 1)) (Zpos my))).
  { rewrite HN. apply (RN_grid c J).
    - lia.
    - nia.
    - apply sticky_pos; nia.
    - rewrite HXd, HYd. reflexivity.
    - rewrite HXm, HYm. reflexivity.
    - rewrite digitsZ_mul_pow2 by lia.
      replace (digitsZ X0 + (J - 1) + c) with (digitsZ X0 + (e' - 2)) by (unfold J; lia).
      unfold J. lia.
    - rewrite HXd. intros H0.
      assert (Hq : q = 0) by (destruct (2 * r <? Zpos my); lia).
      destruct (Hzero Hq) as [Hle _]. unfold J. lia. }
  rewrite <- Hgrid.
  destruct X0 as [|p|p] eqn:HX0; try lia.
  replace (J - 1) with (e' - 2 - c) by (unfold J; lia).
  apply (encodes_or_weaken (971 < e' - 2)); [|apply bra_spec; assumption].
  intros HP. right.
  apply RN_beyond; [exact Hcm|].
  destruct (Hbig ltac:(unfold f64_emin; lia)) as [_ Hq52].
  assert (H1 : 2 ^ (f64_emax - c) <= 2 ^ 54 * 2 ^ (e' - 2 - c)).
  { rewrite <- pow2_split by lia. apply pow2_le. unfold f64_emax. lia. }
  pose proof (remainder_bits_range r (Zpos my)) as Hrb.
  assert (H2 : 2 ^ 54 * 2 ^ (e' - 2 - c) <= Zpos p * 2 ^ (e' - 2 - c)).
  { apply Z.mul_le_mono_nonneg_r; [apply Z.lt_le_incl, pow2_pos; lia|].
    change (2 ^ 54) with (4 * 2 ^ 52). lia. }
  lia.
Qed.

(** The key of a quotient of a non-negative by a positive number is the
    rounding of the sticky quotient of the keys. *)
Lemma js_div_key (x y : number) (b c : Z) :
  okf x = true -> js_le js_zero x = true ->
  okf y = true -> js_lt js_zero y = true ->
  b <= f64_emin -> c <= -2047 ->
  xkey c (js_div x y) = RNc c (sticky (sval b x * 2 ^ (- c - 1)) (sval b y)).
Proof.
  intros Hox Hx Hoy Hy Hb Hc.
  assert (Hcm : c <= f64_emin) by (unfold f64_emin; lia).
  destruct (js_lt_zero_inv y Hy) as [(my & ey & ->)| ->]; [|discriminate].
  destruct (js_le_zero_inv x Hx) as [(sx & ->)|[(mx & ex & ->)| ->]]; [| |discriminate].
  - cbn [js_div SFdiv xkey sval]. rewrite Z.mul_0_l, sticky_0, RNc_0 by exact Hcm. reflexivity.
  - pose proof (proj1 (okf_finite _ _ _) Hox) as (Hex & Hex' & Hdx).
    pose proof (proj1 (okf_finite _ _ _) Hoy) as (Hey & Hey' & Hdy).
    unfold f64_emin in Hex, Hey, Hb.
    pose proof (js_div_rounds false false mx my ex ey c Hox Hoy Hc) as Henc.
    cbn [sval cond_Zopp].
    assert (Hst : sticky (Zpos mx * 2 ^ (ex - b) * 2 ^ (- c - 1)) (Zpos my * 2 ^ (ey - b))
                  = sticky (Zpos mx * 2 ^ (ex - ey - c - 1)) (Zpos my)).
    { rewrite <- (sticky_scale (Zpos mx * 2 ^ (ex - ey - c - 1)) (Zpos my) (2 ^ (ey - b)))
        by (try apply pow2_pos; lia).
      f_equal. rewrite <- !Z.mul_assoc, <- !pow2_split by lia. do 2 f_equal. lia. }
    rewrite Hst.
    set (Y := sticky (Zpos mx * 2 ^ (ex - ey - c - 1)) (Zpos my)) in *.
    assert (HY : 0 < Y).
    { apply sticky_pos; [|lia]. pose proof (pow2_pos (ex - ey - c - 1) ltac:(lia)). nia. }
    apply rounds_to_xkey; [exact Hcm|].
    apply (encodes_rounds_to _ _ false); [exact Hcm|lia| |].
    + symmetry. apply Z.ltb_ge. lia.
    + rewrite Z.abs_eq by lia. exact Henc.
Qed.

Lemma js_div_not_nan (x y : number) :
  is_nan x = false -> is_finite y = true -> js_lt js_zero y = true ->
  is_nan (js_div x y) = false.
Proof.
  intros Hx Hy Hpos.
  destruct (js_lt_zero_inv y Hpos) as [(my & ey & ->)| ->]; [|discriminate].
  destruct x as [sx|sx| |sx mx ex]; try discriminate; try reflexivity.
  apply js_div_finite_sign.
Qed.

(** Division by a positive number is monotone on the non-negative
    numbers. *)
Lemma js_div_mono (x x' y : number) :
  is_double x = true -> is_double x' = true -> is_double y = true ->
  js_le js_zero x = true -> js_le x x' = true ->
  is_finite y = true -> js_lt js_zero y = true ->
  js_le (js_div x y) (js_div x' y) = true.
Proof.
  intros Dx Dx' Dy H0 Hxx Fy Hy.
  destruct (js_le_not_nan _ _ Hxx) as [Nx Nx'].
  pose proof (dnum_intro x Dx Nx) as Kx. pose proof (dnum_intro x' Dx' Nx') as Kx'.
  pose proof (is_double_okf y Dy Fy) as Hoy.
  assert (Ha : f64_emin <= f64_emin) by lia.
  assert (Hc : -2047 <= f64_emin) by (unfold f64_emin; lia).
  pose proof (js_div_not_nan x y Nx Fy Hy) as Nr.
  pose proof (js_div_not_nan x' y Nx' Fy Hy) as Nr'.
  pose proof (dnum_intro _ (js_div_double x y Dx Dy) Nr) as Kr.
  pose proof (dnum_intro _ (js_div_double x' y Dx' Dy) Nr') as Kr'.
  pose proof (proj1 (js_le_dnum js_zero x f64_emin eq_refl Kx Ha) H0) as H0k.
  pose proof (proj1 (js_le_dnum x x' f64_emin Kx Kx' Ha) Hxx) as Hxk.
  rewrite xkey_zero in H0k.
  destruct (dnum_cases x' Kx') as [[Hox' _]|[sx' ->]].
  - (* both numerators are finite *)
    assert (Hox : okf x = true).
    { destruct (dnum_cases x Kx) as [[Hox _]|[sx ->]]; [exact Hox|exfalso].
      pose proof (okf_bound x' f64_emin Hox' Ha) as Hb. rewrite <- (xkey_okf _ _ Hox') in Hb.
      pose proof (inf_key_big f64_emin Ha). pose proof (omega_pos f64_emin Ha).
      destruct sx; cbn [xkey cond_Zopp] in *; lia. }
    assert (H0' : js_le js_zero x' = true).
    { apply (js_le_dnum js_zero x' f64_emin eq_refl Kx' Ha). rewrite xkey_zero. lia. }
    apply (js_le_dnum _ _ (-2047) Kr Kr' Hc).
    rewrite (js_div_key x y f64_emin (-2047)) by (try assumption; lia).
    rewrite (js_div_key x' y f64_emin (-2047)) by (try assumption; lia).
    apply RNc_mono; [exact Hc|].
    rewrite (xkey_okf _ _ Hox), (xkey_okf _ _ Hox') in Hxk.
    assert (HD : 0 < sval f64_emin y).
    { apply (js_lt_sval js_zero y f64_emin eq_refl Hoy Ha) in Hy. exact Hy. }
    apply sticky_mono; [exact HD|].
    apply Z.mul_le_mono_nonneg_r; [|exact Hxk].
    apply Z.lt_le_incl, pow2_pos. lia.
  - (* the greater numerator is infinite *)
    destruct sx'.
    { pose proof (inf_key_big f64_emin Ha). pose proof (omega_pos f64_emin Ha).
      cbn [xkey cond_Zopp] in Hxk. lia. }
    destruct (js_lt_zero_inv y Hy) as [(my & ey & ->)| ->]; [|discriminate].
    cbn [js_div SFdiv xorb].
    destruct (js_div x (S754_finite false my ey)) as [s|[]| |s m e]; try discriminate; reflexivity.
Qed.

(* ===================================================================== *)
(** * 23. The relative error of the operators *)
(* ===================================================================== *)

(** ** The error of one rounding *)

Lemma round_shift_err (n M : Z) :
  0 <= n -> 0 <= M -> 2 * Z.abs (round_shift n M * 2 ^ n - M) <= 2 ^ n.
Proof.
  intros Hn HM. unfold round_shift.
  pose proof (pow2_pos n Hn) as Hp.
  pose proof (Z.div_mod M (2 ^ n) ltac:(lia)) as E.
  pose proof (Z.mod_pos_bound M (2 ^ n) Hp) as B.
  set (q := M / 2 ^ n) in *. set (r := M mod 2 ^ n) in *.
  destruct (Z.ltb_spec (2 ^ n) (2 * r)) as [H1|H1]; cbn [orb].
  - rewrite Z.abs_eq by nia. nia.
  - destruct (Z.eqb_spec (2 ^ n) (2 * r)) as [H2|H2]; cbn [andb].
    + destruct (Z.odd q).
      * rewrite Z.abs_eq by nia. nia.
      * rewrite Z.abs_neq by nia. nia.
    + rewrite Z.abs_neq by nia. nia.
Qed.

(** A rounding that lands in the normal range is within [2^-52] of the
    exact value, relatively. *)
Lemma RN_rel (a M : Z) :
  a <= f64_emin -> 0 < M -> 2 ^ (-1022 - a) <= RN a M ->
  2 ^ 52 * Z.abs (RN a M - M) <= M.
Proof.
  intros Ha HM Hnorm. unfold RN in *.
  destruct (Z.leb_spec M 0) as [Hc|_]; [lia|].
  pose proof (digitsZ_bounds M HM) as [Hlo Hhi]. pose proof (digitsZ_pos M HM) as Hk.
  set (k := digitsZ M) in *.
  set (n := f64_fexp (k + a) - a) in *.
  assert (Hn0 : 0 <= n) by (unfold n, f64_fexp, f64_prec, f64_emin in *; lia).
  pose proof (round_shift_err n M Hn0 ltac:(lia)) as Herr.
  set (R := round_shift n M * 2 ^ n) in *.
  destruct (Z.eq_dec n 0) as [Hz|Hz].
  { unfold R. rewrite Hz, round_shift_0. change (2 ^ 0) with 1.
    replace (M * 1 - M) with 0 by lia. cbn. lia. }
  assert (Hn1 : 1 <= n) by lia.
  assert (H2n : 2 ^ n = 2 * 2 ^ (n - 1)).
  { replace n with (1 + (n - 1)) at 1 by lia. rewrite pow2_split by lia. reflexivity. }
  assert (H52 : 2 ^ (n + 51) = 2 ^ 52 * 2 ^ (n - 1)).
  { rewrite <- pow2_split by lia. f_equal. lia. }
  pose proof (pow2_pos (n - 1) ltac:(lia)) as Hp1.
  assert (Hgoal : 2 ^ (n + 51) <= M -> 2 ^ 52 * Z.abs (R - M) <= M).
  { intros HMge. nia. }
  apply Hgoal.
  destruct (Z_le_gt_dec f64_emin (k + a - 53)) as [Hbr|Hbr].
  - assert (n = k - 53) by (unfold n, f64_fexp, f64_prec, f64_emin in *; lia).
    replace (n + 51) with (k - 1 - 1) by lia.
    assert (2 ^ (k - 1 - 1) <= 2 ^ (k - 1)) by (apply pow2_le; lia). lia.
  - assert (Hn : n = f64_emin - a) by (unfold n, f64_fexp, f64_prec, f64_emin in *; lia).
    assert (HL : 2 ^ (-1022 - a) = 2 ^ 53 * 2 ^ (n - 1)).
    { rewrite <- pow2_split by lia. f_equal. unfold f64_emin in *. lia. }
    rewrite HL in Hnorm. rewrite H52.
    change (2 ^ 53) with (2 * 2 ^ 52) in Hnorm.
    pose proof (pow2_pos 52 ltac:(lia)) as Hp52.
    assert (Habs : Z.abs (R - M) <= 2 ^ (n - 1)) by lia.
    assert (R - M <= 2 ^ (n - 1)) by lia.
    nia.
Qed.

(** On the grid of [2 ^ emin] every rounding is that accurate. *)
Lemma RN_rel_emin (M : Z) : 0 < M -> 2 ^ 52 * Z.abs (RN f64_emin M - M) <= M.
Proof.
  intros HM. unfold RN.
  destruct (Z.leb_spec M 0) as [Hc|_]; [lia|].
  pose proof (digitsZ_bounds M HM) as [Hlo Hhi]. pose proof (digitsZ_pos M HM) as Hk.
  set (k := digitsZ M) in *.
  set (n := f64_fexp (k + f64_emin) - f64_emin) in *.
  assert (Hn : n = Z.max (k - 53) 0) by (unfold n, f64_fexp, f64_prec, f64_emin; lia).
  assert (Hn0 : 0 <= n) by lia.
  pose proof (round_shift_err n M Hn0 ltac:(lia)) as Herr.
  set (R := round_shift n M * 2 ^ n) in *.
  destruct (Z.eq_dec n 0) as [Hz|Hz].
  { unfold R. rewrite Hz, round_shift_0. change (2 ^ 0) with 1.
    replace (M * 1 - M) with 0 by lia. cbn. lia. }
  assert (Hn1 : 1 <= n) by lia.
  assert (H2n : 2 ^ n = 2 * 2 ^ (n - 1)).
  { replace n with (1 + (n - 1)) at 1 by lia. rewrite pow2_split by lia. reflexivity. }
  assert (H52 : 2 ^ (k - 1) = 2 ^ 52 * (2 * 2 ^ (n - 1))).
  { rewrite <- H2n, <- pow2_split by lia. f_equal. lia. }
  pose proof (pow2_pos (n - 1) ltac:(lia)) as Hp1.
  assert (Habs : Z.abs (R - M) <= 2 ^ (n - 1)) by lia.
  change (2 ^ 52) with 4503599627370496 in *. lia.
Qed.

Lemma RNs_rel (a V : Z) :
  a <= f64_emin ->
  V = 0 \/ 2 ^ (-1022 - a) <= Z.abs (RNs a V) ->
  2 ^ 52 * Z.abs (RNs a V - V) <= Z.abs V.
Proof.
  intros Ha [->|Hn]; [rewrite RNs_0; cbn; lia|].
  rewrite RNs_abs in Hn by exact Ha.
  assert (HV : V <> 0).
  { intros ->. change (Z.abs 0) with 0 in Hn. rewrite RN_0 in Hn.
    pose proof (pow2_pos (-1022 - a) ltac:(unfold f64_emin in *; lia)). lia. }
  pose proof (RN_rel a (Z.abs V) Ha ltac:(lia) Hn) as H.
  unfold RNs.
  destruct (Z.sgn_spec V) as [[H0 ->]|[[H0 ->]|[H0 ->]]]; [|lia|].
  - rewrite (Z.abs_eq V) in * by lia.
    replace (1 * RN a V - V) with (RN a V - V) by lia. exact H.
  - rewrite (Z.abs_neq V) in * by lia.
    replace (Z.abs (- (1) * RN a (- V) - V)) with (Z.abs (RN a (- V) - - V)) by lia.
    exact H.
Qed.

Lemma RNs_rel_emin (V : Z) : 2 ^ 52 * Z.abs (RNs f64_emin V - V) <= Z.abs V.
Proof.
  unfold RNs.
  destruct (Z.sgn_spec V) as [[H0 ->]|[[H0 ->]|[H0 ->]]].
  - pose proof (RN_rel_emin (Z.abs V) ltac:(lia)) as H.
    rewrite (Z.abs_eq V) in * by lia.
    replace (1 * RN f64_emin V - V) with (RN f64_emin V - V) by lia. exact H.
  - subst V. cbn. lia.
  - pose proof (RN_rel_emin (Z.abs V) ltac:(lia)) as H.
    rewrite (Z.abs_neq V) in * by lia.
    replace (Z.abs (- (1) * RN f64_emin (- V) - V))
      with (Z.abs (RN f64_emin (- V) - - V)) by lia.
    exact H.
Qed.

Lemma pow2Q_pos (a : Z) : (0 < 2 ^ a)%Q.
Proof. apply Qpower_0_lt. reflexivity. Qed.

Lemma pow2Q_add (a b : Z) : (2 ^ (a + b) == 2 ^ a * 2 ^ b)%Q.
Proof. apply Qpower_plus. discriminate. Qed.

Lemma pow2Q_inject (k : Z) : 0 <= k -> (inject_Z (2 ^ k) == 2 ^ k)%Q.
Proof. intros Hk. rewrite Zpower_Qpower by exact Hk. reflexivity. Qed.

Lemma toQ_sval (x : number) (a : Z) :
  is_finite x = true -> (forall s m e, x = S754_finite s m e -> a <= e) ->
  (toQ x == inject_Z (sval a x) * 2 ^ a)%Q.
Proof.
  intros Hf Ha. destruct x as [s|s| |s m e]; try discriminate; cbn [toQ sval].
  - ring.
  - specialize (Ha s m e eq_refl).
    assert (E : cond_Zopp s (Zpos m * 2 ^ (e - a)) = cond_Zopp s (Zpos m) * 2 ^ (e - a))
      by (destruct s; cbn [cond_Zopp]; lia).
    rewrite E, inject_Z_mult, pow2Q_inject by lia.
    replace e with ((e - a) + a) at 1 by lia. rewrite pow2Q_add. ring.
Qed.

Lemma toQ_okf (x : number) (a : Z) :
  okf x = true -> a <= f64_emin -> (toQ x == inject_Z (sval a x) * 2 ^ a)%Q.
Proof.
  intros Hok Ha. apply toQ_sval.
  - destruct x; try discriminate; reflexivity.
  - intros s m e ->. apply (proj1 (okf_finite _ _ _)) in Hok. lia.
Qed.

Lemma Qabs_inject_Z (z : Z) : (Qabs (inject_Z z) == inject_Z (Z.abs z))%Q.
Proof.
  destruct (Z_le_gt_dec 0 z) as [H|H].
  - rewrite Z.abs_eq by lia. apply Qabs_pos. rewrite Zle_Qle in H. exact H.
  - rewrite Z.abs_neq by lia. rewrite Qabs_neg.
    + rewrite inject_Z_opp. reflexivity.
    + assert (H' : z <= 0) by lia. rewrite Zle_Qle in H'. exact H'.
Qed.

(** An integer error bound as a relative error of scaled values. *)
Lemma approx_int (R V c : Z) :
  2 ^ 52 * Z.abs (R - V) <= Z.abs V ->
  approx eps52 (inject_Z R * 2 ^ c) (inject_Z V * 2 ^ c).
Proof.
  intros H. unfold approx.
  pose proof (pow2Q_pos c) as Hp.
  assert (E : (inject_Z R * 2 ^ c - inject_Z V * 2 ^ c == inject_Z (R - V) * 2 ^ c)%Q).
  { unfold Z.sub. rewrite inject_Z_plus, inject_Z_opp. ring. }
  rewrite E, !Qabs_Qmult, !Qabs_inject_Z, (Qabs_pos (2 ^ c)) by lra.
  change (2 ^ 52) with 4503599627370496 in H.
  rewrite Zle_Qle, inject_Z_mult in H.
  set (u := inject_Z (Z.abs (R - V))) in *. set (v := inject_Z (Z.abs V)) in *.
  change (inject_Z 4503599627370496) with (4503599627370496 # 1) in H.
  unfold eps52. set (p := (2 ^ c)%Q) in *.
  assert (Hu : (0 <= u)%Q) by (unfold u; rewrite <- (Zle_Qle 0); lia).
  nra.
Qed.

Lemma approx_refl (d x : Q) : (0 <= d)%Q -> approx d x x.
Proof.
  intros Hd. unfold approx.
  assert (E : (x - x == 0)%Q) by ring. rewrite E.
  pose proof (Qabs_nonneg x). change (Qabs 0) with 0%Q. nra.
Qed.

Lemma approx_weaken (d d' x e : Q) : (d <= d')%Q -> approx d x e -> approx d' x e.
Proof.
  unfold approx. intros Hd H. pose proof (Qabs_nonneg e). nra.
Qed.

Lemma approx_wd (d x x' e e' : Q) :
  (x == x')%Q -> (e == e')%Q -> approx d x e -> approx d x' e'.
Proof. unfold approx. intros -> ->. tauto. Qed.

Lemma approx_bound (d x e : Q) : approx d x e -> (Qabs x <= (1 + d) * Qabs e)%Q.
Proof.
  unfold approx. intros H.
  assert (E : (x == (x - e) + e)%Q) by ring.
  pose proof (Qabs_triangle (x - e) e) as T. rewrite <- E in T. lra.
Qed.

(** Errors compose: products and transitivity. *)
Lemma approx_mul (d1 d2 x ex y ey : Q) :
  (0 <= d1)%Q -> (0 <= d2)%Q ->
  approx d1 x ex -> approx d2 y ey ->
  approx (d1 + d2 + d1 * d2) (x * y) (ex * ey).
Proof.
  intros H1 H2 Hx Hy. pose proof (approx_bound _ _ _ Hy) as By.
  unfold approx in *.
  assert (E : (x * y - ex * ey == (x - ex) * y + ex * (y - ey))%Q) by ring.
  pose proof (Qabs_triangle ((x - ex) * y) (ex * (y - ey))) as T.
  rewrite <- E, !Qabs_Qmult in T. rewrite Qabs_Qmult.
  pose proof (Qabs_nonneg (x - ex)). pose proof (Qabs_nonneg y).
  pose proof (Qabs_nonneg (y - ey)). pose proof (Qabs_nonneg ex). pose proof (Qabs_nonneg ey).
  set (a := Qabs (x - ex)) in *. set (b := Qabs y) in *. set (c := Qabs (y - ey)) in *.
  set (E1 := Qabs ex) in *. set (E2 := Qabs ey) in *. set (Z0 := Qabs (x * y - ex * ey)) in *.
  assert (Hab : (a * b <= d1 * E1 * ((1 + d2) * E2))%Q).
  { apply Qmult_le_compat_nonneg; lra. }
  assert (Hc : (E1 * c <= E1 * (d2 * E2))%Q).
  { nra. }
  nra.
Qed.

Lemma approx_trans (d1 d2 z x e : Q) :
  (0 <= d1)%Q -> (0 <= d2)%Q ->
  approx d1 z x -> approx d2 x e -> approx (d1 + d2 + d1 * d2) z e.
Proof.
  intros H1 H2 Hz Hx. pose proof (approx_bound _ _ _ Hx) as Bx.
  unfold approx in *.
  assert (E : (z - e == (z - x) + (x - e))%Q) by ring.
  pose proof (Qabs_triangle (z - x) (x - e)) as T. rewrite <- E in T.
  pose proof (Qabs_nonneg x). pose proof (Qabs_nonneg e).
  set (E1 := Qabs x) in *. set (E2 := Qabs e) in *.
  assert (Hc : (d1 * E1 <= d1 * ((1 + d2) * E2))%Q).
  { nra. }
  nra.
Qed.

Lemma sval_abs (x : number) (a : Z) : sval a (js_abs x) = Z.abs (sval a x).
Proof.
  destruct x as [s|s| |s m e]; try reflexivity. cbn [js_abs SFabs sval cond_Zopp].
  destruct (Z_le_gt_dec a e) as [H|H].
  - pose proof (pow2_pos (e - a) ltac:(lia)). destruct s; cbn [cond_Zopp]; nia.
  - rewrite (Z.pow_neg_r 2 (e - a)) by lia. destruct s; cbn [cond_Zopp]; lia.
Qed.

Lemma okf_abs (x : number) : okf x = true -> okf (js_abs x) = true.
Proof. destruct x; try discriminate; auto. Qed.

Lemma is_normal_sval (x : number) (a : Z) :
  okf x = true -> a <= f64_emin -> is_normal x = true ->
  2 ^ (-1022 - a) <= Z.abs (sval a x).
Proof.
  intros Hok Ha Hn. unfold is_normal in Hn. apply andb_true_iff in Hn. destruct Hn as [_ Hn].
  apply (js_le_sval min_normal (js_abs x) a eq_refl (okf_abs x Hok) Ha) in Hn.
  rewrite sval_abs in Hn.
  assert (E : sval a min_normal = 2 ^ (-1022 - a)).
  { unfold min_normal. cbn [sval cond_Zopp]. change 4503599627370496 with (2 ^ 52).
    rewrite <- pow2_split by (unfold f64_emin in *; lia). f_equal. lia. }
  rewrite E in Hn. exact Hn.
Qed.

Lemma is_zero_sval (x : number) (a : Z) : is_zero x = true -> sval a x = 0.
Proof. destruct x; try discriminate; reflexivity. Qed.

Lemma rounds_to_finite (a V : Z) (r : number) :
  rounds_to a V r -> is_finite r = true -> okf r = true /\ sval a r = RNs a V.
Proof.
  intros [H|(s & -> & _)] Hf; [exact H|discriminate].
Qed.

Lemma approx_rounded (r : number) (c V : Z) (e : Q) :
  okf r = true -> c <= f64_emin -> sval c r = RNs c V ->
  2 ^ 52 * Z.abs (RNs c V - V) <= Z.abs V ->
  (e == inject_Z V * 2 ^ c)%Q ->
  approx eps52 (toQ r) e.
Proof.
  intros Or Hc Hv Herr He.
  apply (approx_wd eps52 (inject_Z (RNs c V) * 2 ^ c) _ (inject_Z V * 2 ^ c) _).
  - rewrite <- Hv. symmetry. apply toQ_okf; assumption.
  - symmetry. exact He.
  - apply approx_int. exact Herr.
Qed.

(** A finite product of two finite doubles is the exact product up to
    [2^-52], unless it underflows. *)
Lemma js_mul_approx (x y : number) :
  is_double x = true -> is_double y = true ->
  is_finite x = true -> is_finite y = true ->
  is_finite (js_mul x y) = true ->
  is_normal (js_mul x y) || is_zero x || is_zero y = true ->
  approx eps52 (toQ (js_mul x y)) (toQ x * toQ y).
Proof.
  intros Dx Dy Fx Fy Fr Hn.
  pose proof (is_double_okf x Dx Fx) as Ox. pose proof (is_double_okf y Dy Fy) as Oy.
  assert (Ha : f64_emin <= f64_emin) by lia.
  assert (Hc : f64_emin + f64_emin <= f64_emin) by (unfold f64_emin; lia).
  destruct (rounds_to_finite _ _ _ (js_mul_rounds x y f64_emin f64_emin Ox Dx Oy Dy Ha Ha) Fr)
    as [Or Hv].
  apply (approx_rounded _ (f64_emin + f64_emin) (sval f64_emin x * sval f64_emin y) _ Or Hc Hv).
  - apply RNs_rel; [exact Hc|].
    rewrite !orb_true_iff in Hn. destruct Hn as [[Hn|Hz]|Hz].
    + right. rewrite <- Hv. apply is_normal_sval; assumption.
    + left. rewrite (is_zero_sval x _ Hz). lia.
    + left. rewrite (is_zero_sval y _ Hz). lia.
  - rewrite (toQ_okf x f64_emin Ox Ha), (toQ_okf y f64_emin Oy Ha).
    rewrite pow2Q_add, inject_Z_mult. ring.
Qed.

(** A finite difference of two finite numbers is the exact difference up
    to [2^-52]. *)
Lemma js_sub_approx (x y : number) :
  okf x = true -> okf y = true -> is_finite (js_sub x y) = true ->
  approx eps52 (toQ (js_sub x y)) (toQ x - toQ y).
Proof.
  intros Ox Oy Fr. assert (Ha : f64_emin <= f64_emin) by lia.
  destruct (rounds_to_finite _ _ _ (js_sub_spec x y f64_emin Ox Oy Ha) Fr) as [Or Hv].
  apply (approx_rounded _ f64_emin (sval f64_emin x - sval f64_emin y) _ Or Ha Hv).
  - apply RNs_rel_emin.
  - rewrite (toQ_okf x f64_emin Ox Ha), (toQ_okf y f64_emin Oy Ha).
    unfold Z.sub. rewrite inject_Z_plus, inject_Z_opp. ring.
Qed.

(** [1 - f] does not overflow. *)
Lemma okf_sval_bound (f : number) :
  okf f = true -> Z.abs (sval f64_emin f) <= (2 ^ 53 - 1) * 2 ^ 2045.
Proof.
  intros Of.
  pose proof (pow2_pos 2045 ltac:(lia)) as HB.
  remember (2 ^ 2045) as B eqn:EB.
  change (2 ^ 53 - 1) with 9007199254740991.
  destruct f as [s'|s'| |s' m e]; try discriminate.
  - cbn [sval Z.abs]. lia.
  - apply (proj1 (okf_finite _ _ _)) in Of. destruct Of as (He & He' & Hd).
    pose proof (digitsZ_bounds (Zpos m) ltac:(lia)) as [_ Hhi].
    assert (H53 : 2 ^ digitsZ (Zpos m) <= 2 ^ 53).
    { apply pow2_le. pose proof (digitsZ_pos (Zpos m) ltac:(lia)). lia. }
    change (2 ^ 53) with 9007199254740992 in H53.
    unfold f64_emin in *. cbn [sval].
    assert (Hpe : 2 ^ (e - -1074) <= B) by (rewrite EB; apply pow2_le; lia).
    pose proof (pow2_pos (e - -1074) ltac:(lia)) as Hp.
    remember (2 ^ (e - -1074)) as J eqn:EJ.
    assert (Hm : Zpos m * J <= 9007199254740991 * B).
    { apply Z.mul_le_mono_nonneg; lia. }
    destruct s'; cbn [cond_Zopp]; lia.
Qed.

Lemma js_sub_one_finite (f : number) : okf f = true -> is_finite (js_sub js_one f) = true.
Proof.
  intros Of. assert (Ha : f64_emin <= f64_emin) by lia.
  pose proof (js_sub_spec js_one f f64_emin eq_refl Of Ha) as [[Or _]|(s & E & _ & [[]|Hbig])].
  { destruct (js_sub js_one f); try discriminate; reflexivity. }
  exfalso.
  assert (HU : RN f64_emin (2 ^ 1074 + (2 ^ 53 - 1) * 2 ^ 2045) < 2 ^ (f64_emax - f64_emin))
    by (vm_compute; reflexivity).
  pose proof (okf_sval_bound f Of) as Hf.
  assert (Hone : sval f64_emin js_one = 2 ^ 1074) by reflexivity.
  rewrite Hone in Hbig.
  pose proof (pow2_pos 1074 ltac:(lia)) as H1074.
  remember (2 ^ 1074) as A1 eqn:EA. remember ((2 ^ 53 - 1) * 2 ^ 2045) as U1 eqn:EU.
  remember (2 ^ (f64_emax - f64_emin)) as W eqn:EW.
  pose proof (RN_mono f64_emin (Z.abs (A1 - sval f64_emin f)) (A1 + U1) Ha ltac:(lia)).
  lia.
Qed.

Lemma approx_opp (d x e : Q) : approx d x e -> approx d (- x) (- e).
Proof.
  unfold approx. intros H.
  assert (E : (- x - - e == - (x - e))%Q) by ring.
  rewrite E, !Qabs_opp. exact H.
Qed.

(** The sticky quotient is within one unit of twice the exact quotient. *)
Lemma sticky_near (N D : Z) :
  0 <= N -> 0 < D -> Z.abs (sticky N D * D - 2 * N) <= D.
Proof.
  intros HN HD. unfold sticky.
  pose proof (Z.div_mod N D ltac:(lia)) as E.
  pose proof (Z.mod_pos_bound N D HD) as B.
  destruct (Z.eqb_spec (N mod D) 0) as [H0|H0]; nia.
Qed.

(** Rounding the sticky quotient into the normal range gives the exact
    quotient up to [2^-50]. *)
Lemma RN_sticky_approx (c N D : Z) :
  c <= -2047 -> 0 < N -> 0 < D ->
  2 ^ (-1022 - c) <= RN c (sticky N D) ->
  approx eps50 (inject_Z (RN c (sticky N D))) (2 * inject_Z N / inject_Z D).
Proof.
  intros Hc HN HD Hnorm.
  assert (Hcm : c <= f64_emin) by (unfold f64_emin; lia).
  pose proof (sticky_pos N D HN HD) as HS.
  pose proof (RN_rel c (sticky N D) Hcm HS Hnorm) as Hrel.
  pose proof (sticky_near N D ltac:(lia) HD) as Hnear.
  assert (Hbig : 2 ^ 60 <= RN c (sticky N D)).
  { assert (2 ^ 60 <= 2 ^ (-1022 - c)) by (apply pow2_le; lia). lia. }
  set (S := sticky N D) in *. set (R := RN c S) in *.
  change (2 ^ 52) with 4503599627370496 in Hrel.
  change (2 ^ 60) with 1152921504606846976 in Hbig.
  (* to the rationals *)
  assert (HD' : (0 < inject_Z D)%Q) by (rewrite <- (Zlt_Qlt 0); exact HD).
  assert (HN' : (0 < inject_Z N)%Q) by (rewrite <- (Zlt_Qlt 0); exact HN).
  assert (HS' : (0 < inject_Z S)%Q) by (rewrite <- (Zlt_Qlt 0); exact HS).
  unfold approx. set (t := (2 * inject_Z N / inject_Z D)%Q).
  assert (Ht : (t * inject_Z D == 2 * inject_Z N)%Q).
  { unfold t. field. lra. }
  (* the two integer bounds as rational bounds *)
  assert (Q1 : (Qabs (inject_Z R - inject_Z S) * 4503599627370496 <= inject_Z S)%Q).
  { assert (E1 : (inject_Z R - inject_Z S == inject_Z (R - S))%Q)
      by (unfold Z.sub; rewrite inject_Z_plus, inject_Z_opp; ring).
    rewrite E1, Qabs_inject_Z.
    change (4503599627370496%Q) with (inject_Z 4503599627370496).
    rewrite <- inject_Z_mult, <- Zle_Qle. lia. }
  assert (Q2 : (Qabs (inject_Z S - t) <= 1)%Q).
  { apply Qabs_Qle_condition.
    assert (Hn1 : (- inject_Z D <= inject_Z S * inject_Z D - 2 * inject_Z N <= inject_Z D)%Q).
    { change 2%Q with (inject_Z 2).
      rewrite <- !inject_Z_mult, <- inject_Z_opp.
      assert (E2 : (inject_Z (S * D) - inject_Z (2 * N) == inject_Z (S * D - 2 * N))%Q)
        by (unfold Z.sub; rewrite inject_Z_plus, inject_Z_opp; ring).
      rewrite E2, <- !Zle_Qle. lia. }
    rewrite <- Ht in Hn1.
    split; [apply Qnot_lt_le|apply Qnot_lt_le]; intros Hlt; nra. }
  assert (Q3 : (1152921504606846976 <= inject_Z R)%Q).
  { change (1152921504606846976%Q) with (inject_Z 1152921504606846976).
    rewrite <- Zle_Qle. exact Hbig. }
  apply Qabs_Qle_condition in Q2.
  assert (Q1' : (- inject_Z S <= (inject_Z R - inject_Z S) * 4503599627370496 <= inject_Z S)%Q).
  { pose proof (Qabs_nonneg (inject_Z R - inject_Z S)) as Hnn.
    pose proof (Qle_Qabs (inject_Z R - inject_Z S)) as Hle.
    pose proof (Qle_Qabs (- (inject_Z R - inject_Z S))) as Hle'.
    rewrite Qabs_opp in Hle'. split; lra. }
  assert (Htp : (0 < t)%Q) by lra.
  rewrite (Qabs_pos t) by lra.
  apply Qabs_Qle_condition. unfold eps50. split; lra.
Qed.

Lemma approx_scale (d x e k : Q) : (0 <= d)%Q -> approx d x e -> approx d (x * k) (e * k).
Proof.
  intros Hd H.
  apply (approx_weaken (d + 0 + d * 0)); [lra|].
  apply approx_mul; [exact Hd|lra|exact H|apply approx_refl; lra].
Qed.

Lemma eps50_pos : (0 <= eps50)%Q.
Proof. unfold eps50. lra. Qed.

Lemma eps52_pos : (0 <= eps52)%Q.
Proof. unfold eps52. lra. Qed.

(** A quotient by a positive number that lands in the normal range is the
    exact quotient up to [2^-50]. *)
Lemma js_div_approx (p P : number) :
  okf p = true -> okf P = true -> js_lt js_zero P = true ->
  is_normal (js_div p P) || is_zero p = true ->
  approx eps50 (toQ (js_div p P)) (toQ p / toQ P).
Proof.
  intros Op OP HP Hn.
  destruct (js_lt_zero_inv P HP) as [(mP & eP & ->)| ->]; [|discriminate].
  destruct p as [sp|sp| |sp mp ep]; [|discriminate Op|discriminate Op|].
  { (* a zero numerator *)
    cbn [js_div SFdiv toQ].
    apply (approx_wd eps50 0 _ 0 _); [reflexivity|unfold Qdiv; ring|].
    apply approx_refl, eps50_pos. }
  cbn [is_zero] in Hn. rewrite orb_false_r in Hn.
  assert (Hc : -2047 <= -2047) by lia.
  assert (Hcm : -2047 <= f64_emin) by (unfold f64_emin; lia).
  pose proof (js_div_rounds sp false mp mP ep eP (-2047) Op OP Hc) as Henc.
  rewrite xorb_false_r in Henc.
  pose proof (proj1 (okf_finite _ _ _) Op) as (Hep & Hep' & _).
  pose proof (proj1 (okf_finite _ _ _) OP) as (HeP & HeP' & _).
  unfold f64_emin in Hep, HeP.
  set (N := Zpos mp * 2 ^ (ep - eP - -2047 - 1)) in *.
  set (r := js_div (S754_finite sp mp ep) (S754_finite false mP eP)) in *.
  assert (HN : 0 < N).
  { unfold N. pose proof (pow2_pos (ep - eP - -2047 - 1) ltac:(lia)). nia. }
  assert (Fr : is_finite r = true).
  { unfold is_normal in Hn. apply andb_true_iff in Hn. tauto. }
  (* the result as a rounding *)
  assert (Hr : okf r = true /\ sval (-2047) r = cond_Zopp sp (RN (-2047) (sticky N (Zpos mP)))).
  { revert Hn Henc Fr. destruct r as [s|s| |s m e]; try discriminate.
    intros _ (-> & Hok & Hv) _. split; [exact Hok|]. cbn [sval]. rewrite Hv. reflexivity. }
  destruct Hr as [Or Hv].
  pose proof (is_normal_sval r (-2047) Or Hcm Hn) as Hnorm.
  assert (HR0 : 0 <= RN (-2047) (sticky N (Zpos mP))) by (apply RN_nonneg; exact Hcm).
  assert (Hnorm' : 2 ^ (-1022 - -2047) <= RN (-2047) (sticky N (Zpos mP))).
  { rewrite Hv in Hnorm. destruct sp; cbn [cond_Zopp] in Hnorm; lia. }
  pose proof (RN_sticky_approx (-2047) N (Zpos mP) Hc HN ltac:(lia) Hnorm') as Happ.
  apply (approx_scale _ _ _ (2 ^ (-2047))%Q eps50_pos) in Happ.
  (* the exact quotient *)
  assert (Hex : (inject_Z (Zpos mp) * 2 ^ ep / (inject_Z (Zpos mP) * 2 ^ eP)
                 == 2 * inject_Z N / inject_Z (Zpos mP) * 2 ^ (-2047))%Q).
  { unfold N. rewrite inject_Z_mult, pow2Q_inject by lia.
    assert (E : (2 ^ ep == 2 ^ (ep - eP - -2047 - 1) * (2 * 2 ^ (-2047)) * 2 ^ eP)%Q).
    { replace ep with ((ep - eP - -2047 - 1) + (1 + -2047) + eP) at 1 by lia.
      rewrite !pow2Q_add. reflexivity. }
    rewrite E.
    pose proof (pow2Q_pos eP). pose proof (pow2Q_pos (-2047)).
    assert ((0 < inject_Z (Zpos mP)))%Q by (rewrite <- (Zlt_Qlt 0); lia).
    field. split; lra. }
  pose proof (toQ_okf r (-2047) Or Hcm) as Hrq. rewrite Hv in Hrq.
  destruct sp; cbn [cond_Zopp toQ] in *.
  - apply approx_opp in Happ.
    eapply approx_wd; [| |exact Happ].
    + rewrite Hrq, inject_Z_opp. ring.
    + rewrite <- Hex. change (Z.neg mp) with (- Zpos mp). rewrite inject_Z_opp.
      pose proof (pow2Q_pos eP).
      assert ((0 < inject_Z (Zpos mP)))%Q by (rewrite <- (Zlt_Qlt 0); lia).
      field. split; lra.
  - eapply approx_wd; [| |exact Happ].
    + rewrite Hrq. reflexivity.
    + rewrite <- Hex. reflexivity.
Qed.

(* ===================================================================== *)
(** * 24. The accuracy of the net amount *)
(* ===================================================================== *)

Lemma is_normal_finite (x : number) : is_normal x = true -> is_finite x = true.
Proof. unfold is_normal. rewrite andb_true_iff. tauto. Qed.

Lemma is_zero_finite (x : number) : is_zero x = true -> is_finite x = true.
Proof. destruct x; try discriminate; reflexivity. Qed.

Lemma js_mul_zero_l (x y : number) :
  is_zero x = true -> is_finite y = true -> is_zero (js_mul x y) = true.
Proof. destruct x; try discriminate. destruct y; try discriminate; reflexivity. Qed.

Lemma js_mul_zero_r (x y : number) :
  is_finite x = true -> is_zero y = true -> is_zero (js_mul x y) = true.
Proof. destruct y; try discriminate. destruct x; try discriminate; reflexivity. Qed.

Lemma js_div_zero_num (x y : number) :
  is_zero x = true -> js_lt js_zero y = true -> is_finite y = true ->
  is_zero (js_div x y) = true.
Proof.
  destruct x; try discriminate. intros _ Hy _.
  destruct (js_lt_zero_inv y Hy) as [(m & e & ->)| ->]; reflexivity.
Qed.

Lemma finite_double_inv (x : number) :
  finite_double x = true -> is_double x = true /\ is_finite x = true /\ okf x = true.
Proof.
  unfold finite_double. rewrite andb_true_iff. intros [Hd Hf].
  split; [exact Hd|]. split; [exact Hf|]. apply is_double_okf; assumption.
Qed.

Ltac qle_compute := apply Qle_bool_iff; vm_compute; reflexivity.

(** The accuracy of the net amount when no rounding leaves the normal
    range. *)
Lemma netProceeds_accurate (H : Token.t) (q : ExchangeRate.t) :
  js_gt (Token.price H) js_zero = true ->
  finite_double (Token.price H) = true -> finite_double (Token.value H) = true ->
  finite_double (ExchangeRate.price q) = true -> finite_double (ExchangeRate.fee q) = true ->
  rounds_in_range H q = true ->
  is_finite (netProceeds H q) = true /\
  approx tolerance (toQ (netProceeds H q)) (exact_netAmount H q).
Proof.
  intros HP FP Fv Fp Ff Hr.
  destruct (finite_double_inv _ FP) as (DP & FP' & OP).
  destruct (finite_double_inv _ Fv) as (Dv & Fv' & Ov).
  destruct (finite_double_inv _ Fp) as (Dp & Fp' & Op).
  destruct (finite_double_inv _ Ff) as (Df & Ff' & Of).
  unfold rounds_in_range in Hr. cbn zeta in Hr.
  unfold netProceeds, exact_netAmount.
  set (ratio := js_div (ExchangeRate.price q) (Token.price H)) in *.
  set (gross := js_mul (Token.value H) ratio) in *.
  set (keep := js_sub js_one (ExchangeRate.fee q)) in *.
  rewrite !andb_true_iff in Hr. destruct Hr as [[H1 H2] H3].
  unfold js_gt in HP.
  (* the quotient *)
  assert (Fr : is_finite ratio = true).
  { apply orb_true_iff in H1. destruct H1 as [H1|H1]; [apply is_normal_finite; exact H1|].
    apply is_zero_finite, js_div_zero_num; assumption. }
  assert (Dr : is_double ratio = true) by (apply js_div_double; assumption).
  pose proof (js_div_approx _ _ Op OP HP H1) as Ar. fold ratio in Ar.
  (* the first product *)
  assert (Fg : is_finite gross = true).
  { rewrite !orb_true_iff in H2. destruct H2 as [[H2|H2]|H2].
    - apply is_normal_finite; exact H2.
    - apply is_zero_finite, js_mul_zero_l; assumption.
    - apply is_zero_finite, js_mul_zero_r; assumption. }
  assert (Dg : is_double gross = true) by (apply js_mul_double; assumption).
  pose proof (js_mul_approx _ _ Dv Dr Fv' Fr Fg H2) as Ag. fold gross in Ag.
  (* the fee factor *)
  assert (Fk : is_finite keep = true) by (apply js_sub_one_finite; exact Of).
  assert (Dk : is_double keep = true) by (apply js_sub_double; [reflexivity|exact Df]).
  pose proof (js_sub_approx js_one _ eq_refl Of Fk) as Ak. fold keep in Ak.
  (* the second product *)
  assert (Fn : is_finite (js_mul gross keep) = true).
  { rewrite !orb_true_iff in H3. destruct H3 as [[H3|H3]|H3].
    - apply is_normal_finite; exact H3.
    - apply is_zero_finite, js_mul_zero_l; assumption.
    - apply is_zero_finite, js_mul_zero_r; assumption. }
  pose proof (js_mul_approx _ _ Dg Dk Fg Fk Fn H3) as An.
  split; [exact Fn|].
  (* the errors compose *)
  set (ev := toQ (Token.value H)) in *. set (ep := toQ (ExchangeRate.price q)) in *.
  set (eP := toQ (Token.price H)) in *. set (ef := toQ (ExchangeRate.fee q)) in *.
  pose proof eps50_pos as P50. pose proof eps52_pos as P52.
  assert (B1 : approx eps50 (ev * toQ ratio) (ev * (ep / eP))).
  { apply (approx_weaken (0 + eps50 + 0 * eps50)); [lra|].
    apply approx_mul; [lra|exact P50|apply approx_refl; lra|exact Ar]. }
  assert (B2 : approx (1 # 562949953421312) (toQ gross) (ev * (ep / eP))).
  { apply (approx_weaken (eps52 + eps50 + eps52 * eps50)); [qle_compute|].
    apply (approx_trans _ _ _ (ev * toQ ratio)); assumption. }
  assert (B3 : approx eps52 (toQ keep) (1 - ef)).
  { assert (E1 : (toQ js_one == 1)%Q) by (vm_compute; reflexivity).
    apply (approx_wd eps52 (toQ keep) (toQ keep) (toQ js_one - ef) (1 - ef));
      [reflexivity|rewrite E1; reflexivity|exact Ak]. }
  assert (B4 : approx (1 # 281474976710656) (toQ gross * toQ keep) (ev * (ep / eP) * (1 - ef))).
  { apply (approx_weaken ((1 # 562949953421312) + eps52 + (1 # 562949953421312) * eps52));
      [qle_compute|].
    apply approx_mul; [discriminate|exact P52|exact B2|exact B3]. }
  apply (approx_weaken (eps52 + (1 # 281474976710656) + eps52 * (1 # 281474976710656)));
    [qle_compute|].
  apply (approx_trans _ _ _ (toQ gross * toQ keep)); [exact P52|discriminate|exact An|exact B4].
Qed.

(** The quotient [2^600 / 2^-600] overflows: the net amount of a holding
    worth [2^-700] is Infinity, where the formula gives [2^500]. *)
Example netProceeds_overflow :
  netProceeds tiny_holding huge_quote = S754_infinity false /\
  (exact_netAmount tiny_holding huge_quote == inject_Z (2 ^ 500))%Q.
Proof. split; vm_compute; reflexivity. Qed.

(** C1, as stated, fails: the quotient [3 * 2^-475 / 2^600] is subnormal
    and rounds to [2^-1073], so the annotation of the one ranked quote is
    [2^-73], a third above the value [3 * 2^-75] of the formula. *)
Lemma C1_subnormal_quotient :
  ~ (js_gt (Token.price steep_holding) js_zero = true ->
     forall q, In q (processedRates steep_holding [faint_quote]) ->
               within_tolerance (netOf q) (exact_netAmount steep_holding q) = true).
Proof.
  intros Hspec.
  assert (Hp : js_gt (Token.price steep_holding) js_zero = true) by (vm_compute; reflexivity).
  specialize (Hspec Hp (withNetAmount steep_holding faint_quote) (or_introl eq_refl)).
  vm_compute in Hspec. discriminate Hspec.
Qed.

(** C1, amended. Every record of the ranked result is an input quote
    annotated with the double the code computes from the quote's own
    price and fee.  For finite inputs and a positive unit price of the
    holding, that double equals the exact value of
    [H.totalValue * (q.unitPrice / H.unitPrice) * (1 - q.fee)] within the
    relative tolerance [1e-9], provided no rounding of the quotient or of
    the two products overflows or underflows. *)
Theorem C1_net_amount_formula (H : Token.t) (Q : list ExchangeRate.t)
    (q : ExchangeRate.t) :
  In q (processedRates H Q) ->
  (exists q0, In q0 Q /\ q = withNetAmount H q0) /\
  ExchangeRate.netAmount q = Some (netProceeds H q) /\
  (js_gt (Token.price H) js_zero = true ->
   finite_double (Token.price H) = true -> finite_double (Token.value H) = true ->
   finite_double (ExchangeRate.price q) = true -> finite_double (ExchangeRate.fee q) = true ->
   rounds_in_range H q = true ->
   within_tolerance (netOf q) (exact_netAmount H q) = true).
Proof.
  intros Hin. apply processedRates_In in Hin. destruct Hin as (q0 & Hq0 & ->).
  split; [exists q0; auto|]. split; [reflexivity|].
  intros HP FP Fv Fp Ff Hr.
  destruct (netProceeds_accurate H (withNetAmount H q0) HP FP Fv Fp Ff Hr) as [Hfin Happ].
  rewrite netOf_withNetAmount.
  change (netProceeds H (withNetAmount H q0)) with (netProceeds H q0) in Hfin, Happ.
  unfold within_tolerance. rewrite Hfin. cbn [andb].
  apply Qle_bool_iff. exact Happ.
Qed.

Lemma C1_net_amount_formula_witness :
  let q := withNetAmount scenario_holding (ExchangeRate.mk "A" (ofZ 2800) (dec 1 100) None) in
  In q (processedRates scenario_holding scenario_quotes) /\
  ExchangeRate.netAmount q = Some (ofZ 990) /\
  rounds_in_range scenario_holding q = true /\
  within_tolerance (netOf q) (exact_netAmount scenario_holding q) = true.
Proof.
  cbn zeta.
  assert (Hin : In (withNetAmount scenario_holding (ExchangeRate.mk "A" (ofZ 2800) (dec 1 100) None))
                   (processedRates scenario_holding scenario_quotes)).
  { vm_compute. left. reflexivity. }
  destruct (C1_net_amount_formula _ _ _ Hin) as (_ & H2 & H3).
  split; [exact Hin|]. split; [|split].
  - rewrite H2. vm_compute. reflexivity.
  - vm_compute. reflexivity.
  - apply H3; vm_compute; reflexivity.
Defined.

(* ===================================================================== *)
(** * 25. The net amount is monotone in the value, the price and the fee *)
(* ===================================================================== *)

Lemma RNc_xkey (x : number) (a : Z) :
  dnum x = true -> a <= f64_emin -> RNc a (xkey a x) = xkey a x.
Proof.
  intros Hx Ha. pose proof (inf_key_big a Ha) as Hk. pose proof (omega_pos a Ha) as Ho.
  destruct (dnum_cases x Hx) as [[Hox _]|[s ->]].
  - rewrite (xkey_okf a x Hox).
    pose proof (okf_bound x a Hox Ha) as Hb.
    pose proof (RNs_exact x a Hox Ha) as He.
    rewrite RNc_unclamped; [exact He|].
    rewrite <- RNs_abs, He by exact Ha. exact Hb.
  - rewrite xkey_inf. rewrite RNc_clamped.
    + rewrite sgn_cond_Zopp by lia. destruct s; cbn [cond_Zopp]; lia.
    + apply RN_beyond; [exact Ha|]. destruct s; cbn [cond_Zopp]; lia.
Qed.

Lemma js_le_refl (x : number) : dnum x = true -> js_le x x = true.
Proof.
  intros Hx. apply (js_le_dnum x x f64_emin Hx Hx); lia.
Qed.

Lemma js_le_trans (x y z : number) :
  dnum x = true -> dnum y = true -> dnum z = true ->
  js_le x y = true -> js_le y z = true -> js_le x z = true.
Proof.
  intros Hx Hy Hz H1 H2. assert (Ha : f64_emin <= f64_emin) by lia.
  apply (js_le_dnum x y f64_emin Hx Hy Ha) in H1.
  apply (js_le_dnum y z f64_emin Hy Hz Ha) in H2.
  apply (js_le_dnum x z f64_emin Hx Hz Ha). lia.
Qed.

Lemma ncompare_antisym (x y : number) :
  ncompare y x = option_map CompOpp (ncompare x y).
Proof.
  destruct x as [sx|sx| |sx mx ex]; destruct y as [sy|sy| |sy my ey];
    cbn [ncompare common_exp option_map]; try reflexivity;
    try (destruct sx; reflexivity); try (destruct sy; reflexivity);
    try (destruct sx, sy; reflexivity);
    rewrite ?(Z.min_comm ey ex); f_equal; apply Z.compare_antisym.
Qed.

Lemma js_le_not_lt (x y : number) : js_le x y = true -> js_lt y x = false.
Proof.
  unfold js_le, js_lt. rewrite (ncompare_antisym x y).
  destruct (ncompare x y) as [[| |]|]; cbn; try discriminate; reflexivity.
Qed.

Lemma js_lt_nan_l (y : number) : js_lt S754_nan y = false.
Proof. reflexivity. Qed.

Lemma js_lt_nan_r (x : number) : js_lt x S754_nan = false.
Proof. destruct x; reflexivity. Qed.

Lemma not_nan_cases (x : number) : is_nan x = true \/ is_nan x = false.
Proof. destruct (is_nan x); auto. Qed.

Lemma is_nan_eq (x : number) : is_nan x = true -> x = S754_nan.
Proof. destruct x; try discriminate; reflexivity. Qed.

(** NaN is absorbing. *)
Lemma js_mul_nan_inv (x y : number) :
  is_nan (js_mul x y) = false -> is_nan x = false /\ is_nan y = false.
Proof. destruct x, y; try discriminate; auto. Qed.

Lemma js_add_nan_l (y : number) : js_add S754_nan y = S754_nan.
Proof. reflexivity. Qed.

Lemma js_add_nan_r (x : number) : js_add x S754_nan = S754_nan.
Proof. destruct x; reflexivity. Qed.

Lemma rounds_to_not_nan (a V : Z) (r : number) : rounds_to a V r -> is_nan r = false.
Proof.
  intros [[Hok _]|(s & -> & _)]; [|reflexivity].
  destruct r; try discriminate; reflexivity.
Qed.

Lemma js_sub_finite_not_nan (x y : number) :
  okf x = true -> okf y = true -> is_nan (js_sub x y) = false.
Proof.
  intros Hx Hy. apply (rounds_to_not_nan f64_emin (sval f64_emin x - sval f64_emin y)).
  apply js_sub_spec; [assumption|assumption|lia].
Qed.

Lemma js_div_zero_l (y : number) :
  is_finite y = true -> js_lt js_zero y = true -> js_div js_zero y = js_zero.
Proof.
  intros _ Hy. destruct (js_lt_zero_inv y Hy) as [(m & e & ->)| ->]; reflexivity.
Qed.

Lemma js_lt_le (x y : number) : js_lt x y = true -> js_le x y = true.
Proof. unfold js_lt, js_le. destruct (ncompare x y) as [[| |]|]; try discriminate; reflexivity. Qed.

Lemma js_le_finite_between (x y z : number) :
  is_double y = true ->
  js_le x y = true -> js_le y z = true -> is_finite x = true -> is_finite z = true ->
  is_finite y = true.
Proof.
  intros _ H1 H2 Fx Fz.
  destruct y as [s|s| |s m e]; try reflexivity.
  - destruct s.
    + destruct x; try discriminate; destruct s; discriminate.
    + destruct z; try discriminate; destruct s; discriminate.
  - destruct x; discriminate.
Qed.

Lemma netProceeds_net_of (H : Token.t) (q : ExchangeRate.t) :
  netProceeds H q =
  net_of (Token.value H) (ExchangeRate.price q) (Token.price H) (ExchangeRate.fee q).
Proof. reflexivity. Qed.

(** More value, a better price and a lower fee never give a smaller net
    amount. *)
Lemma net_of_mono (v v' p p' P f f' : number) :
  is_double v = true -> is_double v' = true ->
  is_double p = true -> is_double p' = true -> is_double P = true ->
  is_double f = true -> is_double f' = true ->
  js_le js_zero v = true -> js_le v v' = true ->
  js_le js_zero p = true -> js_le p p' = true ->
  is_finite P = true -> js_lt js_zero P = true ->
  js_le js_zero f' = true -> js_le f' f = true -> js_le f js_one = true ->
  is_nan (net_of v p P f) = false -> is_nan (net_of v' p' P f') = false ->
  js_le (net_of v p P f) (net_of v' p' P f') = true.
Proof.
  intros Dv Dv' Dp Dp' DP Df Df' H0v Hv H0p Hp FP HP H0f Hf Hf1 Hn Hn'.
  unfold net_of in *.
  assert (D1 : is_double js_one = true) by reflexivity.
  assert (D0 : is_double js_zero = true) by reflexivity.
  destruct (js_le_not_nan _ _ Hf) as [Nf' Nf].
  pose proof (dnum_intro f Df Nf) as Kf. pose proof (dnum_intro f' Df' Nf') as Kf'.
  assert (K0 : dnum js_zero = true) by reflexivity.
  assert (K1 : dnum js_one = true) by reflexivity.
  (* the fees are finite *)
  assert (Ff : is_finite f = true).
  { apply (js_le_finite_between js_zero f js_one Df); try reflexivity; [|exact Hf1].
    apply (js_le_trans js_zero f' f); assumption. }
  assert (Ff' : is_finite f' = true).
  { apply (js_le_finite_between js_zero f' js_one Df'); try reflexivity; [exact H0f|].
    apply (js_le_trans f' f js_one); assumption. }
  pose proof (is_double_okf f Df Ff) as Of. pose proof (is_double_okf f' Df' Ff') as Of'.
  (* the fee factors *)
  set (g := js_sub js_one f) in *. set (g' := js_sub js_one f') in *.
  assert (Ng : is_nan g = false) by (apply js_sub_finite_not_nan; [reflexivity|exact Of]).
  assert (Ng' : is_nan g' = false) by (apply js_sub_finite_not_nan; [reflexivity|exact Of']).
  assert (Dg : is_double g = true) by (apply js_sub_double; assumption).
  assert (Dg' : is_double g' = true) by (apply js_sub_double; assumption).
  assert (Hg : js_le g g' = true).
  { apply js_sub_mono; assumption. }
  assert (H0g : js_le js_zero g = true).
  { change js_zero with (js_sub js_one js_one). apply js_sub_mono; first [assumption|reflexivity]. }
  (* the quotients *)
  set (r := js_div p P) in *. set (r' := js_div p' P) in *.
  assert (Dr : is_double r = true) by (apply js_div_double; assumption).
  assert (Dr' : is_double r' = true) by (apply js_div_double; assumption).
  assert (Hr : js_le r r' = true) by (apply js_div_mono; assumption).
  assert (H0r : js_le js_zero r = true).
  { rewrite <- (js_div_zero_l P FP HP). apply js_div_mono; first [assumption|reflexivity]. }
  (* the products *)
  destruct (js_mul_nan_inv _ _ Hn) as [Na _]. destruct (js_mul_nan_inv _ _ Hn') as [Na' _].
  set (A := js_mul v r) in *. set (A' := js_mul v' r') in *.
  assert (DA : is_double A = true) by (apply js_mul_double; assumption).
  assert (DA' : is_double A' = true) by (apply js_mul_double; assumption).
  assert (HA : js_le A A' = true) by (apply js_mul_mono; assumption).
  assert (H0A : js_le js_zero A = true) by (apply js_mul_nonneg; assumption).
  apply js_mul_mono; assumption.
Qed.

Lemma sound_quote_inv (q : ExchangeRate.t) :
  sound_quote q = true ->
  is_double (ExchangeRate.price q) = true /\ is_double (ExchangeRate.fee q) = true /\
  is_finite (ExchangeRate.price q) = true /\ js_lt js_zero (ExchangeRate.price q) = true /\
  js_le js_zero (ExchangeRate.fee q) = true /\ js_lt (ExchangeRate.fee q) js_one = true.
Proof. unfold sound_quote. rewrite !andb_true_iff. tauto. Qed.

Lemma sound_holding_inv (H : Token.t) :
  sound_holding H = true ->
  is_double (Token.price H) = true /\ is_double (Token.value H) = true /\
  is_finite (Token.price H) = true /\ js_lt js_zero (Token.price H) = true /\
  js_le js_zero (Token.value H) = true.
Proof. unfold sound_holding. rewrite !andb_true_iff. tauto. Qed.

Lemma sound_quote_valid (q : ExchangeRate.t) :
  sound_quote q = true -> spec_valid_quote q = true.
Proof.
  intros Hq. destruct (sound_quote_inv q Hq) as (Dp & Df & Fp & Hp & H0 & H1).
  unfold spec_valid_quote, js_gt. rewrite Fp, Hp, H0, H1. cbn.
  rewrite andb_true_r.
  destruct (ExchangeRate.fee q) as [s|s| |s m e]; try reflexivity; try discriminate.
  destruct s; discriminate.
Qed.

(** With a finite positive value no net amount is NaN. *)
Lemma net_not_nan (H : Token.t) (q : ExchangeRate.t) :
  sound_holding H = true -> sound_quote q = true ->
  is_finite (Token.value H) = true -> js_lt js_zero (Token.value H) = true ->
  is_nan (netProceeds H q) = false.
Proof.
  intros HH Hq Fv Hv.
  destruct (sound_holding_inv H HH) as (DP & Dv & FP & HP & H0v).
  destruct (sound_quote_inv q Hq) as (Dp & Df & Fp & Hp & H0 & H1).
  pose proof (net_class H q HP Df (sound_quote_valid q Hq)) as Hc. cbn zeta in Hc.
  destruct (js_lt_zero_inv _ Hv) as [(m & e & E)|E]; rewrite E in *; [|discriminate].
  apply Hc.
Qed.

(** X1. A quote with a price at least as high and a fee at least as low as
    another one never nets less: its net amount is not below the other's,
    and it is [>=] the other's whenever neither is NaN, in particular for
    every finite positive holding value. *)
Theorem better_quote_nets_no_less (H : Token.t) (q1 q2 : ExchangeRate.t) :
  sound_holding H = true -> sound_quote q1 = true -> sound_quote q2 = true ->
  js_le (ExchangeRate.price q2) (ExchangeRate.price q1) = true ->
  js_le (ExchangeRate.fee q1) (ExchangeRate.fee q2) = true ->
  js_lt (netProceeds H q1) (netProceeds H q2) = false /\
  (is_nan (netProceeds H q1) = false -> is_nan (netProceeds H q2) = false ->
   js_le (netProceeds H q2) (netProceeds H q1) = true) /\
  (is_finite (Token.value H) = true -> js_lt js_zero (Token.value H) = true ->
   js_le (netProceeds H q2) (netProceeds H q1) = true).
Proof.
  intros HH Hq1 Hq2 Hprice Hfee.
  destruct (sound_holding_inv H HH) as (DP & Dv & FP & HP & H0v).
  destruct (sound_quote_inv q1 Hq1) as (Dp1 & Df1 & Fp1 & Hp1 & H01 & H11).
  destruct (sound_quote_inv q2 Hq2) as (Dp2 & Df2 & Fp2 & Hp2 & H02 & H12).
  assert (Hle : is_nan (netProceeds H q1) = false -> is_nan (netProceeds H q2) = false ->
                js_le (netProceeds H q2) (netProceeds H q1) = true).
  { intros N1 N2. rewrite !netProceeds_net_of in *.
    apply net_of_mono; try assumption.
    - apply js_le_refl, dnum_intro; [exact Dv|]. apply (js_le_not_nan _ _ H0v).
    - apply js_lt_le. exact Hp2.
    - apply js_lt_le. exact H12. }
  split; [|split].
  - destruct (not_nan_cases (netProceeds H q1)) as [N1|N1].
    { rewrite (is_nan_eq _ N1). reflexivity. }
    destruct (not_nan_cases (netProceeds H q2)) as [N2|N2].
    { rewrite (is_nan_eq _ N2). apply js_lt_nan_r. }
    apply js_le_not_lt. apply Hle; assumption.
  - exact Hle.
  - intros Fv Hv. apply Hle; apply net_not_nan; assumption.
Qed.

Lemma better_quote_nets_no_less_witness :
  js_le (netProceeds scenario_holding (ExchangeRate.mk "B" (ofZ 2790) (dec 2 100) None))
        (netProceeds scenario_holding (ExchangeRate.mk "A" (ofZ 2800) (dec 1 100) None)) = true.
Proof.
  apply (better_quote_nets_no_less scenario_holding
           (ExchangeRate.mk "A" (ofZ 2800) (dec 1 100) None)
           (ExchangeRate.mk "B" (ofZ 2790) (dec 2 100) None));
    vm_compute; reflexivity.
Defined.

(** X2. For one quote, a holding of greater value (at the same unit
    price) never nets less. *)
Theorem larger_holding_nets_no_less (H H' : Token.t) (q : ExchangeRate.t) :
  sound_holding H = true -> sound_holding H' = true -> sound_quote q = true ->
  Token.price H = Token.price H' ->
  js_le (Token.value H) (Token.value H') = true ->
  js_lt (netProceeds H' q) (netProceeds H q) = false /\
  (is_nan (netProceeds H q) = false -> is_nan (netProceeds H' q) = false ->
   js_le (netProceeds H q) (netProceeds H' q) = true).
Proof.
  intros HH HH' Hq HPP Hval.
  destruct (sound_holding_inv H HH) as (DP & Dv & FP & HP & H0v).
  destruct (sound_holding_inv H' HH') as (DP' & Dv' & FP' & HP' & H0v').
  destruct (sound_quote_inv q Hq) as (Dp & Df & Fp & Hp & H0 & H1).
  assert (Hle : is_nan (netProceeds H q) = false -> is_nan (netProceeds H' q) = false ->
                js_le (netProceeds H q) (netProceeds H' q) = true).
  { intros N1 N2. rewrite !netProceeds_net_of in *. rewrite <- HPP in *.
    apply net_of_mono; try assumption.
    - apply js_lt_le. exact Hp.
    - apply js_le_refl, dnum_intro; [exact Dp|]. apply (js_lt_not_nan _ _ Hp).
    - apply js_le_refl, dnum_intro; [exact Df|]. apply (js_lt_not_nan _ _ H1).
    - apply js_lt_le. exact H1. }
  split; [|exact Hle].
  destruct (not_nan_cases (netProceeds H q)) as [N1|N1].
  { rewrite (is_nan_eq _ N1). apply js_lt_nan_r. }
  destruct (not_nan_cases (netProceeds H' q)) as [N2|N2].
  { rewrite (is_nan_eq _ N2). reflexivity. }
  apply js_le_not_lt. apply Hle; assumption.
Qed.

Lemma larger_holding_nets_no_less_witness :
  js_le (netProceeds scenario_holding (ExchangeRate.mk "A" (ofZ 2800) (dec 1 100) None))
        (netProceeds (Token.mk "ETH" "Ethereum" "1" (ofZ 2800) (ofZ 2800) None)
                     (ExchangeRate.mk "A" (ofZ 2800) (dec 1 100) None)) = true.
Proof.
  apply (larger_holding_nets_no_less scenario_holding
           (Token.mk "ETH" "Ethereum" "1" (ofZ 2800) (ofZ 2800) None)
           (ExchangeRate.mk "A" (ofZ 2800) (dec 1 100) None));
    vm_compute; reflexivity.
Defined.
